(** * Agentic wallets: the multi-signature proposal lifecycle and the
      inference-backed decision engine, embedded from the JavaScript
      sources.

    - [Wallet] embeds the methods of [WalletManager] the two subsystems
      call ([_getKeypair], [publicKeyObj], [signOnly], [signAndSend]), and
      what web3.js's [sendAndConfirmTransaction] does to the transaction
      object it is handed.
    - [MultiSig] embeds [src/wallet/MultiSigManager.js].
    - [Engine] embeds [LLMDecisionEngine.js] and the methods of
      [DecisionEngine.js] it inherits or falls back on.
    - [DeFi] embeds [WalletManager.sendSOL] and the method
      [rebalancePool] of [src/defi/DeFiProtocol.js]; the sums and
      differences of its bookkeeping are exact.
    - [RuleEngine] embeds [tick] and [_executeState] of
      [DecisionEngine.js].
    - [MultiSigInv] and [EngineObs] define the invariants and the
      observations the later theorems speak about.
    - [MultiSigFacts], [EngineFacts], [MultiSigMore], [EngineMore],
      [DeFiFacts] and [RuleEngineFacts] hold the lemmas and theorems.

    JavaScript numbers that count things (signature counts, thresholds,
    cycle numbers, timestamps, lamports) are integers of [Z]; SOL amounts
    are rationals of [Q] and their sums, differences and products are
    exact.  The rounding of double arithmetic is not modelled: where the
    source compares or rounds a computed amount that lies within a
    rounding error of the threshold or of a tie, it can decide the other
    way (0.013 - 0.01 is below 0.003 in doubles).  Where a theorem states a
    threshold on a computed amount, it does so in the direction, or with
    the strictness, that such an error does not turn; the bookkeeping of
    [rebalancePool] is stated for the exact sums.  A [throw] is the
    left injection of a sum; the answers of the outside world (RPC node,
    clock, identifier generator, inference API, random source, trading
    protocol) are passed in as an explicit record per call.  Log lines are
    left out: they influence neither the state nor the control flow. *)

From stdpp Require Import gmap strings list.
From Stdlib Require Import Ascii ZArith QArith Qround Qminmax Lqa Lia.

Local Open Scope Z_scope.
Local Open Scope string_scope.

(* ===================================================================== *)
(** ** The wallet methods both subsystems call *)
(* ===================================================================== *)

Module Wallet.

(** One constructor per [throw] site of the embedded sources;
    [ExternalError] stands for an exception raised inside a library or by
    the network, [TypeError] for a property read on [undefined]. *)
Inductive Exn :=
| ProposalNotFound (proposalId : string)
| ProposalNotPending (proposalId : string) (st : string)
| NotAuthorizedSigner (agentId proposalId : string)
| NotYetApproved (proposalId : string) (count : Z) (required : Z)
| AlreadyExecuted (proposalId : string)
| WalletNotLoaded (agentId : string)
| TypeError (msg : string)
| ExternalError (msg : string).

(** web3.js's [LAMPORTS_PER_SOL] *)
Definition LAMPORTS_PER_SOL : Q := 1000000000 # 1.

Definition Signature := list Byte.byte.

(** [Buffer.alloc(n)]: [n] zero bytes. *)
Definition Buffer_alloc (n : nat) : Signature := repeat Byte.x00 n.

Record Keypair := {
  publicKey : string;
  secretKey : list Byte.byte
}.

(** The transfer transaction built by [createTransferProposal]; [signature]
    is web3.js's getter for the fee payer's signature ([None] for null). *)
Record Transaction := {
  recentBlockhash : string;
  feePayer : string;
  fromPubkey : string;
  toPubkey : string;
  lamports : Z;
  signature : option Signature
}.

Record WalletManager := {
  agentId : string;
  _keypair : option Keypair
}.

(** [WalletManager._getKeypair]. *)
Definition _getKeypair (w : WalletManager) : Exn + Keypair :=
  match _keypair w with
  | None => inl (WalletNotLoaded (agentId w))
  | Some kp => inr kp
  end.

(** getter [publicKeyObj] *)
Definition publicKeyObj (w : WalletManager) : Exn + string :=
  match _getKeypair w with
  | inl e => inl e
  | inr kp => inr (publicKey kp)
  end.

(** [WalletManager.signOnly]: sets the fee payer, signs, and returns the
    same (mutated) transaction object.  [nacl_sign] is the Ed25519
    signature of a transaction under a key pair. *)
Definition signOnly (nacl_sign : Keypair -> Transaction -> Signature)
    (w : WalletManager) (tx : Transaction) : Exn + Transaction :=
  match _getKeypair w with
  | inl e => inl e
  | inr kp =>
      let tx1 := {| recentBlockhash := recentBlockhash tx;
                    feePayer := publicKey kp;
                    fromPubkey := fromPubkey tx;
                    toPubkey := toPubkey tx;
                    lamports := lamports tx;
                    signature := signature tx |} in
      inr {| recentBlockhash := recentBlockhash tx1;
             feePayer := feePayer tx1;
             fromPubkey := fromPubkey tx1;
             toPubkey := toPubkey tx1;
             lamports := lamports tx1;
             signature := Some (nacl_sign kp tx1) |}
  end.

(** What one call [sendAndConfirmTransaction(conn, tx, [keypair])] of
    web3.js does.  [answer] is the signature it returns or the exception
    it throws.  [rewritten] is what it wrote into the transaction object on
    the way: [sendTransaction] stores the node's latest block hash in
    [recentBlockhash] and signs again with the one key pair it was given,
    which resets the signature list, so [transaction.signature] is that
    key's signature if it is the fee payer's key and null otherwise.  It
    is [None] when the call threw before writing.  The library throws
    without sending when the key pair is not the fee payer's or a required
    signature is missing. *)
Record Sent := {
  answer : Exn + string;
  rewritten : option (string * option Signature)
}.

(** The transaction object after such a call. *)
Definition after_send (tx : Transaction) (sent : Sent) : Transaction :=
  match rewritten sent with
  | None => tx
  | Some (blockhash, sig) =>
      {| recentBlockhash := blockhash;
         feePayer := feePayer tx;
         fromPubkey := fromPubkey tx;
         toPubkey := toPubkey tx;
         lamports := lamports tx;
         signature := sig |}
  end.

(** [WalletManager.signAndSend]: the result of [sendAndConfirmTransaction],
    the transaction object as the call leaves it, and what was handed to
    the library for sending. *)
Definition signAndSend
    (sendAndConfirmTransaction : Transaction -> Keypair -> Sent)
    (w : WalletManager) (tx : Transaction)
  : (Exn + string) * Transaction * list Transaction :=
  match _getKeypair w with
  | inl e => (inl e, tx, [])
  | inr keypair =>
      let sent := sendAndConfirmTransaction tx keypair in
      (answer sent, after_send tx sent, [tx])
  end.

End Wallet.

(* ===================================================================== *)
(** ** Multi-signature proposals *)
(* ===================================================================== *)

Module MultiSig.
Import Wallet.

(** [proposal.status]: the source stores one of four string constants. *)
Inductive Status := PENDING | APPROVED | EXECUTED | REJECTED.

#[global] Instance Status_eq_dec : EqDecision Status.
Proof. solve_decision. Defined.

(** The string the source stores for each status. *)
Definition Status_name (st : Status) : string :=
  match st with
  | PENDING => "PENDING"
  | APPROVED => "APPROVED"
  | EXECUTED => "EXECUTED"
  | REJECTED => "REJECTED"
  end.

(** What the outside world answers during one call: the node, the
    identifier generator, the clock, and the two calls into web3.js whose
    outcome the sources do not decide.  [transfer_encodes l] tells whether
    [SystemProgram.transfer] builds an instruction for [l] lamports: it
    throws on a number that its unsigned 64-bit field cannot hold. *)
Record World := {
  getLatestBlockhash : Exn + string;
  nanoid8 : string;
  Date_now : Z;
  transfer_encodes : Z -> bool;
  sendAndConfirmTransaction : Transaction -> Keypair -> Sent
}.

Record MultiSigProposal := {
  proposalId : string;
  proposerAgentId : string;
  description : string;
  transaction : Transaction;
  requiredSigners : Z;
  authorizedSigners : list string;
  signatures : gmap string Signature;
  status : Status;
  createdAt : Z;
  executedAt : option Z;
  executionSignature : option string
}.

Record MultiSigManager := {
  _proposals : gmap string MultiSigProposal
}.

(** The result of a call: the value returned or the exception thrown, the
    manager afterwards, and the transactions handed to
    [sendAndConfirmTransaction], each as it was when handed over. *)
Record Ret (A : Type) := {
  value : Exn + A;
  mgr : MultiSigManager;
  broadcast : list Transaction
}.
Arguments value {A} _.
Arguments mgr {A} _.
Arguments broadcast {A} _.

(** [Math.round]: the nearest integer, halves upwards.  It is applied to
    the exact product of amount and [LAMPORTS_PER_SOL]; the source rounds
    the double product, which can fall on the other side of a half. *)
Definition Math_round (x : Q) : Z := Qfloor (x + (1 # 2))%Q.

Section WithLibraries.

(** The Ed25519 signature of a transaction under a key pair, and the
    validity test behind [new PublicKey(address)] (it throws on a string
    that is no base58 key). *)
Variable nacl_sign : Keypair -> Transaction -> Signature.
Variable PublicKey_valid : string -> bool.

(** [MultiSigProposal] constructor. *)
Definition new_MultiSigProposal (world : World)
    (proposalId proposerAgentId description : string) (tx : Transaction)
    (requiredSigners : Z) (authorizedSigners : list string) : MultiSigProposal :=
  {| proposalId := proposalId;
     proposerAgentId := proposerAgentId;
     description := description;
     transaction := tx;
     requiredSigners := requiredSigners;
     authorizedSigners := authorizedSigners;
     signatures := ∅;
     status := PENDING;
     createdAt := Date_now world;
     executedAt := None;
     executionSignature := None |}.

(** getter [signatureCount] *)
Definition signatureCount (p : MultiSigProposal) : Z :=
  Z.of_nat (size (signatures p)).

(** getter [isApproved] *)
Definition isApproved (p : MultiSigProposal) : bool :=
  bool_decide (requiredSigners p <= signatureCount p).

Definition set_transaction (p : MultiSigProposal) (tx : Transaction) : MultiSigProposal :=
  {| proposalId := proposalId p;
     proposerAgentId := proposerAgentId p;
     description := description p;
     transaction := tx;
     requiredSigners := requiredSigners p;
     authorizedSigners := authorizedSigners p;
     signatures := signatures p;
     status := status p;
     createdAt := createdAt p;
     executedAt := executedAt p;
     executionSignature := executionSignature p |}.

(** [proposal.signatures.set(agentId, sig)] *)
Definition set_signature (p : MultiSigProposal) (who : string) (sig : Signature)
  : MultiSigProposal :=
  {| proposalId := proposalId p;
     proposerAgentId := proposerAgentId p;
     description := description p;
     transaction := transaction p;
     requiredSigners := requiredSigners p;
     authorizedSigners := authorizedSigners p;
     signatures := <[who := sig]> (signatures p);
     status := status p;
     createdAt := createdAt p;
     executedAt := executedAt p;
     executionSignature := executionSignature p |}.

(** [proposal.status = st] *)
Definition set_status (p : MultiSigProposal) (st : Status) : MultiSigProposal :=
  {| proposalId := proposalId p;
     proposerAgentId := proposerAgentId p;
     description := description p;
     transaction := transaction p;
     requiredSigners := requiredSigners p;
     authorizedSigners := authorizedSigners p;
     signatures := signatures p;
     status := st;
     createdAt := createdAt p;
     executedAt := executedAt p;
     executionSignature := executionSignature p |}.

(** The three assignments that close [execute]. *)
Definition set_executed (p : MultiSigProposal) (now : Z) (sig : string)
  : MultiSigProposal :=
  {| proposalId := proposalId p;
     proposerAgentId := proposerAgentId p;
     description := description p;
     transaction := transaction p;
     requiredSigners := requiredSigners p;
     authorizedSigners := authorizedSigners p;
     signatures := signatures p;
     status := EXECUTED;
     createdAt := createdAt p;
     executedAt := Some now;
     executionSignature := Some sig |}.

(** [this._proposals.set(id, p)] *)
Definition store (m : MultiSigManager) (id : string) (p : MultiSigProposal)
  : MultiSigManager :=
  {| _proposals := <[id := p]> (_proposals m) |}.

(** [signed.signature || Buffer.alloc(64)] *)
Definition signature_or_zero (tx : Transaction) : Signature :=
  match signature tx with
  | Some s => s
  | None => Buffer_alloc 64
  end.

(** [MultiSigManager.createTransferProposal].  [amountSOL] is a number
    other than NaN, for which [SystemProgram.transfer] throws as it does
    for the amounts that [transfer_encodes] refuses. *)
Definition createTransferProposal (m : MultiSigManager) (world : World)
    (proposerWallet : WalletManager) (toAddress : string) (amountSOL : Q)
    (description : string) (requiredSigners : Z) (coSigners : list WalletManager)
  : Ret MultiSigProposal :=
  let throw e := {| value := inl e; mgr := m; broadcast := [] |} in
  match getLatestBlockhash world with
  | inl e => throw e
  | inr blockhash =>
    match _getKeypair proposerWallet with
    | inl e => throw e
    | inr kp =>
      if negb (PublicKey_valid toAddress)
      then throw (ExternalError "Invalid public key input")
      else if negb (transfer_encodes world
                      (Math_round (amountSOL * LAMPORTS_PER_SOL)%Q))
      then throw (ExternalError "lamports do not fit an unsigned 64-bit field")
      else
        let tx := {| recentBlockhash := blockhash;
                     feePayer := publicKey kp;
                     fromPubkey := publicKey kp;
                     toPubkey := toAddress;
                     lamports := Math_round (amountSOL * LAMPORTS_PER_SOL)%Q;
                     signature := None |} in
        let authorizedIds := agentId proposerWallet :: map agentId coSigners in
        let proposalId := "msig-" +:+ nanoid8 world in
        let proposal :=
          new_MultiSigProposal world proposalId (agentId proposerWallet)
                               description tx requiredSigners authorizedIds in
        (* Proposer signs first *)
        match signOnly nacl_sign proposerWallet tx with
        | inl e => throw e
        | inr signed =>
            let proposal := set_transaction proposal signed in
            let proposal :=
              set_signature proposal (agentId proposerWallet)
                            (signature_or_zero signed) in
            {| value := inr proposal;
               mgr := store m proposalId proposal;
               broadcast := [] |}
        end
    end
  end.

(** [MultiSigManager.coSign]; the value is [{ proposal, approved }]. *)
Definition coSign (m : MultiSigManager) (id : string) (signerWallet : WalletManager)
  : Ret (MultiSigProposal * bool) :=
  let throw e := {| value := inl e; mgr := m; broadcast := [] |} in
  match _proposals m !! id with
  | None => throw (ProposalNotFound id)
  | Some proposal =>
    if negb (bool_decide (status proposal = PENDING))
    then throw (ProposalNotPending id (Status_name (status proposal)))
    else if negb (bool_decide (agentId signerWallet ∈ authorizedSigners proposal))
    then throw (NotAuthorizedSigner (agentId signerWallet) id)
    else if bool_decide (is_Some (signatures proposal !! agentId signerWallet))
    then {| value := inr (proposal, isApproved proposal);
            mgr := m; broadcast := [] |}
    else
      match signOnly nacl_sign signerWallet (transaction proposal) with
      | inl e => throw e
      | inr signed =>
          let proposal := set_transaction proposal signed in
          let proposal :=
            set_signature proposal (agentId signerWallet)
                          (signature_or_zero signed) in
          let proposal :=
            if isApproved proposal then set_status proposal APPROVED
            else proposal in
          {| value := inr (proposal, isApproved proposal);
             mgr := store m id proposal;
             broadcast := [] |}
      end
  end.

(** The proposal [coSign] stores when it records a fresh signature
    (lines 167-178 of the source on their own). *)
Definition signed_by (p : MultiSigProposal) (w : WalletManager)
    (signed : Transaction) : MultiSigProposal :=
  let p1 := set_signature (set_transaction p signed) (agentId w)
                          (signature_or_zero signed) in
  if isApproved p1 then set_status p1 APPROVED else p1.

(** [MultiSigManager.execute].  The transaction handed to [signAndSend] is
    the object the stored proposal holds, so what the library writes into
    it is seen in the registry whether the call returns or throws. *)
Definition execute (m : MultiSigManager) (world : World) (id : string)
    (executorWallet : WalletManager) : Ret string :=
  let throw e := {| value := inl e; mgr := m; broadcast := [] |} in
  match _proposals m !! id with
  | None => throw (ProposalNotFound id)
  | Some proposal =>
    if negb (isApproved proposal)
    then throw (NotYetApproved id (signatureCount proposal)
                               (requiredSigners proposal))
    else if bool_decide (status proposal = EXECUTED)
    then throw (AlreadyExecuted id)
    else
      match signAndSend (sendAndConfirmTransaction world) executorWallet
                        (transaction proposal) with
      | (inl e, tx, sent) =>
          {| value := inl e;
             mgr := store m id (set_transaction proposal tx);
             broadcast := sent |}
      | (inr sig, tx, sent) =>
          {| value := inr sig;
             mgr := store m id
                      (set_executed (set_transaction proposal tx)
                                    (Date_now world) sig);
             broadcast := sent |}
      end
  end.

(** [getProposal] *)
Definition getProposal (m : MultiSigManager) (id : string) : option MultiSigProposal :=
  _proposals m !! id.

(** A caller's request to the manager, and a run of requests made one
    after another, each awaited before the next begins; every transaction
    handed to the library is logged under the proposal id the [execute]
    call named.  Calls that overlap are not covered: [execute] awaits the
    send between its test of the status and its write of EXECUTED, so two
    calls started together both pass the test. *)
Inductive Op :=
| OpCreate (proposerWallet : WalletManager) (toAddress : string) (amountSOL : Q)
           (description : string) (requiredSigners : Z)
           (coSigners : list WalletManager)
| OpCoSign (id : string) (signerWallet : WalletManager)
| OpExecute (id : string) (executorWallet : WalletManager).

Definition apply_op (m : MultiSigManager) (world : World) (op : Op)
  : MultiSigManager * list (string * Transaction) :=
  match op with
  | OpCreate pw to amt d req cos =>
      (mgr (createTransferProposal m world pw to amt d req cos), [])
  | OpCoSign id w => (mgr (coSign m id w), [])
  | OpExecute id w =>
      let r := execute m world id w in
      (mgr r, map (fun tx => (id, tx)) (broadcast r))
  end.

Fixpoint run (m : MultiSigManager) (calls : list (World * Op))
  : MultiSigManager * list (string * Transaction) :=
  match calls with
  | [] => (m, [])
  | (world, op) :: rest =>
      let '(m1, sent1) := apply_op m world op in
      let '(m2, sent2) := run m1 rest in
      (m2, (sent1 ++ sent2)%list)
  end.

(** The id a [createTransferProposal] call would store under. *)
Definition created_id (world : World) (op : Op) : option string :=
  match op with
  | OpCreate _ _ _ _ _ _ => Some ("msig-" +:+ nanoid8 world)
  | _ => None
  end.

End WithLibraries.

(** *** Fixtures: three loaded wallets and a cooperative outside world *)

Definition demo_sign (kp : Keypair) (tx : Transaction) : Signature :=
  secretKey kp.

Definition demo_valid (address : string) : bool := true.

Definition alice : WalletManager :=
  {| agentId := "alice";
     _keypair := Some {| publicKey := "ALiCE"; secretKey := [Byte.x0a] |} |}.
Definition bob : WalletManager :=
  {| agentId := "bob";
     _keypair := Some {| publicKey := "BoB"; secretKey := [Byte.x0b] |} |}.
Definition carol : WalletManager :=
  {| agentId := "carol";
     _keypair := Some {| publicKey := "CaRoL"; secretKey := [Byte.x0c] |} |}.

(** [SystemProgram.transfer] on the lamports of an unsigned 64-bit field. *)
Definition demo_encodes (l : Z) : bool := bool_decide (0 <= l < 2 ^ 64).

(** [sendAndConfirmTransaction] over a node that confirms what reaches it
    and answers with [blockhash] and [sig].  web3.js signs with the one
    key pair it is given and sends only a fully signed transaction: the
    call goes through when that key is the fee payer's and the fee payer
    is also the sender of the transfer, and throws otherwise (a key that
    is no account of the transaction is an unknown signer; the sender's or
    the recipient's key leaves the fee payer's signature missing; the fee
    payer's key alone leaves the sender's signature missing). *)
Definition demo_send (blockhash sig : string) (tx : Transaction) (kp : Keypair)
  : Sent :=
  if bool_decide (publicKey kp = feePayer tx)
  then
    if bool_decide (fromPubkey tx = feePayer tx)
    then {| answer := inr sig;
            rewritten := Some (blockhash, Some (demo_sign kp tx)) |}
    else {| answer := inl (ExternalError "Signature verification failed");
            rewritten := Some (blockhash, Some (demo_sign kp tx)) |}
  else if bool_decide (publicKey kp = fromPubkey tx)
          || bool_decide (publicKey kp = toPubkey tx)
  then {| answer := inl (ExternalError "!signature");
          rewritten := Some (blockhash, None) |}
  else {| answer := inl (ExternalError "unknown signer");
          rewritten := Some (blockhash, None) |}.

Definition demo_world : World :=
  {| getLatestBlockhash := inr "blockhash-1";
     nanoid8 := "V1StGXR8";
     Date_now := 1700000000000;
     transfer_encodes := demo_encodes;
     sendAndConfirmTransaction := demo_send "blockhash-7" "5VERv8NM" |}.

Definition empty_manager : MultiSigManager := {| _proposals := ∅ |}.

Definition demo_id : string := "msig-V1StGXR8".

(** [createTransferProposal(alice, dest, 0.5, "treasury", M, [bob, carol])]
    on a fresh manager. *)
Definition created (M : Z) : Ret MultiSigProposal :=
  createTransferProposal demo_sign demo_valid empty_manager demo_world
    alice "DeSTination" (1 # 2) "treasury" M [bob; carol].

(** ... followed by [coSign(id, bob)]. *)
Definition cosigned_bob (M : Z) : Ret (MultiSigProposal * bool) :=
  coSign demo_sign (mgr (created M)) demo_id bob.

(** [execute(id, alice)] right after the creation. *)
Definition executed_alice (M : Z) : Ret string :=
  execute (mgr (created M)) demo_world demo_id alice.

(** The proposal a manager holds under [demo_id] (a blank one if none). *)
Definition held (m : MultiSigManager) : MultiSigProposal :=
  default
    (new_MultiSigProposal demo_world demo_id "" ""
       {| recentBlockhash := ""; feePayer := ""; fromPubkey := "";
          toPubkey := ""; lamports := 0; signature := None |} 0 [])
    (getProposal m demo_id).

(** A second world, whose identifier generator returns another id. *)
Definition later_world : World :=
  {| getLatestBlockhash := inr "blockhash-2";
     nanoid8 := "4f90d13a";
     Date_now := 1700000060000;
     transfer_encodes := demo_encodes;
     sendAndConfirmTransaction := demo_send "blockhash-8" "3Qm9pLxW" |}.

(** Requests made after the proposal was executed. *)
Definition later_calls : list (World * Op) :=
  [ (later_world, OpExecute demo_id alice);
    (later_world, OpCoSign demo_id carol);
    (later_world, OpCreate bob "DeSTination" (1 # 4) "second" 1 [alice]);
    (later_world, OpExecute demo_id bob);
    (later_world, OpExecute "msig-4f90d13a" bob) ].

End MultiSig.

(* ===================================================================== *)
(** ** The decision engines *)
(* ===================================================================== *)

Module Engine.

Local Open Scope Q_scope.

(** *** JavaScript helpers on numbers and strings *)

(** [parseFloat(x.toFixed(6))]: the nearest multiple of 10^-6, a tie going
    away from zero ([toFixed] rounds the absolute value and, of two nearest
    candidates, takes the larger).  It is applied to the exact amount: the
    double that the source rounds lies a little off a decimal written as a
    tie, and goes to the side it lies on. *)
Definition toFixed6 (x : Q) : Q :=
  if Qlt_le_dec x 0
  then - (Qfloor ((- x) * 1000000 + (1 # 2)) # 1000000)
  else Qfloor (x * 1000000 + (1 # 2)) # 1000000.

(** [x || d] on a number-or-null: null and 0 are falsy. *)
Definition num_or (x : option Q) (d : Q) : Q :=
  match x with
  | Some q => if Qeq_bool q 0 then d else q
  | None => d
  end.

(** Truthiness of a string-or-null. *)
Definition truthy_string (x : option string) : bool :=
  match x with
  | Some s => negb (bool_decide (s = ""%string))
  | None => false
  end.

(** [l[Math.floor(r * l.length)]], [None] for [undefined]. *)
Definition random_element {A : Type} (r : Q) (l : list A) : option A :=
  let i := Qfloor (r * inject_Z (Z.of_nat (List.length l))) in
  if bool_decide (0 <= i)%Z then l !! Z.to_nat i else None.

(** [Math.min(a, b, c)] *)
Definition Math_min3 (a b c : Q) : Q := Qmin (Qmin a b) c.

(** The regular expression [/\{[\s\S]*\}/]: from the first opening brace
    to the last closing brace after it. *)
Fixpoint from_first_brace (s : string) : option string :=
  match s with
  | EmptyString => None
  | String c rest =>
      if Ascii.eqb c "{"%char then Some s else from_first_brace rest
  end.

Fixpoint upto_last_brace (s : string) : option string :=
  match s with
  | EmptyString => None
  | String c rest =>
      match upto_last_brace rest with
      | Some t => Some (String c t)
      | None => if Ascii.eqb c "}"%char then Some (String c EmptyString) else None
      end
  end.

Definition match_json (rawContent : string) : option string :=
  match from_first_brace rawContent with
  | Some s => upto_last_brace s
  | None => None
  end.

(** *** Data *)

(** [AgentState]: a frozen object of four string constants. *)
Definition IDLE : string := "IDLE".
Definition TRADE : string := "TRADE".
Definition YIELD : string := "YIELD".
Definition REBAL : string := "REBAL".

(** [Object.values(AgentState)] *)
Definition AgentState_values : list string := [IDLE; TRADE; YIELD; REBAL].

(** The decision object, read through the four fields of the response
    schema of [SYSTEM_PROMPT]: an action name (any string; a missing or
    non-string action is a string outside [AgentState_values]), a reason,
    a peer id or null, an amount that is a number or null.  An answer
    whose [tradeAmount] is neither (a string, say) has no counterpart
    here: the source turns it into NaN, which passes every comparison of
    [_validateDecision] and of [_doLLMTrade]. *)
Record Decision := {
  action : string;
  reason : string;
  tradeTarget : option string;
  tradeAmount : option Q
}.

Record PeerSnapshot := {
  ps_agentId : string;
  ps_balanceSOL : option Q
}.

Record Snapshot := {
  s_agentId : string;
  s_publicKey : string;
  balanceSOL : Q;
  cycleNumber : Z;
  s_tradeCount : Z;
  totalVolumeSOL : Q;
  s_peers : list PeerSnapshot;
  maxTradeSOL : Q;
  availablePeerIds : list string
}.

Record Engine := {
  agentId : string;
  wallet : Wallet.WalletManager;
  peers : list Wallet.WalletManager;
  state : string;
  cycleCount : Z;
  tradeCount : Z;
  totalVolume : Q;
  _apiKey : option string;
  _lastLLMDecision : option Decision;
  _llmCallCount : Z;
  _llmFailCount : Z
}.

(** What [emit] hands to the listeners. *)
Inductive Event :=
| decision_event (agentId : string) (cycle : Z) (balance : Q)
                 (prevState nextState : string) (source : option string)
                 (reason : option string)
| action_TRADE (agentId : string) (amount : Q) (target : string)
               (signature : string) (source : option string)
               (reason : option string)
| action_YIELD (agentId : string) (yieldAmount : Q) (signature : option string)
| action_REBAL (agentId : string) (targetBalance : Q)
| error_event (agentId : string) (state : string) (error : Wallet.Exn).

(** The outcome of [fetch] and of reading the response. *)
Inductive FetchResult :=
| FetchRejects (msg : string)
    (* network error, or the 15 s [AbortSignal.timeout] *)
| FetchResolves (ok : bool) (status : Z) (json : option (option string)).
    (* [json]: [None] when [response.json()] throws, otherwise
       [data.content?.[0]?.text], [None] for undefined *)

(** What the outside world answers during one cycle. *)
Record CycleWorld := {
  conn_getBalance : string -> Wallet.Exn + Z;
  conn_getBalance_peers : string -> Wallet.Exn + Z;
  conn_getBalance_rebal : string -> Wallet.Exn + Z;
  fetch : FetchResult;
  random_fallback_peer : Q;
  random_trade_peer : Q;
  random_trade_amount : Q;
  executeTrade : string -> Q -> Wallet.Exn + string;
  simulateYield : Q -> Wallet.Exn + option string;
  rebalancePool : Q -> Wallet.Exn + unit
}.

(** The result of a method of the engine: the exception raised to the
    caller if any, the engine afterwards, the events emitted, and the
    calls made to [protocol.executeTrade] (peer id and amount). *)
Record CycleRet := {
  raised : option Wallet.Exn;
  engine : Engine;
  events : list Event;
  trades : list (string * Q)
}.

(** [WalletManager.getSOLBalance] over one of the world's balance reads. *)
Definition getSOLBalance (getBalance : string -> Wallet.Exn + Z)
    (w : Wallet.WalletManager) : Wallet.Exn + Q :=
  match Wallet.publicKeyObj w with
  | inl e => inl e
  | inr pk =>
      match getBalance pk with
      | inl e => inl e
      | inr lamports => inr (inject_Z lamports / Wallet.LAMPORTS_PER_SOL)
      end
  end.

(** Field updates of the engine object. *)
Definition set_state (e : Engine) (st : string) : Engine :=
  {| agentId := agentId e; wallet := wallet e; peers := peers e;
     state := st; cycleCount := cycleCount e; tradeCount := tradeCount e;
     totalVolume := totalVolume e; _apiKey := _apiKey e;
     _lastLLMDecision := _lastLLMDecision e;
     _llmCallCount := _llmCallCount e; _llmFailCount := _llmFailCount e |}.

Definition incr_cycleCount (e : Engine) : Engine :=
  {| agentId := agentId e; wallet := wallet e; peers := peers e;
     state := state e; cycleCount := (cycleCount e + 1)%Z;
     tradeCount := tradeCount e;
     totalVolume := totalVolume e; _apiKey := _apiKey e;
     _lastLLMDecision := _lastLLMDecision e;
     _llmCallCount := _llmCallCount e; _llmFailCount := _llmFailCount e |}.

Definition record_trade (e : Engine) (amount : Q) : Engine :=
  {| agentId := agentId e; wallet := wallet e; peers := peers e;
     state := state e; cycleCount := cycleCount e;
     tradeCount := (tradeCount e + 1)%Z;
     totalVolume := totalVolume e + amount; _apiKey := _apiKey e;
     _lastLLMDecision := _lastLLMDecision e;
     _llmCallCount := _llmCallCount e; _llmFailCount := _llmFailCount e |}.

Definition set_lastLLMDecision (e : Engine) (d : Decision) : Engine :=
  {| agentId := agentId e; wallet := wallet e; peers := peers e;
     state := state e; cycleCount := cycleCount e; tradeCount := tradeCount e;
     totalVolume := totalVolume e; _apiKey := _apiKey e;
     _lastLLMDecision := Some d;
     _llmCallCount := _llmCallCount e; _llmFailCount := _llmFailCount e |}.

Definition incr_llmCallCount (e : Engine) : Engine :=
  {| agentId := agentId e; wallet := wallet e; peers := peers e;
     state := state e; cycleCount := cycleCount e; tradeCount := tradeCount e;
     totalVolume := totalVolume e; _apiKey := _apiKey e;
     _lastLLMDecision := _lastLLMDecision e;
     _llmCallCount := (_llmCallCount e + 1)%Z;
     _llmFailCount := _llmFailCount e |}.

Definition incr_llmFailCount (e : Engine) : Engine :=
  {| agentId := agentId e; wallet := wallet e; peers := peers e;
     state := state e; cycleCount := cycleCount e; tradeCount := tradeCount e;
     totalVolume := totalVolume e; _apiKey := _apiKey e;
     _lastLLMDecision := _lastLLMDecision e;
     _llmCallCount := _llmCallCount e;
     _llmFailCount := (_llmFailCount e + 1)%Z |}.

(** [decision.tradeAmount = amount] *)
Definition set_tradeAmount (d : Decision) (amount : Q) : Decision :=
  {| action := action d; reason := reason d;
     tradeTarget := tradeTarget d; tradeAmount := Some amount |}.

(** [x < y] as a boolean. *)
Definition Qltb (x y : Q) : bool := if Qlt_le_dec x y then true else false.

Definition no_op (e : Engine) : CycleRet :=
  {| raised := None; engine := e; events := []; trades := [] |}.

Definition throws (e : Engine) (err : Wallet.Exn) : CycleRet :=
  {| raised := Some err; engine := e; events := []; trades := [] |}.

Section WithConfig.

(** The spend cap of config.js, read from the environment (default
    ["0.01"]), and [JSON.parse] followed by the reading of the four schema
    fields ([None] when it throws). *)
Variable AGENT_MAX_SOL_PER_TX : Q.
Variable JSON_parse : string -> option Decision.

(** [DecisionEngine._decide] *)
Definition _decide (e : Engine) (balance : Q) : string :=
  if Qltb balance (3 # 1000) then IDLE
  else if (Z.rem (cycleCount e) 7 =? 0)%Z then YIELD
  else if (Z.rem (cycleCount e) 12 =? 0)%Z
          && bool_decide (0 < List.length (peers e))%nat then REBAL
  else if bool_decide (0 < List.length (peers e))%nat
          && Qltb (2 # 100) balance then TRADE
  else IDLE.

(** [DecisionEngine._doTrade]: the trade of the rule engine. *)
Definition _doTrade (e : Engine) (world : CycleWorld) (balance : Q) : CycleRet :=
  if bool_decide (List.length (peers e) = 0%nat) then no_op e
  else
    match random_element (random_trade_peer world) (peers e) with
    | None => throws e (Wallet.TypeError "peer is undefined")
    | Some peer =>
      if bool_decide (Wallet.agentId peer = agentId e) then no_op e
      else
        (* Clamp trade size *)
        let maxTrade := Qmin AGENT_MAX_SOL_PER_TX (balance * (1 # 10)) in
        if Qltb maxTrade (1 # 1000000) then no_op e
        else
          let amount := toFixed6 (random_trade_amount world * maxTrade) in
          if Qle_bool amount 0 then no_op e
          else
            match Wallet.publicKeyObj peer with
            | inl err => throws e err
            | inr pk =>
              match executeTrade world pk amount with
              | inl err =>
                  {| raised := Some err; engine := e; events := [];
                     trades := [(Wallet.agentId peer, amount)] |}
              | inr sig =>
                  {| raised := None; engine := record_trade e amount;
                     events := [action_TRADE (agentId e) amount
                                  (Wallet.agentId peer) sig None None];
                     trades := [(Wallet.agentId peer, amount)] |}
              end
            end
    end.

(** [DecisionEngine._doYield] *)
Definition _doYield (e : Engine) (world : CycleWorld) (balance : Q) : CycleRet :=
  let yieldAmount := toFixed6 (balance * (1 # 1000)) in
  match simulateYield world yieldAmount with
  | inl err => throws e err
  | inr sig =>
      {| raised := None; engine := e;
         events := [action_YIELD (agentId e) yieldAmount sig];
         trades := [] |}
  end.

(** [Promise.all(allWallets.map((w) => w.getSOLBalance()))] *)
Fixpoint all_balances (getBalance : string -> Wallet.Exn + Z)
    (ws : list Wallet.WalletManager) : Wallet.Exn + list Q :=
  match ws with
  | [] => inr []
  | w :: rest =>
      match getSOLBalance getBalance w with
      | inl err => inl err
      | inr b =>
          match all_balances getBalance rest with
          | inl err => inl err
          | inr bs => inr (b :: bs)
          end
      end
  end.

(** [DecisionEngine._doRebal] *)
Definition _doRebal (e : Engine) (world : CycleWorld) : CycleRet :=
  let allWallets := wallet e :: peers e in
  match all_balances (conn_getBalance_rebal world) allWallets with
  | inl err => throws e err
  | inr balances =>
      let avg := fold_left Qplus balances 0
                 / inject_Z (Z.of_nat (List.length balances)) in
      match rebalancePool world avg with
      | inl err => throws e err
      | inr _ =>
          {| raised := None; engine := e;
             events := [action_REBAL (agentId e) avg]; trades := [] |}
      end
  end.

(** [LLMDecisionEngine._fallbackDecisionObject] *)
Definition _fallbackDecisionObject (e : Engine) (world : CycleWorld) (balance : Q)
  : Wallet.Exn + Decision :=
  if Qltb balance (3 # 1000)
  then inr {| action := "IDLE"; reason := "Balance too low";
              tradeTarget := None; tradeAmount := None |}
  else if (Z.rem (cycleCount e) 7 =? 0)%Z
  then inr {| action := "YIELD"; reason := "Periodic yield cycle";
              tradeTarget := None; tradeAmount := None |}
  else if (Z.rem (cycleCount e) 12 =? 0)%Z
          && bool_decide (0 < List.length (peers e))%nat
  then inr {| action := "REBAL"; reason := "Periodic rebalance";
              tradeTarget := None; tradeAmount := None |}
  else if bool_decide (0 < List.length (peers e))%nat
          && Qltb (2 # 100) balance
  then
    match random_element (random_fallback_peer world) (peers e) with
    | None => inl (Wallet.TypeError "peer is undefined")
    | Some peer =>
        inr {| action := "TRADE"; reason := "Rule-based trade opportunity";
               tradeTarget := Some (Wallet.agentId peer);
               tradeAmount := Some (AGENT_MAX_SOL_PER_TX * (1 # 2)) |}
    end
  else inr {| action := "IDLE"; reason := "No opportunity found";
              tradeTarget := None; tradeAmount := None |}.

(** [!this._apiKey] *)
Definition no_apiKey (e : Engine) : bool := negb (truthy_string (_apiKey e)).

(** [LLMDecisionEngine._llmDecide]: the decision returned (or the exception
    that escapes) and the engine with its counters updated. *)
Definition _llmDecide (e : Engine) (world : CycleWorld) (snapshot : Snapshot)
  : (Wallet.Exn + Decision) * Engine :=
  if no_apiKey e
  then (_fallbackDecisionObject e world (balanceSOL snapshot), e)
  else
    let e := incr_llmCallCount e in
    (* the [catch] block *)
    let caught :=
      let e := incr_llmFailCount e in
      (_fallbackDecisionObject e world (balanceSOL snapshot), e) in
    match fetch world with
    | FetchRejects _ => caught
    | FetchResolves ok _ json =>
        if negb ok then caught
        else
          match json with
          | None => caught
          | Some text =>
              let rawContent :=
                if truthy_string text then default ""%string text
                else ""%string in
              match match_json rawContent with
              | None => caught
              | Some jsonMatch =>
                  match JSON_parse jsonMatch with
                  | None => caught
                  | Some parsed => (inr parsed, e)
                  end
              end
          end
    end.

(** [LLMDecisionEngine._validateDecision]: the next state, and the
    decision object as the method leaves it (it overwrites [tradeAmount]
    when it caps).  The floor test is made on the exact difference; the
    source subtracts doubles, and a difference of exactly 0.003 in
    decimals can come out just below it there. *)
Definition _validateDecision (decision : Decision) (balance : Q)
  : string * Decision :=
  let validActions := AgentState_values in
  if negb (bool_decide (action decision ∈ validActions))
  then (IDLE, decision)
  else if bool_decide (action decision = TRADE)
  then
    let tradeAmt := num_or (tradeAmount decision) 0 in
    if Qltb (balance - tradeAmt) (3 # 1000) then (IDLE, decision)
    else if Qltb AGENT_MAX_SOL_PER_TX tradeAmt
    then (action decision, set_tradeAmount decision AGENT_MAX_SOL_PER_TX)
    else (action decision, decision)
  else (action decision, decision).

(** The peer [_doLLMTrade] settles on: the named one if it is a known
    peer, otherwise a random one, [None] when there is none. *)
Definition resolve_target (e : Engine) (world : CycleWorld) (decision : Decision)
  : option Wallet.WalletManager :=
  let targetPeer :=
    if truthy_string (tradeTarget decision)
    then List.find (fun p => bool_decide (Some (Wallet.agentId p) = tradeTarget decision))
                   (peers e)
    else None in
  match targetPeer with
  | Some p => Some p
  | None =>
      if bool_decide (0 < List.length (peers e))%nat
      then random_element (random_trade_peer world) (peers e)
      else None
  end.

(** The amount [_doLLMTrade] computes, from the exact tenth of the
    balance. *)
Definition trade_amount (world : CycleWorld) (balance : Q) (decision : Decision) : Q :=
  toFixed6
    (Math_min3
       (num_or (tradeAmount decision)
               (random_trade_amount world * AGENT_MAX_SOL_PER_TX))
       AGENT_MAX_SOL_PER_TX
       (balance * (1 # 10))).

(** [LLMDecisionEngine._doLLMTrade] *)
Definition _doLLMTrade (e : Engine) (world : CycleWorld) (balance : Q)
    (decision : Decision) : CycleRet :=
  (* Use LLM-specified target if valid, otherwise pick randomly *)
  match resolve_target e world decision with
  | None => no_op e
  | Some targetPeer =>
      let amount := trade_amount world balance decision in
      if Qle_bool amount (1 # 1000000) then no_op e
      else
        match Wallet.publicKeyObj targetPeer with
        | inl err => throws e err
        | inr pk =>
          match executeTrade world pk amount with
          | inl err =>
              {| raised := Some err; engine := e; events := [];
                 trades := [(Wallet.agentId targetPeer, amount)] |}
          | inr sig =>
              {| raised := None; engine := record_trade e amount;
                 events := [action_TRADE (agentId e) amount
                              (Wallet.agentId targetPeer) sig (Some "llm")
                              (Some (reason decision))];
                 trades := [(Wallet.agentId targetPeer, amount)] |}
          end
        end
  end.

(** [LLMDecisionEngine._executeStateWithLLMContext] *)
Definition _executeStateWithLLMContext (e : Engine) (world : CycleWorld)
    (balance : Q) (decision : Decision) : CycleRet :=
  let r :=
    if bool_decide (state e = TRADE) then _doLLMTrade e world balance decision
    else if bool_decide (state e = YIELD) then _doYield e world balance
    else if bool_decide (state e = REBAL) then _doRebal e world
    else no_op e in
  match raised r with
  | None => r
  | Some err =>
      {| raised := None;
         engine := set_state (engine r) IDLE;
         events := (events r
                    ++ [error_event (agentId (engine r)) (state (engine r)) err])%list;
         trades := trades r |}
  end.

(** [LLMDecisionEngine._buildPeerSnapshots] *)
Definition _buildPeerSnapshots (e : Engine) (world : CycleWorld) : list PeerSnapshot :=
  map (fun p =>
         match getSOLBalance (conn_getBalance_peers world) p with
         | inr bal => {| ps_agentId := Wallet.agentId p;
                          ps_balanceSOL := Some (toFixed6 bal) |}
         | inl _ => {| ps_agentId := Wallet.agentId p; ps_balanceSOL := None |}
         end)
      (peers e).

(** [LLMDecisionEngine.tick] *)
Definition tick (e : Engine) (world : CycleWorld) : CycleRet :=
  let e := incr_cycleCount e in
  match getSOLBalance (conn_getBalance world) (wallet e) with
  | inl err => throws e err
  | inr balance =>
    (* Hard safety gate *)
    if Qltb balance (3 # 1000)
    then
      let e := set_state e IDLE in
      {| raised := None; engine := e;
         events := [decision_event (agentId e) (cycleCount e) balance
                      (state e) IDLE (Some "safety-gate"%string) None];
         trades := [] |}
    else
      (* Build state snapshot for LLM *)
      let peerSnapshots := _buildPeerSnapshots e world in
      match Wallet.publicKeyObj (wallet e) with
      | inl err => throws e err
      | inr pk =>
        let snapshot :=
          {| s_agentId := agentId e;
             s_publicKey := pk;
             balanceSOL := toFixed6 balance;
             cycleNumber := cycleCount e;
             s_tradeCount := tradeCount e;
             totalVolumeSOL := toFixed6 (totalVolume e);
             s_peers := peerSnapshots;
             maxTradeSOL := AGENT_MAX_SOL_PER_TX;
             availablePeerIds := map Wallet.agentId (peers e) |} in
        (* Get LLM decision (with fallback) *)
        match _llmDecide e world snapshot with
        | (inl err, e) => throws e err
        | (inr decision, e) =>
            let '(nextState, decision) := _validateDecision decision balance in
            (* [_lastLLMDecision] holds the object the validator wrote to *)
            let e := set_lastLLMDecision e decision in
            let ev := decision_event (agentId e) (cycleCount e) balance
                        (state e) nextState (Some "llm"%string)
                        (Some (reason decision)) in
            let e := set_state e nextState in
            let r := _executeStateWithLLMContext e world balance decision in
            {| raised := raised r; engine := engine r;
               events := ev :: events r; trades := trades r |}
        end
      end
  end.

End WithConfig.

(** The decision the inference call yields when every step of the [try]
    block of [_llmDecide] succeeds, [None] when one of them throws. *)
Definition llm_answer (JSON_parse : string -> option Decision) (world : CycleWorld)
  : option Decision :=
  match fetch world with
  | FetchRejects _ => None
  | FetchResolves ok _ json =>
      if negb ok then None
      else
        match json with
        | None => None
        | Some text =>
            match match_json (if truthy_string text then default ""%string text
                              else ""%string) with
            | None => None
            | Some jsonMatch => JSON_parse jsonMatch
            end
        end
  end.

(** A number of whole micro-SOL: a multiple of 10^-6. *)
Definition on_grid6 (x : Q) : Prop := exists k : Z, x == k # 1000000.

(** *** Fixtures *)

(** The default of config.js. *)
Definition default_cap : Q := 1 # 100.

(** A cap with seven decimals, as [AGENT_MAX_SOL_PER_TX=0.0000016] sets it. *)
Definition fine_cap : Q := 16 # 10000000.

Definition parse_fails : string -> option Decision := fun _ => None.

(** An engine for alice with bob as its only peer, before its first cycle. *)
Definition demo_engine : Engine :=
  {| agentId := "alice";
     wallet := MultiSig.alice;
     peers := [MultiSig.bob];
     state := IDLE;
     cycleCount := 0;
     tradeCount := 0;
     totalVolume := 0;
     _apiKey := Some "sk-ant-key"%string;
     _lastLLMDecision := None;
     _llmCallCount := 0;
     _llmFailCount := 0 |}.

(** A world in which every wallet holds 1 SOL, the protocol confirms, the
    random source returns [r], and the inference call ends as [f]. *)
Definition cycle_world (f : FetchResult) (r : Q) : CycleWorld :=
  {| conn_getBalance := fun _ => inr 1000000000%Z;
     conn_getBalance_peers := fun _ => inr 1000000000%Z;
     conn_getBalance_rebal := fun _ => inr 1000000000%Z;
     fetch := f;
     random_fallback_peer := r;
     random_trade_peer := r;
     random_trade_amount := r;
     executeTrade := fun _ _ => inr "2ZE7Rz"%string;
     simulateYield := fun _ => inr (Some "4hXTCk"%string);
     rebalancePool := fun _ => inr tt |}.

Definition timeout : FetchResult :=
  FetchRejects "The operation was aborted due to timeout".

(** A TRADE decision naming [target] for [amount] SOL. *)
Definition trade_decision (target : string) (amount : Q) : Decision :=
  {| action := "TRADE"; reason := "peer has a lower balance";
     tradeTarget := Some target; tradeAmount := Some amount |}.

(** The JSON text of such a decision, with the amount as it is written,
    inside a sentence of the model's answer. *)
Definition dq : string := String (ascii_of_nat 34) EmptyString.

Definition trade_json (target amount : string) : string :=
  "{" +:+ dq +:+ "action" +:+ dq +:+ ":" +:+ dq +:+ "TRADE" +:+ dq +:+ ","
  +:+ dq +:+ "reason" +:+ dq +:+ ":" +:+ dq +:+ "peer has a lower balance"
  +:+ dq +:+ ","
  +:+ dq +:+ "tradeTarget" +:+ dq +:+ ":" +:+ dq +:+ target +:+ dq +:+ ","
  +:+ dq +:+ "tradeAmount" +:+ dq +:+ ":" +:+ amount +:+ "}".

Definition answer (target amount : string) : FetchResult :=
  FetchResolves true 200
    (Some (Some ("My decision: " +:+ trade_json target amount +:+ " Done."))).

(** [JSON.parse] on that one text. *)
Definition parse_trade (target amount : string) (q : Q) (s : string)
  : option Decision :=
  if bool_decide (s = trade_json target amount)
  then Some (trade_decision target q)
  else None.

End Engine.

(* ===================================================================== *)
(** ** Invariants of the proposal registry *)
(* ===================================================================== *)

Module MultiSigInv.
Import Wallet MultiSig.

(** The order in which the source assigns statuses. *)
Definition status_rank (st : Status) : nat :=
  match st with
  | PENDING => 0
  | APPROVED => 1
  | EXECUTED => 2
  | REJECTED => 3
  end.

(** What every proposal the manager stores under [id] satisfies. *)
Record well_formed (id : string) (p : MultiSigProposal) : Prop := {
  wf_id : proposalId p = id;
  wf_signers : forall who, is_Some (signatures p !! who) ->
                           who ∈ authorizedSigners p;
  wf_proposer : is_Some (signatures p !! proposerAgentId p);
  wf_not_rejected : status p <> REJECTED;
  wf_approved : status p = APPROVED -> isApproved p = true;
  wf_executed : status p = EXECUTED ->
                isApproved p = true
                /\ is_Some (executedAt p) /\ is_Some (executionSignature p);
  wf_not_executed : status p <> EXECUTED ->
                    executedAt p = None /\ executionSignature p = None;
  wf_pending : status p = PENDING -> isApproved p = true ->
               signatureCount p = 1
}.

(** [p'] is a later stage of [p]: the same proposal and payment, with at
    least the signatures of [p] and a status that did not go back.  The
    block hash, the fee payer and the signature of the transaction are
    left out: [signOnly] and the sending library rewrite them. *)
Record later_stage (p p' : MultiSigProposal) : Prop := {
  ls_id : proposalId p' = proposalId p;
  ls_proposer : proposerAgentId p' = proposerAgentId p;
  ls_description : description p' = description p;
  ls_required : requiredSigners p' = requiredSigners p;
  ls_authorized : authorizedSigners p' = authorizedSigners p;
  ls_createdAt : createdAt p' = createdAt p;
  ls_from : fromPubkey (transaction p') = fromPubkey (transaction p);
  ls_to : toPubkey (transaction p') = toPubkey (transaction p);
  ls_lamports : lamports (transaction p') = lamports (transaction p);
  ls_signatures : signatures p ⊆ signatures p';
  ls_status : (status_rank (status p) <= status_rank (status p'))%nat
}.

Definition all_well_formed (m : MultiSigManager) : Prop :=
  forall id p, _proposals m !! id = Some p -> well_formed id p.

(** The ids the creations of a run would store under, in order. *)
Definition created_ids (calls : list (World * Op)) : list string :=
  omap (fun call => created_id call.1 call.2) calls.

(** *** Fixture: a session on a fresh manager *)

Definition session_start : list (World * Op) :=
  [ (demo_world,
     OpCreate alice "DeSTination" (1 # 2) "treasury" 2 [bob; carol]);
    (demo_world, OpCoSign demo_id bob) ].

Definition session_end : list (World * Op) :=
  [ (demo_world, OpExecute demo_id alice);
    (later_world, OpExecute demo_id bob);
    (later_world, OpCreate bob "DeSTination" (1 # 4) "second" 1 [alice]);
    (later_world, OpExecute "msig-4f90d13a" bob);
    (later_world, OpCoSign demo_id carol) ].

(** A world whose node refuses every transaction it is sent. *)
Definition offline_world : World :=
  {| getLatestBlockhash := inr "blockhash-3";
     nanoid8 := "Zk3TqRw1";
     Date_now := 1700000030000;
     transfer_encodes := demo_encodes;
     sendAndConfirmTransaction :=
       fun tx kp =>
         {| answer := inl (ExternalError "failed to send transaction");
            rewritten := Some ("blockhash-3", Some (demo_sign kp tx)) |} |}.

(** A wallet that was never created or loaded. *)
Definition mallory : WalletManager :=
  {| agentId := "mallory"; _keypair := None |}.

End MultiSigInv.

(* ===================================================================== *)
(** ** Observations on a cycle of the inference engine *)
(* ===================================================================== *)

Module EngineObs.
Import Engine.

Local Open Scope Q_scope.

(** The amount of a TRADE action event, [None] for any other event. *)
Definition traded (ev : Event) : option Q :=
  match ev with
  | action_TRADE _ amount _ _ _ _ => Some amount
  | _ => None
  end.

(** The amounts of the TRADE action events of a cycle, and their sum. *)
Definition traded_amounts (evs : list Event) : list Q := omap traded evs.

Definition traded_volume (evs : list Event) : Q :=
  fold_right Qplus 0 (traded_amounts evs).

Definition is_error_event (ev : Event) : bool :=
  match ev with
  | error_event _ _ _ => true
  | _ => false
  end.

(** Two engine objects of the same agent: what a cycle never writes. *)
Record same_agent (e e' : Engine) : Prop := {
  sa_agentId : agentId e' = agentId e;
  sa_wallet : wallet e' = wallet e;
  sa_peers : peers e' = peers e;
  sa_apiKey : _apiKey e' = _apiKey e
}.

(** The three ways an action method can end: quietly (nothing changed,
    at most one event that is no trade), with an exception (nothing
    changed, at most one call to the protocol), or with a confirmed trade
    of [amount] to [target]. *)
Inductive action_outcome (e : Engine) (r : CycleRet) : Prop :=
| outcome_quiet :
    raised r = None -> engine r = e -> trades r = [] ->
    traded_amounts (events r) = [] ->
    forallb (fun ev => negb (is_error_event ev)) (events r) = true ->
    action_outcome e r
| outcome_throw err :
    raised r = Some err -> engine r = e -> events r = [] ->
    (List.length (trades r) <= 1)%nat ->
    action_outcome e r
| outcome_trade target amount sig src rsn :
    raised r = None -> engine r = record_trade e amount ->
    events r = [action_TRADE (agentId e) amount target sig src rsn] ->
    trades r = [(target, amount)] ->
    action_outcome e r.

(** Does the character occur in the string? *)
Fixpoint occurs (c : ascii) (s : string) : bool :=
  match s with
  | EmptyString => false
  | String c' rest => Ascii.eqb c' c || occurs c rest
  end.

(** *** Fixtures *)

(** A world in which the agent's wallet holds 0.002 SOL. *)
Definition poor_world : CycleWorld :=
  {| conn_getBalance := fun _ => inr 2000000%Z;
     conn_getBalance_peers := fun _ => inr 1000000000%Z;
     conn_getBalance_rebal := fun _ => inr 1000000000%Z;
     fetch := timeout;
     random_fallback_peer := 0;
     random_trade_peer := 0;
     random_trade_amount := 0;
     executeTrade := fun _ _ => inr "2ZE7Rz"%string;
     simulateYield := fun _ => inr (Some "4hXTCk"%string);
     rebalancePool := fun _ => inr tt |}.

(** A world with 1 SOL everywhere in which the transfer of a trade fails. *)
Definition failing_trade_world (f : FetchResult) : CycleWorld :=
  {| conn_getBalance := fun _ => inr 1000000000%Z;
     conn_getBalance_peers := fun _ => inr 1000000000%Z;
     conn_getBalance_rebal := fun _ => inr 1000000000%Z;
     fetch := f;
     random_fallback_peer := 0;
     random_trade_peer := 0;
     random_trade_amount := 0;
     executeTrade :=
       fun _ _ => inl (Wallet.ExternalError "Transaction simulation failed");
     simulateYield := fun _ => inr (Some "4hXTCk"%string);
     rebalancePool := fun _ => inr tt |}.

End EngineObs.

(* ===================================================================== *)
(** ** The protocol methods the engines call *)
(* ===================================================================== *)

Module DeFi.
Import Wallet.

Local Open Scope Q_scope.

(** What the outside world answers during one call of [rebalancePool]:
    the balance of a key, whether a string is a valid key, and the outcome
    of the n-th call of [sendSOL] once its transaction (sender, recipient,
    lamports) is submitted. *)
Record PoolWorld := {
  pool_getBalance : string -> Exn + Z;
  pool_PublicKey_valid : string -> bool;
  pool_sendAndConfirm : nat -> string -> string -> Z -> Exn + string
}.

(** [WalletManager.sendSOL], as the n-th call. *)
Definition sendSOL (world : PoolWorld) (n : nat) (w : WalletManager)
    (destinationAddress : string) (amountSOL : Q) : Exn + string :=
  match _getKeypair w with
  | inl e => inl e
  | inr keypair =>
      if negb (pool_PublicKey_valid world destinationAddress)
      then inl (ExternalError "Invalid public key input")
      else
        let lamports := MultiSig.Math_round (amountSOL * LAMPORTS_PER_SOL) in
        pool_sendAndConfirm world n (publicKey keypair) destinationAddress
                            lamports
  end.

(** The objects [{ wallet, bal }] of [rebalancePool]. *)
Record PoolEntry := {
  pe_wallet : WalletManager;
  bal : Q
}.

(** A call of [sendSOL] made by [rebalancePool]: who sent to whom, the
    amount [send] of the bookkeeping, the rounded amount handed over, and
    whether the call returned. *)
Record SendCall := {
  sc_donor : WalletManager;
  sc_receiver : WalletManager;
  sc_send : Q;
  sc_amount : Q;
  sc_confirmed : bool
}.

Definition give (donor : PoolEntry) (send : Q) : PoolEntry :=
  {| pe_wallet := pe_wallet donor; bal := bal donor - send |}.

Definition take (receiver : PoolEntry) (send : Q) : PoolEntry :=
  {| pe_wallet := pe_wallet receiver; bal := bal receiver + send |}.

(** The inner loop [for (const donor of donors)] for one receiver: the
    receiver and [needed] afterwards, the donors with their updated
    balances, the number of [sendSOL] attempts so far, and the calls.
    The argument [receiver.wallet.publicKey] is read inside the [try]: on
    an unloaded receiver it throws before [sendSOL] is entered, and the
    loop goes on with the next donor. *)
Fixpoint serve (world : PoolWorld) (targetSOL : Q) (receiver : PoolEntry)
    (needed : Q) (donors : list PoolEntry) (n : nat)
  : PoolEntry * Q * list PoolEntry * nat * list SendCall :=
  match donors with
  | [] => (receiver, needed, [], n, [])
  | donor :: rest =>
      if Qle_bool needed 0 then (receiver, needed, donors, n, [])
      else
        let available := bal donor - targetSOL - (1 # 1000) in
        if Qle_bool available 0
        then
          let '(receiver', needed', rest', n', calls) :=
            serve world targetSOL receiver needed rest n in
          (receiver', needed', donor :: rest', n', calls)
        else
          let send := Qmin needed available in
          match publicKeyObj (pe_wallet receiver) with
          | inl _ =>
              let '(receiver', needed', rest', n', calls) :=
                serve world targetSOL receiver needed rest n in
              (receiver', needed', donor :: rest', n', calls)
          | inr pk =>
              let amount := Engine.toFixed6 send in
              match sendSOL world n (pe_wallet donor) pk amount with
              | inr _ =>
                  let '(receiver', needed', rest', n', calls) :=
                    serve world targetSOL (take receiver send) (needed - send)
                          rest (S n) in
                  (receiver', needed', give donor send :: rest', n',
                   {| sc_donor := pe_wallet donor;
                      sc_receiver := pe_wallet receiver;
                      sc_send := send; sc_amount := amount;
                      sc_confirmed := true |} :: calls)
              | inl _ =>
                  let '(receiver', needed', rest', n', calls) :=
                    serve world targetSOL receiver needed rest (S n) in
                  (receiver', needed', donor :: rest', n',
                   {| sc_donor := pe_wallet donor;
                      sc_receiver := pe_wallet receiver;
                      sc_send := send; sc_amount := amount;
                      sc_confirmed := false |} :: calls)
              end
          end
  end.

(** The outer loop [for (const receiver of receivers)]. *)
Fixpoint rebalance_loop (world : PoolWorld) (targetSOL : Q)
    (receivers donors : list PoolEntry) (n : nat)
  : list PoolEntry * list PoolEntry * list SendCall :=
  match receivers with
  | [] => ([], donors, [])
  | receiver :: rest =>
      let needed := targetSOL - bal receiver in
      let '(receiver', _, donors', n', calls) :=
        serve world targetSOL receiver needed donors n in
      let '(rest', donors'', calls') :=
        rebalance_loop world targetSOL rest donors' n' in
      (receiver' :: rest', donors'', (calls ++ calls')%list)
  end.

(** [wallets.map(async (w) => ({ wallet: w, bal: await w.getSOLBalance() }))] *)
Fixpoint read_pool (world : PoolWorld) (wallets : list WalletManager)
  : Exn + list PoolEntry :=
  match wallets with
  | [] => inr []
  | w :: rest =>
      match Engine.getSOLBalance (pool_getBalance world) w with
      | inl e => inl e
      | inr b =>
          match read_pool world rest with
          | inl e => inl e
          | inr entries => inr ({| pe_wallet := w; bal := b |} :: entries)
          end
      end
  end.

(** The two filters of [rebalancePool], on the exact sum and difference;
    in the source they are doubles, so a balance that equals the edge of
    the band in decimals can fall on either side of it. *)
Definition is_donor (targetSOL : Q) (b : PoolEntry) : bool :=
  Engine.Qltb (targetSOL + (2 # 1000)) (bal b).

Definition is_receiver (targetSOL : Q) (b : PoolEntry) : bool :=
  Engine.Qltb (bal b) (targetSOL - (2 # 1000)).

(** [DeFiProtocol.rebalancePool]: what it returns or throws, and the calls
    of [sendSOL] it made. *)
Definition rebalancePool (world : PoolWorld) (wallets : list WalletManager)
    (targetSOL : Q) : (Exn + unit) * list SendCall :=
  match read_pool world wallets with
  | inl e => (inl e, [])
  | inr balances =>
      let donors := List.filter (is_donor targetSOL) balances in
      let receivers := List.filter (is_receiver targetSOL) balances in
      (inr tt, (rebalance_loop world targetSOL receivers donors 0).2)
  end.

(** How a donor entry may change: same wallet, no more than before, and
    not below target + 0.001 if it was not below before. *)
Definition donor_step (targetSOL : Q) (d d' : PoolEntry) : Prop :=
  pe_wallet d' = pe_wallet d
  /\ bal d' <= bal d
  /\ (targetSOL + (1 # 1000) <= bal d -> targetSOL + (1 # 1000) <= bal d').

(** How a receiver entry may change: same wallet, no less than before,
    and not above target if it was not above before. *)
Definition receiver_step (targetSOL : Q) (r r' : PoolEntry) : Prop :=
  pe_wallet r' = pe_wallet r
  /\ bal r <= bal r'
  /\ (bal r <= targetSOL -> bal r' <= targetSOL).

(** What holds of a call of [sendSOL] made for target [targetSOL] from a
    donor entry to a receiver entry of the given lists. *)
Definition call_ok (targetSOL : Q) (receivers donors : list PoolEntry)
    (c : SendCall) : Prop :=
  sc_amount c = Engine.toFixed6 (sc_send c)
  /\ 0 < sc_send c
  /\ (exists r, r ∈ receivers /\ pe_wallet r = sc_receiver c
                /\ sc_send c <= targetSOL - bal r)
  /\ (exists d, d ∈ donors /\ pe_wallet d = sc_donor c
                /\ sc_send c <= bal d - targetSOL - (1 # 1000)).

(** A world in which every key is valid and every transfer is confirmed. *)
Definition cooperative (world : PoolWorld) : Prop :=
  (forall address, pool_PublicKey_valid world address = true)
  /\ (forall n from to lamports,
        exists sig, pool_sendAndConfirm world n from to lamports = inr sig).

Definition loaded (b : PoolEntry) : Prop := is_Some (_keypair (pe_wallet b)).

(** The amount moved by the calls that were confirmed. *)
Definition confirmed_volume (calls : list SendCall) : Q :=
  fold_right (fun c acc => if sc_confirmed c then sc_send c + acc else acc)
             0 calls.

(** The sum of the tracked balances. *)
Definition pool_total (entries : list PoolEntry) : Q :=
  fold_right (fun b acc => bal b + acc) 0 entries.

(** *** Fixture: alice rich, bob and carol poor, every transfer confirmed *)

Definition pool_world : PoolWorld :=
  {| pool_getBalance := fun pk =>
       if bool_decide (pk = "ALiCE") then inr 1000000000%Z
       else if bool_decide (pk = "BoB") then inr 100000000%Z
       else inr 400000000%Z;
     pool_PublicKey_valid := fun _ => true;
     pool_sendAndConfirm := fun _ _ _ _ => inr "3xYnQ7" |}.

(** The same pool on a node that confirms nothing. *)
Definition frozen_world : PoolWorld :=
  {| pool_getBalance := pool_getBalance pool_world;
     pool_PublicKey_valid := fun _ => true;
     pool_sendAndConfirm := fun _ _ _ _ =>
       inl (ExternalError "Transaction was not confirmed") |}.

Definition pool_wallets : list WalletManager :=
  [MultiSig.alice; MultiSig.bob; MultiSig.carol].

(** What [rebalancePool] reads from [pool_world]: 1, 0.1 and 0.4 SOL. *)
Definition pool_entries : list PoolEntry :=
  [ {| pe_wallet := MultiSig.alice; bal := 1000000000 # 1000000000 |};
    {| pe_wallet := MultiSig.bob; bal := 100000000 # 1000000000 |};
    {| pe_wallet := MultiSig.carol; bal := 400000000 # 1000000000 |} ].

(** The first transfer of that pool towards 0.5 SOL each: alice gives bob
    the 0.4 SOL he is short of. *)
Definition first_call : SendCall :=
  {| sc_donor := MultiSig.alice; sc_receiver := MultiSig.bob;
     sc_send := 800000000 # 2000000000; sc_amount := 400000 # 1000000;
     sc_confirmed := true |}.

End DeFi.

(* ===================================================================== *)
(** ** The cycle of the rule engine *)
(* ===================================================================== *)

Module RuleEngine.
Import Engine.

Local Open Scope Q_scope.

Section WithConfig.

Variable AGENT_MAX_SOL_PER_TX : Q.

(** [DecisionEngine._executeState] *)
Definition _executeState (e : Engine) (world : CycleWorld) (balance : Q)
  : CycleRet :=
  let r :=
    if bool_decide (state e = TRADE)
    then _doTrade AGENT_MAX_SOL_PER_TX e world balance
    else if bool_decide (state e = YIELD) then _doYield e world balance
    else if bool_decide (state e = REBAL) then _doRebal e world
    else no_op e in
  match raised r with
  | None => r
  | Some err =>
      {| raised := None;
         engine := set_state (engine r) IDLE; (* fall back to safe state *)
         events := (events r
                    ++ [error_event (agentId (engine r)) (state (engine r)) err])%list;
         trades := trades r |}
  end.

(** [DecisionEngine.tick] *)
Definition tick (e : Engine) (world : CycleWorld) : CycleRet :=
  let e := incr_cycleCount e in
  match getSOLBalance (conn_getBalance world) (wallet e) with
  | inl err => throws e err
  | inr balance =>
      let nextState := _decide e balance in
      let ev := decision_event (agentId e) (cycleCount e) balance
                  (state e) nextState None None in
      let e := set_state e nextState in
      let r := _executeState e world balance in
      {| raised := raised r; engine := engine r;
         events := ev :: events r; trades := trades r |}
  end.

End WithConfig.

(** *** Fixture: a node that cannot be reached *)

Definition unreachable_world : CycleWorld :=
  {| conn_getBalance := fun _ => inl (Wallet.ExternalError "fetch failed");
     conn_getBalance_peers := fun _ => inl (Wallet.ExternalError "fetch failed");
     conn_getBalance_rebal := fun _ => inl (Wallet.ExternalError "fetch failed");
     fetch := timeout;
     random_fallback_peer := 0;
     random_trade_peer := 0;
     random_trade_amount := 0;
     executeTrade := fun _ _ => inl (Wallet.ExternalError "fetch failed");
     simulateYield := fun _ => inr None;
     rebalancePool := fun _ => inr tt |}.

End RuleEngine.

(* ===================================================================== *)
(** ** Facts about the multi-signature lifecycle *)
(* ===================================================================== *)

Module MultiSigFacts.
Import Wallet MultiSig.

Local Open Scope Z_scope.

(** *** Reading the three operations case by case *)

Lemma coSign_unknown nacl_sign m id w :
  _proposals m !! id = None ->
  coSign nacl_sign m id w
  = {| value := inl (ProposalNotFound id); mgr := m; broadcast := [] |}.
Proof. intros H. unfold coSign. now rewrite H. Qed.

Lemma coSign_not_pending nacl_sign m id w p :
  _proposals m !! id = Some p ->
  status p <> PENDING ->
  coSign nacl_sign m id w
  = {| value := inl (ProposalNotPending id (Status_name (status p)));
       mgr := m; broadcast := [] |}.
Proof.
  intros H Hst. unfold coSign. rewrite H.
  now rewrite bool_decide_eq_false_2.
Qed.

Lemma coSign_already_signed nacl_sign m id w p :
  _proposals m !! id = Some p ->
  status p = PENDING ->
  Wallet.agentId w ∈ authorizedSigners p ->
  is_Some (signatures p !! Wallet.agentId w) ->
  coSign nacl_sign m id w
  = {| value := inr (p, isApproved p); mgr := m; broadcast := [] |}.
Proof.
  intros H Hst Hauth Hsig. unfold coSign. rewrite H.
  rewrite (bool_decide_eq_true_2 _ Hst), (bool_decide_eq_true_2 _ Hauth),
    (bool_decide_eq_true_2 _ Hsig).
  reflexivity.
Qed.

Lemma coSign_fresh nacl_sign m id w p signed :
  _proposals m !! id = Some p ->
  status p = PENDING ->
  Wallet.agentId w ∈ authorizedSigners p ->
  signatures p !! Wallet.agentId w = None ->
  signOnly nacl_sign w (transaction p) = inr signed ->
  let p' := signed_by p w signed in
  coSign nacl_sign m id w
  = {| value := inr (p', isApproved p'); mgr := store m id p'; broadcast := [] |}.
Proof.
  intros H Hst Hauth Hsig Hsign. unfold coSign. rewrite H.
  rewrite (bool_decide_eq_true_2 _ Hst), (bool_decide_eq_true_2 _ Hauth).
  rewrite bool_decide_eq_false_2 by (rewrite Hsig; intros [? ?]; discriminate).
  cbn [negb]. rewrite Hsign. reflexivity.
Qed.

Lemma signatureCount_set_signature_fresh p who sig :
  signatures p !! who = None ->
  signatureCount (set_signature p who sig) = signatureCount p + 1.
Proof.
  intros H. unfold signatureCount, set_signature. cbn.
  rewrite map_size_insert_None by exact H. lia.
Qed.

Lemma execute_unknown m world id w :
  _proposals m !! id = None ->
  execute m world id w
  = {| value := inl (ProposalNotFound id); mgr := m; broadcast := [] |}.
Proof. intros H. unfold execute. now rewrite H. Qed.

Lemma execute_on_executed m world id w p :
  _proposals m !! id = Some p ->
  status p = EXECUTED ->
  exists e, execute m world id w
            = {| value := inl e; mgr := m; broadcast := [] |}.
Proof.
  intros H Hst. unfold execute. rewrite H.
  destruct (isApproved p); cbn [negb].
  - rewrite (bool_decide_eq_true_2 _ Hst). eauto.
  - eauto.
Qed.

Lemma execute_ready m world id w p kp sig :
  _proposals m !! id = Some p ->
  isApproved p = true ->
  status p <> EXECUTED ->
  _keypair w = Some kp ->
  answer (sendAndConfirmTransaction world (transaction p) kp) = inr sig ->
  execute m world id w
  = {| value := inr sig;
       mgr := store m id
                (set_executed
                   (set_transaction p
                      (after_send (transaction p)
                         (sendAndConfirmTransaction world (transaction p) kp)))
                   (Date_now world) sig);
       broadcast := [transaction p] |}.
Proof.
  intros H Happ Hst Hkp Hsend. unfold execute. rewrite H, Happ. cbn [negb].
  rewrite (bool_decide_eq_false_2 _ Hst).
  unfold signAndSend, _getKeypair. rewrite Hkp. cbv zeta. rewrite Hsend.
  reflexivity.
Qed.

(** A send that throws leaves the proposal where it was, with the
    transaction as the library rewrote it. *)
Lemma execute_refused m world id w p kp e :
  _proposals m !! id = Some p ->
  isApproved p = true ->
  status p <> EXECUTED ->
  _keypair w = Some kp ->
  answer (sendAndConfirmTransaction world (transaction p) kp) = inl e ->
  execute m world id w
  = {| value := inl e;
       mgr := store m id
                (set_transaction p
                   (after_send (transaction p)
                      (sendAndConfirmTransaction world (transaction p) kp)));
       broadcast := [transaction p] |}.
Proof.
  intros H Happ Hst Hkp Hsend. unfold execute. rewrite H, Happ. cbn [negb].
  rewrite (bool_decide_eq_false_2 _ Hst).
  unfold signAndSend, _getKeypair. rewrite Hkp. cbv zeta. rewrite Hsend.
  reflexivity.
Qed.

Lemma set_transaction_same p : set_transaction p (transaction p) = p.
Proof. now destruct p. Qed.

Lemma store_same m id p : _proposals m !! id = Some p -> store m id p = m.
Proof.
  intros H. destruct m as [ps]. unfold store. cbn in *. f_equal.
  now apply insert_id.
Qed.

(** With an unloaded wallet nothing is handed over and nothing changes. *)
Lemma execute_not_loaded m world id w p :
  _proposals m !! id = Some p ->
  isApproved p = true ->
  status p <> EXECUTED ->
  _keypair w = None ->
  execute m world id w
  = {| value := inl (WalletNotLoaded (Wallet.agentId w)); mgr := m;
       broadcast := [] |}.
Proof.
  intros H Happ Hst Hkp. unfold execute. rewrite H, Happ. cbn [negb].
  rewrite (bool_decide_eq_false_2 _ Hst).
  unfold signAndSend, _getKeypair. rewrite Hkp.
  now rewrite set_transaction_same, (store_same m id p H).
Qed.

Lemma Math_round_nearest (x : Q) :
  (x - (1 # 2) < inject_Z (Math_round x) /\ inject_Z (Math_round x) <= x + (1 # 2))%Q.
Proof.
  unfold Math_round.
  pose proof (Qfloor_le (x + (1 # 2))) as Hlo.
  pose proof (Qlt_floor (x + (1 # 2))) as Hhi.
  rewrite inject_Z_plus in Hhi. change (inject_Z 1) with 1%Q in Hhi.
  split; lra.
Qed.

(** What a successful creation returns and stores, whatever the threshold. *)
Lemma create_ok nacl_sign PublicKey_valid m world pw to amt d req cos blockhash kp :
  getLatestBlockhash world = inr blockhash ->
  _keypair pw = Some kp ->
  PublicKey_valid to = true ->
  transfer_encodes world (Math_round (amt * LAMPORTS_PER_SOL)%Q) = true ->
  exists p,
    createTransferProposal nacl_sign PublicKey_valid m world pw to amt d req cos
    = {| value := inr p; mgr := store m ("msig-" +:+ nanoid8 world) p;
         broadcast := [] |}
    /\ proposalId p = "msig-" +:+ nanoid8 world
    /\ requiredSigners p = req
    /\ authorizedSigners p = Wallet.agentId pw :: map Wallet.agentId cos
    /\ signatures p
       = {[ Wallet.agentId pw := signature_or_zero (transaction p) ]}
    /\ status p = PENDING.
Proof.
  intros Hb Hkp Hv Henc. unfold createTransferProposal, signOnly, _getKeypair.
  rewrite Hb, Hkp, Hv, Henc. cbn [negb].
  eexists. split; [reflexivity|]. cbn.
  repeat split; reflexivity.
Qed.

(** *** An executed proposal is frozen *)

Lemma apply_op_executed_frozen nacl_sign PublicKey_valid m world op id p :
  _proposals m !! id = Some p ->
  status p = EXECUTED ->
  created_id world op <> Some id ->
  _proposals (apply_op nacl_sign PublicKey_valid m world op).1 !! id = Some p
  /\ forall tx, (id, tx) ∉ (apply_op nacl_sign PublicKey_valid m world op).2.
Proof.
  intros Hp Hst Hfresh. destruct op as [pw to amt d req cos|id' w|id' w]; cbn.
  - split; [|intros tx Hin; inversion Hin].
    cbn in Hfresh. unfold createTransferProposal.
    repeat case_match; cbn; try exact Hp;
      (rewrite lookup_insert_ne by congruence; exact Hp).
  - split; [|intros tx Hin; inversion Hin].
    destruct (decide (id' = id)) as [->|Hne].
    + rewrite (coSign_not_pending _ _ _ _ _ Hp) by (rewrite Hst; discriminate).
      exact Hp.
    + unfold coSign. repeat case_match; cbn; try exact Hp;
        (rewrite lookup_insert_ne by exact Hne; exact Hp).
  - destruct (decide (id' = id)) as [->|Hne].
    + destruct (execute_on_executed m world id w p Hp Hst) as [e ->]. cbn.
      split; [exact Hp|]. intros tx Hin; inversion Hin.
    + split.
      * unfold execute. repeat case_match; cbn; try exact Hp;
          (rewrite lookup_insert_ne by exact Hne; exact Hp).
      * intros tx Hin. apply list_elem_of_fmap in Hin as [tx' [Heq _]].
        congruence.
Qed.

Lemma run_executed_frozen nacl_sign PublicKey_valid calls : forall m id p,
  _proposals m !! id = Some p ->
  status p = EXECUTED ->
  (forall world op, (world, op) ∈ calls -> created_id world op <> Some id) ->
  _proposals (run nacl_sign PublicKey_valid m calls).1 !! id = Some p
  /\ forall tx, (id, tx) ∉ (run nacl_sign PublicKey_valid m calls).2.
Proof.
  induction calls as [|[world op] rest IH]; intros m id p Hp Hst Hfresh.
  - cbn. split; [exact Hp|]. intros tx Hin; inversion Hin.
  - cbn [run].
    destruct (apply_op_executed_frozen nacl_sign PublicKey_valid m world op id p
                Hp Hst) as [Hp1 Hsent1].
    { apply Hfresh. left. }
    destruct (apply_op nacl_sign PublicKey_valid m world op) as [m1 sent1].
    cbn in Hp1, Hsent1.
    destruct (IH m1 id p Hp1 Hst) as [Hp2 Hsent2].
    { intros w o Hin. apply Hfresh. right. exact Hin. }
    destruct (run nacl_sign PublicKey_valid m1 rest) as [m2 sent2].
    cbn in *. split; [exact Hp2|].
    intros tx Hin. apply elem_of_app in Hin as [Hin|Hin].
    + exact (Hsent1 tx Hin).
    + exact (Hsent2 tx Hin).
Qed.

(** *** Creation *)

Lemma create_inv nacl_sign PublicKey_valid m world pw to amt d req cos p :
  value (createTransferProposal nacl_sign PublicKey_valid m world pw to amt d
                                req cos) = inr p ->
  exists blockhash kp,
    getLatestBlockhash world = inr blockhash
    /\ _keypair pw = Some kp
    /\ PublicKey_valid to = true
    /\ transfer_encodes world (Math_round (amt * LAMPORTS_PER_SOL)%Q) = true.
Proof.
  unfold createTransferProposal, signOnly, _getKeypair.
  destruct (getLatestBlockhash world) as [e|bh]; [discriminate|].
  destruct (_keypair pw) as [kp|]; [|discriminate].
  destruct (PublicKey_valid to); [|discriminate].
  destruct (transfer_encodes world _) eqn:Henc; [|discriminate].
  intros _. eauto 10.
Qed.

(** A proposal whose threshold is at most 1 leaves creation with enough
    signatures and with status PENDING. *)
Lemma create_threshold_met_still_pending
    nacl_sign PublicKey_valid m world pw to amt d req cos p :
  (req <= 1)%Z ->
  value (createTransferProposal nacl_sign PublicKey_valid m world pw to amt d
                                req cos) = inr p ->
  isApproved p = true /\ status p = PENDING.
Proof.
  intros Hreq Hv.
  destruct (create_inv _ _ _ _ _ _ _ _ _ _ _ Hv)
    as (bh & kp & Hb & Hkp & Hval & Henc).
  destruct (create_ok nacl_sign PublicKey_valid m world pw to amt d req cos
              bh kp Hb Hkp Hval Henc)
    as (p' & Heq & _ & Hr & _ & Hsigs & Hst).
  rewrite Heq in Hv. cbn in Hv. injection Hv as ->.
  split; [|exact Hst].
  unfold isApproved, signatureCount. apply bool_decide_eq_true_2.
  rewrite Hr, Hsigs, map_size_singleton. lia.
Qed.

(** *** What one [coSign] does to the status *)

Lemma coSign_transition nacl_sign m id w p p' b :
  _proposals m !! id = Some p ->
  value (coSign nacl_sign m id w) = inr (p', b) ->
  status p = PENDING
  /\ b = isApproved p'
  /\ (is_Some (signatures p !! Wallet.agentId w) /\ p' = p
       /\ mgr (coSign nacl_sign m id w) = m
      \/ signatures p !! Wallet.agentId w = None
         /\ mgr (coSign nacl_sign m id w) = store m id p'
         /\ signatureCount p' = signatureCount p + 1
         /\ requiredSigners p' = requiredSigners p
         /\ (status p' = APPROVED <-> requiredSigners p <= signatureCount p')
         /\ (status p' = PENDING <-> signatureCount p' < requiredSigners p)).
Proof.
  intros Hp Hv.
  destruct (decide (status p = PENDING)) as [Hst|Hst];
    [|rewrite (coSign_not_pending _ _ _ _ _ Hp Hst) in Hv; discriminate].
  split; [exact Hst|].
  destruct (decide (Wallet.agentId w ∈ authorizedSigners p)) as [Hauth|Hauth].
  2:{ unfold coSign in Hv. rewrite Hp in Hv.
      rewrite (bool_decide_eq_true_2 _ Hst) in Hv.
      rewrite (bool_decide_eq_false_2 _ Hauth) in Hv. discriminate. }
  destruct (signatures p !! Wallet.agentId w) as [s0|] eqn:Hsig.
  - assert (Hs : is_Some (signatures p !! Wallet.agentId w))
      by (rewrite Hsig; eauto).
    rewrite (coSign_already_signed _ _ _ _ _ Hp Hst Hauth Hs) in Hv |- *.
    cbn in Hv. injection Hv as <- <-.
    split; [reflexivity|]. left. rewrite <- Hsig. auto.
  - destruct (signOnly nacl_sign w (transaction p)) as [e|signed] eqn:Hsign.
    + unfold coSign in Hv. rewrite Hp in Hv.
      rewrite (bool_decide_eq_true_2 _ Hst), (bool_decide_eq_true_2 _ Hauth) in Hv.
      rewrite bool_decide_eq_false_2 in Hv
        by (rewrite Hsig; intros [? ?]; discriminate).
      cbn [negb] in Hv. rewrite Hsign in Hv. discriminate.
    + pose proof (coSign_fresh _ _ _ _ _ _ Hp Hst Hauth Hsig Hsign) as Heq.
      cbn zeta in Heq. rewrite Heq in Hv |- *. cbn in Hv.
      injection Hv as <- <-.
      split; [reflexivity|]. right.
      split; [reflexivity|]. split; [reflexivity|].
      pose proof (signatureCount_set_signature_fresh
                    (set_transaction p signed) (Wallet.agentId w)
                    (signature_or_zero signed) Hsig) as Hcnt.
      clear Heq. unfold signed_by.
      set (p1 := set_signature (set_transaction p signed) (Wallet.agentId w)
                               (signature_or_zero signed)) in *.
      assert (Hc1 : signatureCount p1 = signatureCount p + 1) by exact Hcnt.
      assert (Hr1 : requiredSigners p1 = requiredSigners p) by reflexivity.
      assert (Hs1 : status p1 = PENDING) by exact Hst.
      destruct (isApproved p1) eqn:Happ; unfold isApproved in Happ;
        [apply bool_decide_eq_true_1 in Happ
        |apply bool_decide_eq_false_1 in Happ].
      * change (signatureCount (set_status p1 APPROVED)) with (signatureCount p1).
        change (status (set_status p1 APPROVED)) with APPROVED.
        change (requiredSigners (set_status p1 APPROVED)) with (requiredSigners p1).
        repeat split; try lia; try discriminate; auto.
      * rewrite Hs1. repeat split; try lia; try discriminate; auto.
Qed.

(** *** The claims *)

(** C2.  Exactly-once execution.  Once a proposal is stored with status
    EXECUTED, every call of [execute] on its id throws, leaves the manager
    as it was and hands nothing to the network; and whatever requests
    follow (creations under other ids, co-signatures, executions), the
    proposal stays exactly as it is and no transaction is ever sent again
    under its id. *)
Theorem execute_exactly_once nacl_sign PublicKey_valid m id p calls :
  _proposals m !! id = Some p ->
  status p = EXECUTED ->
  (forall world op, (world, op) ∈ calls -> created_id world op <> Some id) ->
  (forall world w, exists e,
      execute m world id w = {| value := inl e; mgr := m; broadcast := [] |})
  /\ _proposals (run nacl_sign PublicKey_valid m calls).1 !! id = Some p
  /\ (forall tx, (id, tx) ∉ (run nacl_sign PublicKey_valid m calls).2).
Proof.
  intros Hp Hst Hfresh. split.
  - intros world w. exact (execute_on_executed m world id w p Hp Hst).
  - exact (run_executed_frozen nacl_sign PublicKey_valid calls m id p
             Hp Hst Hfresh).
Qed.

Lemma execute_exactly_once_witness :
  let m := mgr (executed_alice 1) in
  value (executed_alice 1) = inr "5VERv8NM"
  /\ broadcast (executed_alice 1) = [transaction (held (mgr (created 1)))]
  /\ status (held m) = EXECUTED
  /\ (forall world w, exists e,
        execute m world demo_id w
        = {| value := inl e; mgr := m; broadcast := [] |})
  /\ _proposals (run demo_sign demo_valid m later_calls).1 !! demo_id
     = Some (held m)
  /\ (forall tx, (demo_id, tx) ∉ (run demo_sign demo_valid m later_calls).2).
Proof.
  cbv zeta.
  split; [vm_compute; reflexivity|].
  split; [vm_compute; reflexivity|].
  split; [vm_compute; reflexivity|].
  apply (execute_exactly_once demo_sign demo_valid (mgr (executed_alice 1))
           demo_id (held (mgr (executed_alice 1))) later_calls).
  - vm_compute; reflexivity.
  - vm_compute; reflexivity.
  - intros world op Hin.
    repeat (apply elem_of_cons in Hin as [Heq|Hin];
            [injection Heq as -> ->; cbn; discriminate|]).
    inversion Hin.
Defined.

(** C3.  The code at the failing input: a 1-of-3 proposal comes out of
    [createTransferProposal] with its single required signature recorded
    (count 1 of 1, [isApproved] true) and with status PENDING; the status
    becomes APPROVED only when a second signer co-signs, at count 2. *)
Theorem threshold_met_at_creation_stays_pending :
  exists p p2,
    value (created 1) = inr p
    /\ requiredSigners p = 1
    /\ signatureCount p = 1
    /\ isApproved p = true
    /\ status p = PENDING
    /\ getProposal (mgr (created 1)) demo_id = Some p
    /\ value (cosigned_bob 1) = inr (p2, true)
    /\ signatureCount p2 = 2
    /\ status p2 = APPROVED.
Proof.
  eexists; eexists.
  split; [vm_compute; reflexivity|].
  repeat split; vm_compute; reflexivity.
Qed.

(** C5, as the code has it.  [createTransferProposal] never looks at the
    threshold: whenever the block hash is obtained, the proposer's wallet
    is loaded, the destination is a valid key, the amount is at most a
    million SOL and web3.js can encode it as a transfer of lamports (either
    whole number next to amount times 10^9), it returns a proposal
    carrying the requested [requiredSigners] unchanged, whatever that
    number is (below 1 or above the number of authorized signers
    included), and registers it under the new id with status PENDING.
    The bound on the amount keeps the product the source rounds, a double,
    within a lamport of the exact one. *)
Theorem create_never_checks_threshold
    nacl_sign PublicKey_valid m world pw to amt d req cos blockhash kp :
  getLatestBlockhash world = inr blockhash ->
  _keypair pw = Some kp ->
  PublicKey_valid to = true ->
  (amt <= 1000000)%Q ->
  (forall l : Z,
      (amt * LAMPORTS_PER_SOL - 1 < inject_Z l < amt * LAMPORTS_PER_SOL + 1)%Q ->
      transfer_encodes world l = true) ->
  exists p,
    value (createTransferProposal nacl_sign PublicKey_valid m world pw to amt d
                                  req cos) = inr p
    /\ getProposal
         (mgr (createTransferProposal nacl_sign PublicKey_valid m world pw to
                                      amt d req cos))
         (proposalId p) = Some p
    /\ requiredSigners p = req
    /\ authorizedSigners p = Wallet.agentId pw :: map Wallet.agentId cos
    /\ signatureCount p = 1
    /\ status p = PENDING.
Proof.
  intros Hb Hkp Hv _ Henc.
  assert (Hl : transfer_encodes world (Math_round (amt * LAMPORTS_PER_SOL)%Q)
               = true).
  { apply Henc. pose proof (Math_round_nearest (amt * LAMPORTS_PER_SOL)%Q).
    split; lra. }
  destruct (create_ok nacl_sign PublicKey_valid m world pw to amt d req cos
              blockhash kp Hb Hkp Hv Hl)
    as (p & Heq & Hid & Hreq & Hauth & Hsigs & Hst).
  exists p. rewrite Heq. cbn [value mgr].
  split; [reflexivity|].
  split; [unfold getProposal, store; cbn; rewrite Hid; apply lookup_insert_eq|].
  split; [exact Hreq|]. split; [exact Hauth|]. split; [|exact Hst].
  unfold signatureCount. rewrite Hsigs. rewrite map_size_singleton. reflexivity.
Qed.

Lemma create_never_checks_threshold_witness :
  exists p,
    value (created 0) = inr p
    /\ getProposal (mgr (created 0)) (proposalId p) = Some p
    /\ requiredSigners p = 0
    /\ authorizedSigners p = ["alice"; "bob"; "carol"]
    /\ signatureCount p = 1
    /\ status p = PENDING.
Proof.
  apply (create_never_checks_threshold demo_sign demo_valid empty_manager
           demo_world alice "DeSTination" (1 # 2)%Q "treasury" 0 [bob; carol]
           "blockhash-1" {| publicKey := "ALiCE"; secretKey := [Byte.x0a] |});
    try reflexivity.
  { vm_compute. discriminate. }
  intros l [Hlo Hhi]. apply bool_decide_eq_true_2.
  unfold LAMPORTS_PER_SOL in Hlo, Hhi.
  assert (H1 : (inject_Z 499999999 < inject_Z l)%Q)
    by (change (inject_Z 499999999) with (499999999 # 1)%Q; lra).
  assert (H2 : (inject_Z l < inject_Z 500000001)%Q)
    by (change (inject_Z 500000001) with (500000001 # 1)%Q; lra).
  rewrite <- Zlt_Qlt in H1, H2. lia.
Defined.

(** C5 fails as stated: with three authorized signers, thresholds 0 and 5
    are both accepted and the proposals are registered. *)
Lemma create_accepts_bad_thresholds :
  (exists p, value (created 0) = inr p
             /\ getProposal (mgr (created 0)) demo_id = Some p
             /\ requiredSigners p = 0)
  /\ (exists p, value (created 5) = inr p
                /\ getProposal (mgr (created 5)) demo_id = Some p
                /\ requiredSigners p = 5
                /\ List.length (authorizedSigners p) = 3%nat).
Proof.
  split; eexists; (split; [vm_compute; reflexivity|]);
    repeat split; vm_compute; reflexivity.
Qed.

(** C6, as the code has it.  In a 2-of-N proposal whose proposer signed
    at creation and whose second signer's [coSign] reported approval, the
    proposal then holds two signatures and has status APPROVED; a later
    [coSign] by any further signer throws (the proposal is no longer
    PENDING), records nothing and leaves the stored proposal, with its two
    signatures and its status APPROVED, as it was. *)
Theorem third_coSign_after_approval_throws
    nacl_sign PublicKey_valid m world pw to amt d cos p0 wb p1 wc :
  let r0 := createTransferProposal nacl_sign PublicKey_valid m world pw to amt
                                   d 2 cos in
  let r1 := coSign nacl_sign (mgr r0) (proposalId p0) wb in
  value r0 = inr p0 ->
  value r1 = inr (p1, true) ->
  signatureCount p0 = 1 /\ status p0 = PENDING
  /\ signatureCount p1 = 2 /\ status p1 = APPROVED
  /\ coSign nacl_sign (mgr r1) (proposalId p0) wc
     = {| value := inl (ProposalNotPending (proposalId p0) "APPROVED");
          mgr := mgr r1; broadcast := [] |}
  /\ getProposal (mgr r1) (proposalId p0) = Some p1.
Proof.
  intros r0 r1 Hv0 Hv1.
  destruct (create_inv _ _ _ _ _ _ _ _ _ _ _ Hv0)
    as (bh & kp & Hb & Hkp & Hval & Henc).
  destruct (create_ok nacl_sign PublicKey_valid m world pw to amt d 2 cos
              bh kp Hb Hkp Hval Henc)
    as (p & Heq & Hid & Hreq & Hauth & Hsigs & Hst).
  fold r0 in Heq. rewrite Heq in Hv0. cbn in Hv0. injection Hv0 as ->.
  assert (Hc0 : signatureCount p0 = 1)
    by (unfold signatureCount; rewrite Hsigs, map_size_singleton; reflexivity).
  assert (Hm0 : _proposals (mgr r0) !! proposalId p0 = Some p0)
    by (rewrite Heq, Hid; cbn; apply lookup_insert_eq).
  destruct (coSign_transition nacl_sign (mgr r0) (proposalId p0) wb p0 p1 true
              Hm0 Hv1) as (_ & Happ & Hcases).
  fold r1 in Hcases.
  destruct Hcases as [(_ & -> & _)|(Hnone & Hm1 & Hc1 & Hr1 & Happ1 & _)].
  { exfalso. unfold isApproved in Happ. symmetry in Happ.
    apply bool_decide_eq_true_1 in Happ. lia. }
  assert (Hst1 : status p1 = APPROVED).
  { apply Happ1. unfold isApproved in Happ. symmetry in Happ.
    apply bool_decide_eq_true_1 in Happ. lia. }
  assert (Hl1 : _proposals (mgr r1) !! proposalId p0 = Some p1)
    by (rewrite Hm1; cbn; apply lookup_insert_eq).
  repeat split; try assumption; try lia.
  rewrite (coSign_not_pending nacl_sign (mgr r1) (proposalId p0) wc p1 Hl1)
    by (rewrite Hst1; discriminate).
  rewrite Hst1. reflexivity.
Qed.

Lemma third_coSign_after_approval_throws_witness :
  signatureCount (held (mgr (created 2))) = 1
  /\ status (held (mgr (created 2))) = PENDING
  /\ signatureCount (held (mgr (cosigned_bob 2))) = 2
  /\ status (held (mgr (cosigned_bob 2))) = APPROVED
  /\ coSign demo_sign (mgr (cosigned_bob 2)) demo_id carol
     = {| value := inl (ProposalNotPending demo_id "APPROVED");
          mgr := mgr (cosigned_bob 2); broadcast := [] |}
  /\ getProposal (mgr (cosigned_bob 2)) demo_id
     = Some (held (mgr (cosigned_bob 2))).
Proof.
  apply (third_coSign_after_approval_throws demo_sign demo_valid empty_manager
           demo_world alice "DeSTination" (1 # 2)%Q "treasury" [bob; carol]
           (held (mgr (created 2))) bob (held (mgr (cosigned_bob 2))) carol);
    vm_compute; reflexivity.
Defined.

(** C6 fails as stated: in the 2-of-3 scenario carol's [coSign] after the
    approval throws, and the count stays at 2 instead of reaching 3. *)
Lemma third_coSign_does_not_succeed :
  status (held (mgr (cosigned_bob 2))) = APPROVED
  /\ value (coSign demo_sign (mgr (cosigned_bob 2)) demo_id carol)
     = inl (ProposalNotPending demo_id "APPROVED")
  /\ signatureCount
       (held (mgr (coSign demo_sign (mgr (cosigned_bob 2)) demo_id carol)))
     = 2.
Proof. repeat split; vm_compute; reflexivity. Qed.

(** C9, as the code has it.  When an authorized signer who has already
    signed calls [coSign] again, the manager is left exactly as it was (no
    signature added, no status changed); the call returns the proposal and
    its current approval status when the proposal is still PENDING, and
    throws when it is not. *)
Theorem coSign_again_by_same_signer nacl_sign m id w p :
  _proposals m !! id = Some p ->
  Wallet.agentId w ∈ authorizedSigners p ->
  is_Some (signatures p !! Wallet.agentId w) ->
  mgr (coSign nacl_sign m id w) = m
  /\ (status p = PENDING ->
      value (coSign nacl_sign m id w) = inr (p, isApproved p))
  /\ (status p <> PENDING ->
      value (coSign nacl_sign m id w)
      = inl (ProposalNotPending id (Status_name (status p)))).
Proof.
  intros Hp Hauth Hsig.
  destruct (decide (status p = PENDING)) as [Hst|Hst].
  - rewrite (coSign_already_signed nacl_sign m id w p Hp Hst Hauth Hsig).
    cbn. split; [reflexivity|]. split; [reflexivity|].
    intros Hne. contradiction.
  - rewrite (coSign_not_pending nacl_sign m id w p Hp Hst).
    cbn. split; [reflexivity|]. split; [|reflexivity].
    intros Heq. contradiction.
Qed.

Lemma coSign_again_by_same_signer_witness :
  let m := mgr (created 2) in
  mgr (coSign demo_sign m demo_id alice) = m
  /\ (status (held m) = PENDING ->
      value (coSign demo_sign m demo_id alice)
      = inr (held m, isApproved (held m)))
  /\ (status (held m) <> PENDING ->
      value (coSign demo_sign m demo_id alice)
      = inl (ProposalNotPending demo_id (Status_name (status (held m))))).
Proof.
  apply (coSign_again_by_same_signer demo_sign (mgr (created 2)) demo_id alice
           (held (mgr (created 2)))).
  - vm_compute; reflexivity.
  - vm_compute. left.
  - vm_compute. eexists; reflexivity.
Defined.

(** C9 fails as stated: bob, whose signature approved the 2-of-3 proposal,
    calls [coSign] a second time and the call throws. *)
Lemma second_coSign_can_throw :
  Wallet.agentId bob ∈ authorizedSigners (held (mgr (cosigned_bob 2)))
  /\ is_Some (signatures (held (mgr (cosigned_bob 2))) !! Wallet.agentId bob)
  /\ value (coSign demo_sign (mgr (cosigned_bob 2)) demo_id bob)
     = inl (ProposalNotPending demo_id "APPROVED").
Proof.
  split; [vm_compute; right; left|].
  split; [vm_compute; eexists; reflexivity|].
  vm_compute; reflexivity.
Qed.



End MultiSigFacts.

(* ===================================================================== *)
(** ** Facts about the decision engines *)
(* ===================================================================== *)

Module EngineFacts.
Import Engine.

Local Open Scope Q_scope.

(** *** Numbers *)

Lemma Qltb_true x y : Qltb x y = true <-> x < y.
Proof.
  unfold Qltb. destruct (Qlt_le_dec x y) as [H|H]; split; intros H'; auto;
    try discriminate. exfalso. lra.
Qed.

Lemma Qltb_false x y : Qltb x y = false <-> y <= x.
Proof.
  unfold Qltb. destruct (Qlt_le_dec x y) as [H|H]; split; intros H'; auto;
    try discriminate. exfalso. lra.
Qed.

Lemma grid_le (a b : Z) : (a # 1000000) <= (b # 1000000) <-> (a <= b)%Z.
Proof. unfold Qle. cbn. lia. Qed.

Lemma Qfloor_half (k : Z) : Qfloor (inject_Z k + (1 # 2)) = k.
Proof.
  pose proof (Qfloor_le (inject_Z k + (1 # 2))) as Hlo.
  pose proof (Qlt_floor (inject_Z k + (1 # 2))) as Hhi.
  assert (H1 : (k <= Qfloor (inject_Z k + (1 # 2)))%Z).
  { rewrite <- (Qfloor_Z k) at 1. apply Qfloor_resp_le. lra. }
  assert (H2 : (Qfloor (inject_Z k + (1 # 2)) < k + 1)%Z).
  { rewrite Zlt_Qlt, inject_Z_plus. change (inject_Z 1) with 1. lra. }
  lia.
Qed.

Lemma toFixed6_monotone x y : x <= y -> toFixed6 x <= toFixed6 y.
Proof.
  intros Hxy. unfold toFixed6.
  destruct (Qlt_le_dec x 0) as [Hx|Hx], (Qlt_le_dec y 0) as [Hy|Hy].
  - assert (H : (Qfloor (- y * 1000000 + (1 # 2))
                 <= Qfloor (- x * 1000000 + (1 # 2)))%Z)
      by (apply Qfloor_resp_le; lra).
    apply grid_le in H. lra.
  - assert (H1 : (0 <= Qfloor (- x * 1000000 + (1 # 2)))%Z)
      by (change 0%Z with (Qfloor 0); apply Qfloor_resp_le; lra).
    assert (H2 : (0 <= Qfloor (y * 1000000 + (1 # 2)))%Z)
      by (change 0%Z with (Qfloor 0); apply Qfloor_resp_le; lra).
    apply grid_le in H1, H2. lra.
  - exfalso. lra.
  - apply grid_le. apply Qfloor_resp_le. lra.
Qed.

Lemma toFixed6_on_grid x : on_grid6 x -> toFixed6 x == x.
Proof.
  intros [k Hk]. unfold toFixed6.
  assert (Hinj : forall j : Z, (j # 1000000) * 1000000 == inject_Z j).
  { intros j. unfold Qeq, Qmult, inject_Z. cbn. lia. }
  destruct (Qlt_le_dec x 0) as [Hx|Hx].
  - assert (Hf : Qfloor (- x * 1000000 + (1 # 2)) = (- k)%Z).
    { transitivity (Qfloor (inject_Z (- k) + (1 # 2))); [|apply Qfloor_half].
      apply Qfloor_comp. rewrite Hk, inject_Z_opp, <- Hinj. ring. }
    rewrite Hf, Hk. unfold Qeq, Qopp. cbn. lia.
  - assert (Hf : Qfloor (x * 1000000 + (1 # 2)) = k).
    { transitivity (Qfloor (inject_Z k + (1 # 2))); [|apply Qfloor_half].
      apply Qfloor_comp. rewrite Hk, Hinj. reflexivity. }
    rewrite Hf, Hk. reflexivity.
Qed.

Lemma Math_min3_le_second a b c : Math_min3 a b c <= b.
Proof.
  unfold Math_min3.
  pose proof (Q.le_min_l (Qmin a b) c). pose proof (Q.le_min_r a b). lra.
Qed.

(** *** The JSON object inside an answer *)

Example match_json_greedy :
  match_json "My decision: {a} and {b} Done." = Some "{a} and {b}"%string.
Proof. reflexivity. Qed.

Example match_json_needs_closing_after_opening :
  match_json "no json } here {" = None.
Proof. reflexivity. Qed.

(** *** The validator, case by case *)

Lemma TRADE_is_valid d :
  action d = TRADE -> bool_decide (action d ∈ AgentState_values) = true.
Proof.
  intros ->. apply bool_decide_eq_true_2.
  unfold AgentState_values. right. left.
Qed.

Lemma validate_invalid cap d b :
  action d ∉ AgentState_values -> _validateDecision cap d b = (IDLE, d).
Proof.
  intros H. unfold _validateDecision.
  now rewrite (bool_decide_eq_false_2 _ H).
Qed.

Lemma validate_trade_below_floor cap d b :
  action d = TRADE ->
  b - num_or (tradeAmount d) 0 < 3 # 1000 ->
  _validateDecision cap d b = (IDLE, d).
Proof.
  intros Ha Hfloor. unfold _validateDecision.
  rewrite (TRADE_is_valid d Ha), (bool_decide_eq_true_2 _ Ha). cbn [negb].
  now rewrite (proj2 (Qltb_true _ _) Hfloor).
Qed.

Lemma validate_trade_capped cap d b :
  action d = TRADE ->
  3 # 1000 <= b - num_or (tradeAmount d) 0 ->
  cap < num_or (tradeAmount d) 0 ->
  _validateDecision cap d b = (TRADE, set_tradeAmount d cap).
Proof.
  intros Ha Hfloor Hcap. unfold _validateDecision.
  rewrite (TRADE_is_valid d Ha), (bool_decide_eq_true_2 _ Ha). cbn [negb].
  rewrite (proj2 (Qltb_false _ _) Hfloor), (proj2 (Qltb_true _ _) Hcap).
  now rewrite Ha.
Qed.

Lemma validate_trade_kept cap d b :
  action d = TRADE ->
  3 # 1000 <= b - num_or (tradeAmount d) 0 ->
  num_or (tradeAmount d) 0 <= cap ->
  _validateDecision cap d b = (TRADE, d).
Proof.
  intros Ha Hfloor Hcap. unfold _validateDecision.
  rewrite (TRADE_is_valid d Ha), (bool_decide_eq_true_2 _ Ha). cbn [negb].
  rewrite (proj2 (Qltb_false _ _) Hfloor), (proj2 (Qltb_false _ _) Hcap).
  now rewrite Ha.
Qed.

Lemma validate_keeps_reason cap d b :
  reason (_validateDecision cap d b).2 = reason d.
Proof. unfold _validateDecision. repeat case_match; reflexivity. Qed.



(** *** The amounts handed to the protocol *)

Lemma trade_amount_le_cap_on_grid cap world b d :
  on_grid6 cap -> trade_amount cap world b d <= cap.
Proof.
  intros Hgrid. unfold trade_amount.
  pose proof (toFixed6_on_grid cap Hgrid) as Heq.
  pose proof (toFixed6_monotone _ _
                (Math_min3_le_second
                   (num_or (tradeAmount d) (random_trade_amount world * cap))
                   cap (b * (1 # 10)))) as Hle.
  lra.
Qed.

Lemma _doLLMTrade_trades cap e world b d entry :
  entry ∈ trades (_doLLMTrade cap e world b d) ->
  entry.2 = trade_amount cap world b d
  /\ exists p, resolve_target e world d = Some p /\ entry.1 = Wallet.agentId p.
Proof.
  unfold _doLLMTrade.
  destruct (resolve_target e world d) as [p|]; [|intros H; inversion H].
  destruct (Qle_bool _ _); [intros H; inversion H|].
  destruct (Wallet.publicKeyObj p); [intros H; inversion H|].
  destruct (executeTrade world _ _); cbn; intros H;
    apply list_elem_of_singleton in H; subst; cbn; eauto.
Qed.

Lemma executeState_trades cap e world b d entry :
  entry ∈ trades (_executeStateWithLLMContext cap e world b d) ->
  entry ∈ trades (_doLLMTrade cap e world b d).
Proof.
  unfold _executeStateWithLLMContext.
  destruct (bool_decide (state e = TRADE)).
  - destruct (raised _); cbn; auto.
  - assert (Hy : trades (_doYield e world b) = []).
    { unfold _doYield. destruct (simulateYield _ _); reflexivity. }
    assert (Hr : trades (_doRebal e world) = []).
    { unfold _doRebal. repeat case_match; reflexivity. }
    destruct (bool_decide (state e = YIELD));
      [|destruct (bool_decide (state e = REBAL))];
      destruct (raised _); cbn; try rewrite Hy; try rewrite Hr;
      intros H; inversion H.
Qed.

Lemma executeState_never_raises cap e world b d :
  raised (_executeStateWithLLMContext cap e world b d) = None.
Proof.
  unfold _executeStateWithLLMContext.
  set (r := if bool_decide (state e = TRADE) then _ else _).
  destruct (raised r) eqn:H; [reflexivity|exact H].
Qed.

(** On a cap of whole micro-SOL no trade of a cycle of the inference
    engine exceeds the cap, whatever the inference call answered. *)
Lemma tick_trades_le_cap_on_grid cap JSON_parse e world entry :
  on_grid6 cap ->
  entry ∈ trades (tick cap JSON_parse e world) ->
  entry.2 <= cap.
Proof.
  intros Hgrid. unfold tick.
  destruct (getSOLBalance _ _) as [err|balance]; [intros H; inversion H|].
  destruct (Qltb balance _); [intros H; inversion H|].
  destruct (Wallet.publicKeyObj _); [intros H; inversion H|].
  destruct (_llmDecide _ _ _ _ _) as [[err|d] e1]; [intros H; inversion H|].
  destruct (_validateDecision cap d balance) as [nextState d']. cbn.
  intros H. apply executeState_trades, _doLLMTrade_trades in H as [-> _].
  now apply trade_amount_le_cap_on_grid.
Qed.

(** The same for the trade of the rule engine, for a random draw in
    [0, 1). *)
Lemma _doTrade_le_cap_on_grid cap e world b entry :
  on_grid6 cap ->
  0 <= random_trade_amount world < 1 ->
  entry ∈ trades (_doTrade cap e world b) ->
  entry.2 <= cap.
Proof.
  intros Hgrid [Hr0 Hr1]. unfold _doTrade.
  destruct (bool_decide _); [intros H; inversion H|].
  destruct (random_element _ _) as [peer|]; [|intros H; inversion H].
  destruct (bool_decide _); [intros H; inversion H|].
  destruct (Qltb _ _) eqn:Hmax; [intros H; inversion H|].
  apply Qltb_false in Hmax.
  destruct (Qle_bool _ _); [intros H; inversion H|].
  assert (Hamt : toFixed6 (random_trade_amount world * Qmin cap (b * (1 # 10)))
                 <= cap).
  { pose proof (toFixed6_on_grid cap Hgrid) as Heq.
    pose proof (Q.le_min_l cap (b * (1 # 10))) as Hle.
    set (mx := Qmin cap (b * (1 # 10))) in *.
    assert (Hpos : 0 <= (1 - random_trade_amount world) * mx)
      by (apply Qmult_le_0_compat; lra).
    assert (Hprod : random_trade_amount world * mx <= cap) by lra.
    pose proof (toFixed6_monotone _ _ Hprod). lra. }
  destruct (Wallet.publicKeyObj peer); [intros H; inversion H|].
  destruct (executeTrade world _ _); cbn; intros H;
    apply list_elem_of_singleton in H; subst; exact Hamt.
Qed.

(** *** Random picks and targets *)

Lemma random_element_in {A : Type} (r : Q) (l : list A) :
  0 <= r < 1 -> l <> [] ->
  exists x, random_element r l = Some x /\ x ∈ l.
Proof.
  intros [Hr0 Hr1] Hne. unfold random_element.
  set (n := Z.of_nat (List.length l)).
  assert (Hn : (0 < n)%Z) by (destruct l; [contradiction|cbn in n; lia]).
  assert (HnQ : 0 < inject_Z n)
    by (change 0 with (inject_Z 0); rewrite <- Zlt_Qlt; exact Hn).
  assert (Hlo : (0 <= Qfloor (r * inject_Z n))%Z).
  { change 0%Z with (Qfloor 0). apply Qfloor_resp_le.
    apply Qmult_le_0_compat; lra. }
  assert (Hhi : (Qfloor (r * inject_Z n) < n)%Z).
  { rewrite Zlt_Qlt. pose proof (Qfloor_le (r * inject_Z n)) as Hfl.
    assert (0 < (1 - r) * inject_Z n) by (apply Qmult_lt_0_compat; lra).
    lra. }
  rewrite (bool_decide_eq_true_2 _ Hlo).
  destruct (l !! Z.to_nat (Qfloor (r * inject_Z n))) as [x|] eqn:Hx.
  - exists x. split; [reflexivity|]. eapply list_elem_of_lookup_2, Hx.
  - apply lookup_ge_None in Hx. unfold n in *. lia.
Qed.

Lemma find_no_match {A : Type} (f : A -> bool) (l : list A) :
  (forall x, x ∈ l -> f x = false) -> List.find f l = None.
Proof.
  induction l as [|a l IH]; intros H; [reflexivity|]. cbn.
  rewrite (H a) by left. apply IH. intros x Hx. apply H. now right.
Qed.

Lemma resolve_target_unknown e world d :
  (forall p, p ∈ peers e -> Some (Wallet.agentId p) <> tradeTarget d) ->
  resolve_target e world d
  = if bool_decide (0 < List.length (peers e))%nat
    then random_element (random_trade_peer world) (peers e)
    else None.
Proof.
  intros Hunk. unfold resolve_target.
  destruct (truthy_string (tradeTarget d)); [|reflexivity].
  rewrite find_no_match; [reflexivity|].
  intros p Hp. apply bool_decide_eq_false_2. now apply Hunk.
Qed.

(** *** The inference call and its fallback *)

Lemma _llmDecide_eq cap JSON_parse e world snapshot :
  _llmDecide cap JSON_parse e world snapshot
  = if no_apiKey e
    then (_fallbackDecisionObject cap e world (balanceSOL snapshot), e)
    else
      match llm_answer JSON_parse world with
      | Some parsed => (inr parsed, incr_llmCallCount e)
      | None =>
          (_fallbackDecisionObject cap (incr_llmFailCount (incr_llmCallCount e))
                                   world (balanceSOL snapshot),
           incr_llmFailCount (incr_llmCallCount e))
      end.
Proof.
  unfold _llmDecide, llm_answer.
  destruct (no_apiKey e); [reflexivity|].
  destruct (fetch world) as [msg|ok status json]; [reflexivity|].
  destruct ok; cbn [negb]; [|reflexivity].
  destruct json as [text|]; [|reflexivity].
  destruct (match_json _); [|reflexivity].
  destruct (JSON_parse _); reflexivity.
Qed.

(** The fallback object is the decision of the rule ladder [_decide] on the
    same balance, cycle count and peers; it exists for any draw in [0, 1). *)
Lemma fallback_is_rule_decision cap e world b :
  0 <= random_fallback_peer world < 1 ->
  exists d, _fallbackDecisionObject cap e world b = inr d
            /\ action d = _decide e b.
Proof.
  intros Hr. unfold _fallbackDecisionObject, _decide.
  destruct (Qltb b (3 # 1000)); [eauto|].
  destruct (Z.rem (cycleCount e) 7 =? 0)%Z; [eauto|].
  destruct ((Z.rem (cycleCount e) 12 =? 0)%Z && _); [eauto|].
  destruct (bool_decide (0 < List.length (peers e))%nat) eqn:Hp;
    cbn [andb]; [|eauto].
  destruct (Qltb (2 # 100) b); [|eauto].
  apply bool_decide_eq_true_1 in Hp.
  destruct (random_element_in (random_fallback_peer world) (peers e) Hr)
    as (peer & -> & _).
  - destruct (peers e); [cbn in Hp; lia|discriminate].
  - eauto.
Qed.

Lemma getSOLBalance_loaded getBalance w b :
  getSOLBalance getBalance w = inr b ->
  exists pk, Wallet.publicKeyObj w = inr pk.
Proof.
  unfold getSOLBalance. destruct (Wallet.publicKeyObj w); [discriminate|eauto].
Qed.

Lemma fallback_ignores_counters cap e world b :
  _fallbackDecisionObject cap (incr_llmFailCount (incr_llmCallCount e)) world b
  = _fallbackDecisionObject cap e world b.
Proof. reflexivity. Qed.

(** What a failed inference call makes [_llmDecide] return. *)
Lemma failed_llmDecide cap JSON_parse e world snapshot :
  no_apiKey e = true \/ llm_answer JSON_parse world = None ->
  exists e',
    _llmDecide cap JSON_parse e world snapshot
    = (_fallbackDecisionObject cap e world (balanceSOL snapshot), e')
    /\ agentId e' = agentId e /\ cycleCount e' = cycleCount e
    /\ state e' = state e
    /\ _llmFailCount e'
       = (_llmFailCount e + if no_apiKey e then 0 else 1)%Z.
Proof.
  intros Hfail. rewrite _llmDecide_eq.
  destruct (no_apiKey e) eqn:Hk.
  - exists e. repeat split; try reflexivity. lia.
  - destruct Hfail as [Hfail|Hfail]; [discriminate|]. rewrite Hfail.
    rewrite fallback_ignores_counters.
    exists (incr_llmFailCount (incr_llmCallCount e)).
    repeat split; reflexivity.
Qed.

(** *** The claims *)

(** C1.  The code at the failing input.  With the cap configured as
    0.0000016 SOL, a balance of 1 SOL and bob as peer, a TRADE decision for
    exactly the cap passes the validator unchanged, and [_doLLMTrade]
    rounds the clamped amount to six decimals after clamping it: the trade
    handed to the protocol is 0.000002 SOL, above the cap.  The trade of
    the rule engine does the same for a draw of 0.99. *)
Theorem rounding_lifts_trade_above_cap :
  let d := trade_decision "bob" fine_cap in
  _validateDecision fine_cap d 1 = (TRADE, d)
  /\ trades (_executeStateWithLLMContext fine_cap (set_state demo_engine TRADE)
                (cycle_world timeout 0) 1 d)
     = [("bob"%string, 2 # 1000000)]
  /\ trades (tick fine_cap (parse_trade "bob" "0.0000016" fine_cap) demo_engine
                (cycle_world (answer "bob" "0.0000016") 0))
     = [("bob"%string, 2 # 1000000)]
  /\ trades (_doTrade fine_cap demo_engine (cycle_world timeout (99 # 100)) 1)
     = [("bob"%string, 2 # 1000000)]
  /\ fine_cap < 2 # 1000000.
Proof. repeat split; vm_compute; reflexivity. Qed.




(** C7, as the code has it.  In a cycle whose balance passes the safety
    gate and whose inference call fails (no API key, a rejected or timed
    out request, a non-2xx answer, an unreadable body, no JSON object in
    the text, or a parse error), the engine decides with the rule-based
    fallback object computed from the snapshot's balance, whose action is
    the one the rule ladder [_decide] gives for that balance; [tick] raises
    nothing to its caller; and the decision event it emits carries the
    fallback's reason and the source tag "llm", the tag [tick] writes on
    every decision that went past the safety gate. *)
Theorem failed_inference_falls_back_tagged_llm cap JSON_parse e world balance :
  getSOLBalance (conn_getBalance world) (wallet e) = inr balance ->
  3 # 1000 <= balance ->
  no_apiKey e = true \/ llm_answer JSON_parse world = None ->
  0 <= random_fallback_peer world < 1 ->
  exists d rest,
    _fallbackDecisionObject cap (incr_cycleCount e) world (toFixed6 balance)
    = inr d
    /\ action d = _decide (incr_cycleCount e) (toFixed6 balance)
    /\ raised (tick cap JSON_parse e world) = None
    /\ events (tick cap JSON_parse e world)
       = decision_event (agentId e) (cycleCount e + 1) balance (state e)
           (_validateDecision cap d balance).1 (Some "llm"%string)
           (Some (reason d))
         :: rest.
Proof.
  intros Hbal Hfloor Hfail Hr.
  destruct (fallback_is_rule_decision cap (incr_cycleCount e) world
              (toFixed6 balance) Hr) as (d & Hfb & Hact).
  destruct (getSOLBalance_loaded _ _ _ Hbal) as [pk Hpk].
  exists d. unfold tick.
  change (wallet (incr_cycleCount e)) with (wallet e).
  rewrite Hbal, (proj2 (Qltb_false _ _) Hfloor), Hpk.
  match goal with
  | |- context [_llmDecide cap JSON_parse ?e1 world ?snap] =>
      destruct (failed_llmDecide cap JSON_parse e1 world snap Hfail)
        as (e' & -> & Hid & Hcyc & Hst & _)
  end.
  cbn [balanceSOL]. rewrite Hfb.
  pose proof (validate_keeps_reason cap d balance) as Hreason.
  destruct (_validateDecision cap d balance) as [nextState d'].
  cbn in Hreason |- *. rewrite Hid, Hcyc, Hst, Hreason.
  eexists. split; [reflexivity|]. split; [exact Hact|].
  split; [apply executeState_never_raises|reflexivity].
Qed.

Lemma failed_inference_falls_back_tagged_llm_witness :
  exists d rest,
    _fallbackDecisionObject default_cap (incr_cycleCount demo_engine)
      (cycle_world timeout 0) (toFixed6 (1000000000 # 1000000000))
    = inr d
    /\ action d = _decide (incr_cycleCount demo_engine)
                          (toFixed6 (1000000000 # 1000000000))
    /\ raised (tick default_cap parse_fails demo_engine (cycle_world timeout 0))
       = None
    /\ events (tick default_cap parse_fails demo_engine (cycle_world timeout 0))
       = decision_event "alice" 1 (1000000000 # 1000000000) "IDLE"
           (_validateDecision default_cap d (1000000000 # 1000000000)).1
           (Some "llm"%string) (Some (reason d))
         :: rest.
Proof.
  apply (failed_inference_falls_back_tagged_llm default_cap parse_fails
           demo_engine (cycle_world timeout 0) (1000000000 # 1000000000)).
  - reflexivity.
  - vm_compute; discriminate.
  - right. reflexivity.
  - split; vm_compute; [discriminate|reflexivity].
Defined.

(** C7 fails as stated: the inference request times out, the cycle runs on
    the rule-based fallback (a TRADE with the fallback's reason), and the
    decision event is emitted with source "llm", not "rule". *)
Lemma timed_out_cycle_is_tagged_llm :
  let r := tick default_cap parse_fails demo_engine (cycle_world timeout 0) in
  raised r = None
  /\ _llmFailCount (engine r) = 1%Z
  /\ head (events r)
     = Some (decision_event "alice" 1 (1000000000 # 1000000000) "IDLE" "TRADE"
               (Some "llm"%string) (Some "Rule-based trade opportunity"%string))
  /\ (forall a c b p n rsn,
        decision_event a c b p n (Some "rule"%string) rsn ∉ events r).
Proof.
  cbv zeta. split; [vm_compute; reflexivity|].
  split; [vm_compute; reflexivity|].
  split; [vm_compute; reflexivity|].
  intros a c b p n rsn Hin. vm_compute in Hin.
  repeat (apply elem_of_cons in Hin as [Heq|Hin]; [discriminate Heq|]).
  inversion Hin.
Qed.

(** C8, as the code has it.  For a TRADE decision whose target names no
    known peer, the validator does not look at the target: the state it
    answers and the amount it retains are the same whatever the target
    is, and the target is kept.  [_doLLMTrade] then settles on a peer
    picked at random among the known peers (for a draw in [0, 1)) and goes
    on exactly as for a decision that resolves to that peer: every trade
    it hands to the protocol goes to that peer.  With no peers at all it
    returns without doing anything. *)
Theorem unknown_target_trades_with_random_peer cap e world d b :
  action d = TRADE ->
  (forall p, p ∈ peers e -> Some (Wallet.agentId p) <> tradeTarget d) ->
  0 <= random_trade_peer world < 1 ->
  let v := _validateDecision cap d b in
  (forall t,
      let dt := {| action := action d; reason := reason d;
                   tradeTarget := t; tradeAmount := tradeAmount d |} in
      (_validateDecision cap dt b).1 = v.1
      /\ tradeAmount (_validateDecision cap dt b).2 = tradeAmount v.2)
  /\ tradeTarget v.2 = tradeTarget d
  /\ (peers e = [] -> _doLLMTrade cap e world b v.2 = no_op e)
  /\ (peers e <> [] ->
      exists p,
        p ∈ peers e
        /\ random_element (random_trade_peer world) (peers e) = Some p
        /\ resolve_target e world v.2 = Some p
        /\ (forall entry,
              entry ∈ trades (_doLLMTrade cap e world b v.2) ->
              entry.1 = Wallet.agentId p)
        /\ (forall d2,
              reason d2 = reason v.2 ->
              tradeAmount d2 = tradeAmount v.2 ->
              resolve_target e world d2 = Some p ->
              _doLLMTrade cap e world b d2 = _doLLMTrade cap e world b v.2)).
Proof.
  intros Ha Hunk Hr v.
  assert (Htgt : tradeTarget v.2 = tradeTarget d).
  { unfold v, _validateDecision. repeat case_match; reflexivity. }
  assert (Hunk' : forall p, p ∈ peers e ->
                            Some (Wallet.agentId p) <> tradeTarget v.2)
    by (rewrite Htgt; exact Hunk).
  pose proof (resolve_target_unknown e world v.2 Hunk') as Hres.
  split.
  { intros t. cbv zeta. unfold v, _validateDecision. cbn [action tradeAmount].
    repeat case_match; split; reflexivity. }
  split; [exact Htgt|]. split.
  - intros Hnil. unfold _doLLMTrade. rewrite Hres, Hnil. reflexivity.
  - intros Hne.
    destruct (random_element_in (random_trade_peer world) (peers e) Hr Hne)
      as (p & Hp & Hin).
    exists p. split; [exact Hin|]. split; [exact Hp|].
    assert (Hsome : resolve_target e world v.2 = Some p).
    { rewrite Hres, bool_decide_eq_true_2; [exact Hp|].
      destruct (peers e); [contradiction|cbn; lia]. }
    split; [exact Hsome|]. split.
    + intros entry Hentry.
      apply _doLLMTrade_trades in Hentry as (_ & q & Hq & ->).
      rewrite Hsome in Hq. now injection Hq as <-.
    + intros d2 Hreason Hamt Hd2. unfold _doLLMTrade, trade_amount.
      now rewrite Hd2, Hsome, Hreason, Hamt.
Qed.

Lemma unknown_target_trades_with_random_peer_witness :
  let d := trade_decision "mallory" (5 # 1000) in
  let w := cycle_world timeout 0 in
  let v := _validateDecision default_cap d 1 in
  (forall t,
      let dt := {| action := action d; reason := reason d;
                   tradeTarget := t; tradeAmount := tradeAmount d |} in
      (_validateDecision default_cap dt 1).1 = v.1
      /\ tradeAmount (_validateDecision default_cap dt 1).2 = tradeAmount v.2)
  /\ tradeTarget v.2 = tradeTarget d
  /\ (peers demo_engine = [] ->
      _doLLMTrade default_cap demo_engine w 1 v.2 = no_op demo_engine)
  /\ (peers demo_engine <> [] ->
      exists p,
        p ∈ peers demo_engine
        /\ random_element (random_trade_peer w) (peers demo_engine) = Some p
        /\ resolve_target demo_engine w v.2 = Some p
        /\ (forall entry,
              entry ∈ trades (_doLLMTrade default_cap demo_engine w 1 v.2) ->
              entry.1 = Wallet.agentId p)
        /\ (forall d2,
              reason d2 = reason v.2 ->
              tradeAmount d2 = tradeAmount v.2 ->
              resolve_target demo_engine w d2 = Some p ->
              _doLLMTrade default_cap demo_engine w 1 d2
              = _doLLMTrade default_cap demo_engine w 1 v.2)).
Proof.
  apply (unknown_target_trades_with_random_peer default_cap demo_engine
           (cycle_world timeout 0) (trade_decision "mallory" (5 # 1000)) 1).
  - reflexivity.
  - intros p Hp. apply list_elem_of_singleton in Hp as ->. discriminate.
  - split; vm_compute; [discriminate|reflexivity].
Defined.

(** C8 fails as stated: bob is the only known peer and the decision names
    "mallory"; the validator answers TRADE and the cycle sends 0.005 SOL to
    bob. *)
Lemma unknown_target_is_not_replaced_by_IDLE :
  let d := trade_decision "mallory" (5 # 1000) in
  let w := cycle_world timeout 0 in
  (forall p, p ∈ peers demo_engine -> Some (Wallet.agentId p) <> tradeTarget d)
  /\ _validateDecision default_cap d 1 = (TRADE, d)
  /\ trades (_executeStateWithLLMContext default_cap
                (set_state demo_engine (_validateDecision default_cap d 1).1)
                w 1 (_validateDecision default_cap d 1).2)
     = [("bob"%string, 5000 # 1000000)]
  /\ trades (tick default_cap (parse_trade "mallory" "0.005" (5 # 1000))
                demo_engine (cycle_world (answer "mallory" "0.005") 0))
     = [("bob"%string, 5000 # 1000000)].
Proof.
  cbv zeta. split.
  - intros p Hp. apply list_elem_of_singleton in Hp as ->. discriminate.
  - repeat split; vm_compute; reflexivity.
Qed.

End EngineFacts.

(* ===================================================================== *)
(** ** More facts about the multi-signature lifecycle *)
(* ===================================================================== *)

Module MultiSigMore.
Import Wallet MultiSig MultiSigInv.

Local Open Scope Z_scope.

(** *** The shape of each operation's result *)

Lemma create_shape nacl_sign PublicKey_valid m world pw to amt d req cos :
  let r := createTransferProposal nacl_sign PublicKey_valid m world pw to amt d
                                  req cos in
  (exists e, r = {| value := inl e; mgr := m; broadcast := [] |})
  \/ (exists kp signed,
        _keypair pw = Some kp
        /\ PublicKey_valid to = true
        /\ transfer_encodes world (Math_round (amt * LAMPORTS_PER_SOL)%Q) = true
        /\ r = {| value := inr
                    {| proposalId := "msig-" +:+ nanoid8 world;
                       proposerAgentId := Wallet.agentId pw;
                       description := d;
                       transaction := signed;
                       requiredSigners := req;
                       authorizedSigners :=
                         Wallet.agentId pw :: map Wallet.agentId cos;
                       signatures :=
                         {[ Wallet.agentId pw := signature_or_zero signed ]};
                       status := PENDING;
                       createdAt := Date_now world;
                       executedAt := None;
                       executionSignature := None |};
                  mgr := store m ("msig-" +:+ nanoid8 world)
                    {| proposalId := "msig-" +:+ nanoid8 world;
                       proposerAgentId := Wallet.agentId pw;
                       description := d;
                       transaction := signed;
                       requiredSigners := req;
                       authorizedSigners :=
                         Wallet.agentId pw :: map Wallet.agentId cos;
                       signatures :=
                         {[ Wallet.agentId pw := signature_or_zero signed ]};
                       status := PENDING;
                       createdAt := Date_now world;
                       executedAt := None;
                       executionSignature := None |};
                  broadcast := [] |}
        /\ feePayer signed = publicKey kp
        /\ fromPubkey signed = publicKey kp
        /\ toPubkey signed = to
        /\ lamports signed = Math_round (amt * LAMPORTS_PER_SOL)%Q
        /\ Wallet.signature signed <> None).
Proof.
  cbv zeta. unfold createTransferProposal, signOnly, _getKeypair.
  destruct (getLatestBlockhash world) as [e|bh]; [left; eauto|].
  destruct (_keypair pw) as [kp|]; [|left; eauto].
  destruct (PublicKey_valid to) eqn:Hv; cbn [negb]; [|left; eauto].
  destruct (transfer_encodes world _) eqn:Henc; cbn [negb]; [|left; eauto].
  right. eexists kp, _. split; [reflexivity|]. split; [reflexivity|].
  split; [reflexivity|].
  split; [reflexivity|]. cbn. repeat split; discriminate.
Qed.

Lemma coSign_shape nacl_sign m id w :
  let r := coSign nacl_sign m id w in
  broadcast r = []
  /\ ((exists e, value r = inl e /\ mgr r = m)
      \/ (exists p, _proposals m !! id = Some p /\ status p = PENDING
                    /\ Wallet.agentId w ∈ authorizedSigners p
                    /\ is_Some (signatures p !! Wallet.agentId w)
                    /\ value r = inr (p, isApproved p) /\ mgr r = m)
      \/ (exists p signed,
            _proposals m !! id = Some p /\ status p = PENDING
            /\ Wallet.agentId w ∈ authorizedSigners p
            /\ signatures p !! Wallet.agentId w = None
            /\ signOnly nacl_sign w (transaction p) = inr signed
            /\ value r = inr (signed_by p w signed,
                              isApproved (signed_by p w signed))
            /\ mgr r = store m id (signed_by p w signed))).
Proof.
  cbv zeta. unfold coSign.
  destruct (_proposals m !! id) as [p|] eqn:Hp; [|cbn; eauto].
  destruct (decide (status p = PENDING)) as [Hst|Hst].
  2:{ rewrite (bool_decide_eq_false_2 _ Hst). cbn. eauto. }
  rewrite (bool_decide_eq_true_2 _ Hst). cbn [negb].
  destruct (decide (Wallet.agentId w ∈ authorizedSigners p)) as [Ha|Ha].
  2:{ rewrite (bool_decide_eq_false_2 _ Ha). cbn. eauto. }
  rewrite (bool_decide_eq_true_2 _ Ha). cbn [negb].
  destruct (signatures p !! Wallet.agentId w) as [s0|] eqn:Hs.
  - rewrite bool_decide_eq_true_2 by eauto. cbn.
    split; [reflexivity|]. right. left. exists p. rewrite Hs. eauto 10.
  - rewrite bool_decide_eq_false_2 by (intros [? ?]; discriminate).
    destruct (signOnly nacl_sign w (transaction p)) as [e|signed] eqn:Hsign.
    + cbn. eauto.
    + cbn. split; [reflexivity|]. right. right. exists p, signed.
      repeat split; auto.
Qed.

Lemma execute_shape m world id w :
  let r := execute m world id w in
  (exists e, value r = inl e /\ mgr r = m /\ broadcast r = [])
  \/ (exists p kp,
        _proposals m !! id = Some p /\ isApproved p = true
        /\ status p <> EXECUTED
        /\ _keypair w = Some kp
        /\ broadcast r = [transaction p]
        /\ let sent := sendAndConfirmTransaction world (transaction p) kp in
           let p1 := set_transaction p (after_send (transaction p) sent) in
           (exists e, answer sent = inl e
                      /\ value r = inl e /\ mgr r = store m id p1)
           \/ (exists sig,
                 answer sent = inr sig
                 /\ value r = inr sig
                 /\ mgr r = store m id (set_executed p1 (Date_now world) sig))).
Proof.
  cbv zeta.
  destruct (_proposals m !! id) as [p|] eqn:Hp;
    [|left; unfold execute; rewrite Hp; cbn; eauto].
  destruct (isApproved p) eqn:Happ;
    [|left; unfold execute; rewrite Hp, Happ; cbn; eauto].
  destruct (decide (status p = EXECUTED)) as [Hst|Hst].
  { left. unfold execute. rewrite Hp, Happ. cbn [negb].
    rewrite (bool_decide_eq_true_2 _ Hst). cbn. eauto. }
  destruct (_keypair w) as [kp|] eqn:Hkp.
  2:{ left. rewrite (MultiSigFacts.execute_not_loaded m world id w p Hp Happ
                       Hst Hkp). cbn. eauto. }
  right. exists p, kp. do 4 (split; [auto|]).
  destruct (answer (sendAndConfirmTransaction world (transaction p) kp))
    as [e|sig] eqn:Hs.
  - rewrite (MultiSigFacts.execute_refused m world id w p kp e Hp Happ Hst Hkp
               Hs). cbn. split; [reflexivity|]. left. eauto.
  - rewrite (MultiSigFacts.execute_ready m world id w p kp sig Hp Happ Hst Hkp
               Hs). cbn. split; [reflexivity|]. right. eauto.
Qed.

(** *** Well-formedness is kept by every operation *)

Lemma store_well_formed m id p :
  all_well_formed m -> well_formed id p -> all_well_formed (store m id p).
Proof.
  intros Hall Hp id' p' Hl. unfold store in Hl. cbn in Hl.
  destruct (decide (id = id')) as [<-|Hne].
  - rewrite lookup_insert_eq in Hl. now injection Hl as <-.
  - rewrite lookup_insert_ne in Hl by exact Hne. now apply Hall.
Qed.

Lemma well_formed_signed_by id p w signed :
  well_formed id p ->
  status p = PENDING ->
  Wallet.agentId w ∈ authorizedSigners p ->
  signatures p !! Wallet.agentId w = None ->
  well_formed id (signed_by p w signed).
Proof.
  intros Hwf Hst Hauth Hnone. unfold signed_by.
  set (p1 := set_signature (set_transaction p signed) (Wallet.agentId w)
                           (signature_or_zero signed)).
  assert (Hsig1 : forall who, is_Some (signatures p1 !! who) ->
                              who ∈ authorizedSigners p).
  { intros who Hs. cbn in Hs. apply lookup_insert_is_Some in Hs.
    destruct Hs as [<-|[_ Hs]]; [exact Hauth|]. now apply (wf_signers _ _ Hwf). }
  assert (Hprop1 : is_Some (signatures p1 !! proposerAgentId p)).
  { cbn. apply lookup_insert_is_Some'. right. apply (wf_proposer _ _ Hwf). }
  assert (Hne : status p <> EXECUTED) by (rewrite Hst; discriminate).
  destruct (wf_not_executed _ _ Hwf Hne) as [Hat Hsg].
  destruct (isApproved p1) eqn:Happ.
  - constructor; cbn; auto; try discriminate. apply (wf_id _ _ Hwf).
  - constructor; cbn; auto; try (rewrite Hst; discriminate).
    + apply (wf_id _ _ Hwf).
    + intros _ Happ'. unfold isApproved in Happ, Happ'. cbn in Happ, Happ'.
      congruence.
Qed.

Lemma well_formed_set_transaction id p tx :
  well_formed id p -> well_formed id (set_transaction p tx).
Proof. intros []. constructor; assumption. Qed.

Lemma well_formed_set_executed id p now sig :
  well_formed id p -> isApproved p = true ->
  well_formed id (set_executed p now sig).
Proof.
  intros Hwf Happ. constructor; cbn; try discriminate; eauto.
  - apply (wf_id _ _ Hwf).
  - apply (wf_signers _ _ Hwf).
  - apply (wf_proposer _ _ Hwf).
  - intros H; contradiction.
Qed.

Lemma apply_op_well_formed nacl_sign PublicKey_valid m world op :
  all_well_formed m ->
  all_well_formed (apply_op nacl_sign PublicKey_valid m world op).1.
Proof.
  intros Hall. destruct op as [pw to amt d req cos|id w|id w]; cbn.
  - destruct (create_shape nacl_sign PublicKey_valid m world pw to amt d req cos)
      as [[e ->]|(kp & signed & _ & _ & _ & -> & _)]; cbn; [exact Hall|].
    apply store_well_formed; [exact Hall|].
    constructor; cbn; try discriminate; auto.
    + intros who Hs. apply lookup_singleton_is_Some in Hs as <-. left.
    + rewrite lookup_singleton_eq. eauto.
    + intros _ _. unfold signatureCount. cbn.
      now rewrite map_size_singleton.
  - destruct (coSign_shape nacl_sign m id w) as (_ & Hc).
    destruct Hc as [(e & _ & ->)|[(p & _ & _ & _ & _ & _ & ->)
                    |(p & signed & Hp & Hst & Ha & Hn & _ & _ & ->)]];
      try exact Hall.
    apply store_well_formed; [exact Hall|].
    apply well_formed_signed_by; auto.
  - destruct (execute_shape m world id w)
      as [(e & _ & -> & _)|(p & kp & Hp & Happ & _ & _ & _ & Hs)];
      [exact Hall|].
    cbv zeta in Hs.
    destruct Hs as [(e & _ & _ & ->)|(sig & _ & _ & ->)];
      (apply store_well_formed; [exact Hall|]).
    + apply well_formed_set_transaction; auto.
    + apply well_formed_set_executed;
        [apply well_formed_set_transaction; auto|exact Happ].
Qed.

Lemma run_well_formed nacl_sign PublicKey_valid calls : forall m,
  all_well_formed m ->
  all_well_formed (run nacl_sign PublicKey_valid m calls).1.
Proof.
  induction calls as [|[world op] rest IH]; intros m Hall; [exact Hall|].
  cbn [run].
  pose proof (apply_op_well_formed nacl_sign PublicKey_valid m world op Hall)
    as H1.
  destruct (apply_op nacl_sign PublicKey_valid m world op) as [m1 sent1].
  specialize (IH m1 H1).
  destruct (run nacl_sign PublicKey_valid m1 rest) as [m2 sent2]. exact IH.
Qed.

Lemma empty_manager_well_formed : all_well_formed empty_manager.
Proof. intros id p Hl. cbn in Hl. rewrite lookup_empty in Hl. discriminate. Qed.

Lemma signatureCount_bounds id p :
  well_formed id p ->
  1 <= signatureCount p <= Z.of_nat (List.length (authorizedSigners p)).
Proof.
  intros Hwf. unfold signatureCount. split.
  - destruct (wf_proposer _ _ Hwf) as [s Hs].
    pose proof (map_size_ne_0_lookup_2 (signatures p) _ (mk_is_Some _ _ Hs)).
    lia.
  - rewrite <- (size_dom (D := gset string)).
    unfold size at 1, set_size. cbn.
    apply Nat2Z.inj_le, submseteq_length, NoDup_submseteq.
    + apply NoDup_elements.
    + intros who Hin. apply elem_of_elements, elem_of_dom in Hin.
      now apply (wf_signers _ _ Hwf).
Qed.

(** *** Proposals only move forward *)

Lemma later_stage_refl p : later_stage p p.
Proof. constructor; reflexivity. Qed.

Lemma later_stage_trans p1 p2 p3 :
  later_stage p1 p2 -> later_stage p2 p3 -> later_stage p1 p3.
Proof.
  intros [] []. constructor; try congruence.
  - etransitivity; eassumption.
  - lia.
Qed.

Lemma signOnly_keeps_payment nacl_sign w tx signed :
  signOnly nacl_sign w tx = inr signed ->
  recentBlockhash signed = recentBlockhash tx
  /\ fromPubkey signed = fromPubkey tx
  /\ toPubkey signed = toPubkey tx
  /\ lamports signed = lamports tx
  /\ exists kp, _keypair w = Some kp /\ feePayer signed = publicKey kp
                /\ Wallet.signature signed <> None.
Proof.
  unfold signOnly, _getKeypair. destruct (_keypair w) as [kp|]; [|discriminate].
  intros [= <-]. cbn. repeat split. exists kp. repeat split. discriminate.
Qed.

Lemma later_stage_signed_by nacl_sign p w signed :
  status p = PENDING ->
  signatures p !! Wallet.agentId w = None ->
  signOnly nacl_sign w (transaction p) = inr signed ->
  later_stage p (signed_by p w signed).
Proof.
  intros Hst Hnone Hsign.
  destruct (signOnly_keeps_payment _ _ _ _ Hsign) as (Hb & Hf & Ht & Hl & _).
  unfold signed_by. destruct (isApproved _); constructor; cbn; auto;
    try (now apply insert_subseteq); rewrite Hst; cbn; lia.
Qed.

Lemma later_stage_set_executed p now sig :
  status p <> REJECTED -> later_stage p (set_executed p now sig).
Proof.
  intros Hst. constructor; cbn; auto. destruct (status p); cbn; try lia.
  contradiction.
Qed.

(** What the sending library writes leaves the payment alone. *)
Lemma later_stage_after_send p sent :
  later_stage p (set_transaction p (after_send (transaction p) sent)).
Proof.
  unfold after_send. destruct (rewritten sent) as [[bh sg]|];
    constructor; cbn; auto.
Qed.

Lemma apply_op_later_stage nacl_sign PublicKey_valid m world op id p :
  _proposals m !! id = Some p ->
  status p <> REJECTED ->
  created_id world op <> Some id ->
  exists p',
    _proposals (apply_op nacl_sign PublicKey_valid m world op).1 !! id = Some p'
    /\ later_stage p p' /\ status p' <> REJECTED.
Proof.
  intros Hp Hrej Hfresh.
  assert (Hsame : exists p', _proposals m !! id = Some p'
                             /\ later_stage p p' /\ status p' <> REJECTED)
    by (exists p; split; [exact Hp|split; [apply later_stage_refl|exact Hrej]]).
  destruct op as [pw to amt d req cos|id' w|id' w]; cbn.
  - destruct (create_shape nacl_sign PublicKey_valid m world pw to amt d req cos)
      as [[e ->]|(kp & signed & _ & _ & _ & -> & _)]; cbn; [exact Hsame|].
    cbn in Hfresh. rewrite lookup_insert_ne by congruence. exact Hsame.
  - destruct (coSign_shape nacl_sign m id' w) as (_ & Hc).
    destruct Hc as [(e & _ & ->)|[(q & _ & _ & _ & _ & _ & ->)
                    |(q & signed & Hq & Hst & Ha & Hn & Hsign & _ & ->)]];
      try exact Hsame.
    cbn. destruct (decide (id' = id)) as [->|Hne].
    + rewrite lookup_insert_eq. rewrite Hp in Hq. injection Hq as <-.
      eexists. split; [reflexivity|].
      split; [now apply (later_stage_signed_by nacl_sign)|].
      unfold signed_by. destruct (isApproved _); cbn; [discriminate|exact Hrej].
    + rewrite lookup_insert_ne by exact Hne. exact Hsame.
  - destruct (execute_shape m world id' w)
      as [(e & _ & -> & _)|(q & kp & Hq & Happ & _ & _ & _ & Hs)];
      [exact Hsame|].
    cbv zeta in Hs.
    destruct Hs as [(e & _ & _ & ->)|(sig & _ & _ & ->)];
      cbn; (destruct (decide (id' = id)) as [->|Hne];
            [|rewrite lookup_insert_ne by exact Hne; exact Hsame]);
      rewrite lookup_insert_eq; rewrite Hp in Hq; injection Hq as <-;
      (eexists; split; [reflexivity|]).
    + split; [apply later_stage_after_send|exact Hrej].
    + split; [|cbn; discriminate].
      eapply later_stage_trans; [apply later_stage_after_send|].
      apply later_stage_set_executed. exact Hrej.
Qed.

Lemma run_later_stage nacl_sign PublicKey_valid calls : forall m id p,
  _proposals m !! id = Some p ->
  status p <> REJECTED ->
  id ∉ created_ids calls ->
  exists p',
    _proposals (run nacl_sign PublicKey_valid m calls).1 !! id = Some p'
    /\ later_stage p p' /\ status p' <> REJECTED.
Proof.
  induction calls as [|[world op] rest IH]; intros m id p Hp Hrej Hfresh.
  - exists p. split; [exact Hp|]. split; [apply later_stage_refl|exact Hrej].
  - cbn [run].
    assert (Hc1 : created_id world op <> Some id).
    { intros Heq. apply Hfresh. unfold created_ids. cbn. rewrite Heq. left. }
    assert (Hrest : id ∉ created_ids rest).
    { intros Hin. apply Hfresh. unfold created_ids in *. cbn.
      destruct (created_id world op); [right|]; exact Hin. }
    destruct (apply_op_later_stage nacl_sign PublicKey_valid m world op id p
                Hp Hrej Hc1) as (p1 & Hp1 & Hl1 & Hr1).
    destruct (apply_op nacl_sign PublicKey_valid m world op) as [m1 sent1].
    cbn in Hp1.
    destruct (IH m1 id p1 Hp1 Hr1 Hrest) as (p2 & Hp2 & Hl2 & Hr2).
    destruct (run nacl_sign PublicKey_valid m1 rest) as [m2 sent2].
    cbn in *. exists p2. split; [exact Hp2|].
    split; [exact (later_stage_trans _ _ _ Hl1 Hl2)|exact Hr2].
Qed.

(** *** Properties of the registry *)

(** X1.  Whatever requests a fresh manager has served, every proposal it
    stores is well formed: it sits under its own id, only authorized
    signers have signed, the proposer is among them, the status is never
    REJECTED, APPROVED and EXECUTED imply that the threshold is met,
    execution data is present exactly on EXECUTED proposals, a PENDING
    proposal whose threshold is met carries the proposer's signature only,
    and the number of signatures lies between 1 and the number of
    authorized signers. *)
Theorem stored_proposals_are_well_formed nacl_sign PublicKey_valid calls id p :
  _proposals (run nacl_sign PublicKey_valid empty_manager calls).1 !! id
  = Some p ->
  well_formed id p
  /\ 1 <= signatureCount p <= Z.of_nat (List.length (authorizedSigners p)).
Proof.
  intros Hl.
  assert (Hwf : well_formed id p).
  { apply (run_well_formed nacl_sign PublicKey_valid calls empty_manager
             empty_manager_well_formed id p Hl). }
  split; [exact Hwf|]. now apply (signatureCount_bounds id).
Qed.

Lemma stored_proposals_are_well_formed_witness :
  let m := (run demo_sign demo_valid empty_manager
              (session_start ++ session_end)%list).1 in
  well_formed demo_id (held m)
  /\ 1 <= signatureCount (held m)
     <= Z.of_nat (List.length (authorizedSigners (held m))).
Proof.
  apply (stored_proposals_are_well_formed demo_sign demo_valid
           (session_start ++ session_end)%list demo_id).
  vm_compute. reflexivity.
Defined.

(** X2.  Proposals only move forward.  A proposal stored by a manager
    stays stored under its id through any later requests that do not
    create under that id again; its proposer, description, threshold,
    authorized signers, creation time and payment (sender, recipient,
    lamports) never change, its signatures are only added to, and its
    status never goes back.  The block hash, the fee payer and the
    signature of its transaction are not part of this: co-signing and
    sending rewrite them. *)
Theorem proposals_only_move_forward
    nacl_sign PublicKey_valid before after id p :
  let m := (run nacl_sign PublicKey_valid empty_manager before).1 in
  _proposals m !! id = Some p ->
  id ∉ created_ids after ->
  exists p',
    _proposals (run nacl_sign PublicKey_valid m after).1 !! id = Some p'
    /\ later_stage p p'.
Proof.
  intros m Hp Hfresh.
  assert (Hwf : well_formed id p).
  { apply (run_well_formed nacl_sign PublicKey_valid before empty_manager
             empty_manager_well_formed id p Hp). }
  destruct (run_later_stage nacl_sign PublicKey_valid after m id p Hp
              (wf_not_rejected _ _ Hwf) Hfresh) as (p' & Hp' & Hl & _).
  eauto.
Qed.

Lemma proposals_only_move_forward_witness :
  let m := (run demo_sign demo_valid empty_manager session_start).1 in
  exists p',
    _proposals (run demo_sign demo_valid m session_end).1 !! demo_id = Some p'
    /\ later_stage (held m) p'.
Proof.
  apply (proposals_only_move_forward demo_sign demo_valid session_start
           session_end demo_id).
  - vm_compute. reflexivity.
  - vm_compute. intros Hin.
    apply list_elem_of_singleton in Hin. discriminate Hin.
Defined.

(** X3.  A first signature by an authorized signer with a loaded wallet on
    a PENDING proposal is recorded: the count grows by exactly one, the
    returned flag is true exactly when the threshold is now met, which is
    exactly when the stored status has become APPROVED; the transaction
    now names the signer as fee payer; proposals under other ids are not
    touched. *)
Theorem coSign_records_first_signature nacl_sign m id w p kp :
  _proposals m !! id = Some p ->
  status p = PENDING ->
  Wallet.agentId w ∈ authorizedSigners p ->
  signatures p !! Wallet.agentId w = None ->
  _keypair w = Some kp ->
  exists p' approved,
    value (coSign nacl_sign m id w) = inr (p', approved)
    /\ _proposals (mgr (coSign nacl_sign m id w)) !! id = Some p'
    /\ is_Some (signatures p' !! Wallet.agentId w)
    /\ signatureCount p' = signatureCount p + 1
    /\ (approved = true <-> requiredSigners p <= signatureCount p + 1)
    /\ (status p' = APPROVED <-> approved = true)
    /\ (status p' = PENDING <-> approved = false)
    /\ feePayer (transaction p') = publicKey kp
    /\ (forall id', id' <> id ->
          _proposals (mgr (coSign nacl_sign m id w)) !! id'
          = _proposals m !! id').
Proof.
  intros Hp Hst Hauth Hnone Hkp.
  assert (Hsign : exists signed,
            signOnly nacl_sign w (transaction p) = inr signed
            /\ feePayer signed = publicKey kp).
  { unfold signOnly, _getKeypair. rewrite Hkp. eexists. split; reflexivity. }
  destruct Hsign as (signed & Hsign & Hfee).
  pose proof (MultiSigFacts.coSign_fresh nacl_sign m id w p signed Hp Hst Hauth
                Hnone Hsign) as Heq.
  cbv zeta in Heq. rewrite Heq. cbn [value mgr].
  exists (signed_by p w signed), (isApproved (signed_by p w signed)).
  split; [reflexivity|].
  split; [cbn; apply lookup_insert_eq|].
  pose proof (MultiSigFacts.signatureCount_set_signature_fresh
                (set_transaction p signed) (Wallet.agentId w)
                (signature_or_zero signed) Hnone) as Hcnt.
  change (signatureCount (set_transaction p signed)) with (signatureCount p)
    in Hcnt.
  unfold signed_by.
  set (p1 := set_signature (set_transaction p signed) (Wallet.agentId w)
                           (signature_or_zero signed)) in *.
  assert (Hs1 : is_Some (signatures p1 !! Wallet.agentId w))
    by (cbn; rewrite lookup_insert_eq; eauto).
  assert (Happ1 : isApproved p1 = true
                  <-> requiredSigners p <= signatureCount p + 1).
  { unfold isApproved. rewrite bool_decide_eq_true, Hcnt. reflexivity. }
  assert (Hother : forall id', id' <> id ->
            _proposals (store m id (if isApproved p1
                                    then set_status p1 APPROVED else p1)) !! id'
            = _proposals m !! id').
  { intros id' Hne. cbn. now rewrite lookup_insert_ne. }
  destruct (isApproved p1) eqn:Happ.
  - change (isApproved (set_status p1 APPROVED)) with (isApproved p1).
    rewrite Happ. cbn [status set_status].
    repeat split; auto; try discriminate.
    now apply Happ1.
  - rewrite Happ. change (status p1) with (status p). rewrite Hst.
    repeat split; auto; try discriminate.
    intros H; apply Happ1 in H; discriminate.
Qed.

Lemma coSign_records_first_signature_witness :
  let m := mgr (created 2) in
  exists p' approved,
    value (coSign demo_sign m demo_id bob) = inr (p', approved)
    /\ _proposals (mgr (coSign demo_sign m demo_id bob)) !! demo_id = Some p'
    /\ is_Some (signatures p' !! Wallet.agentId bob)
    /\ signatureCount p' = signatureCount (held m) + 1
    /\ (approved = true <-> requiredSigners (held m) <= signatureCount (held m) + 1)
    /\ (status p' = APPROVED <-> approved = true)
    /\ (status p' = PENDING <-> approved = false)
    /\ feePayer (transaction p') = "BoB"
    /\ (forall id', id' <> demo_id ->
          _proposals (mgr (coSign demo_sign m demo_id bob)) !! id'
          = _proposals m !! id').
Proof.
  apply (coSign_records_first_signature demo_sign (mgr (created 2)) demo_id bob
           (held (mgr (created 2)))
           {| publicKey := "BoB"; secretKey := [Byte.x0b] |}).
  - vm_compute. reflexivity.
  - vm_compute. reflexivity.
  - vm_compute. right. left.
  - vm_compute. reflexivity.
  - reflexivity.
Defined.

(** X4.  A signer who is not authorized for the proposal stored under an
    id can never change anything through [coSign]: the call throws (unknown
    id, proposal no longer PENDING, or unauthorized signer, tested in that
    order), the manager is untouched and nothing is sent. *)
Theorem outsider_cannot_sign nacl_sign m id w :
  (forall p, _proposals m !! id = Some p ->
             Wallet.agentId w ∉ authorizedSigners p) ->
  mgr (coSign nacl_sign m id w) = m
  /\ broadcast (coSign nacl_sign m id w) = []
  /\ (_proposals m !! id = None
       /\ value (coSign nacl_sign m id w) = inl (ProposalNotFound id)
      \/ (exists p, _proposals m !! id = Some p /\ status p <> PENDING
                    /\ value (coSign nacl_sign m id w)
                       = inl (ProposalNotPending id (Status_name (status p))))
      \/ (exists p, _proposals m !! id = Some p /\ status p = PENDING
                    /\ value (coSign nacl_sign m id w)
                       = inl (NotAuthorizedSigner (Wallet.agentId w) id))).
Proof.
  intros Hout. destruct (_proposals m !! id) as [p|] eqn:Hp.
  - specialize (Hout p eq_refl).
    destruct (decide (status p = PENDING)) as [Hst|Hst].
    + unfold coSign. rewrite Hp, (bool_decide_eq_true_2 _ Hst),
        (bool_decide_eq_false_2 _ Hout). cbn. eauto 10.
    + rewrite (MultiSigFacts.coSign_not_pending nacl_sign m id w p Hp Hst).
      cbn. eauto 10.
  - rewrite (MultiSigFacts.coSign_unknown nacl_sign m id w Hp). cbn. auto.
Qed.

Lemma outsider_cannot_sign_witness :
  let m := mgr (created 2) in
  mgr (coSign demo_sign m demo_id mallory) = m
  /\ broadcast (coSign demo_sign m demo_id mallory) = []
  /\ (_proposals m !! demo_id = None
       /\ value (coSign demo_sign m demo_id mallory)
          = inl (ProposalNotFound demo_id)
      \/ (exists p, _proposals m !! demo_id = Some p /\ status p <> PENDING
                    /\ value (coSign demo_sign m demo_id mallory)
                       = inl (ProposalNotPending demo_id
                                (Status_name (status p))))
      \/ (exists p, _proposals m !! demo_id = Some p /\ status p = PENDING
                    /\ value (coSign demo_sign m demo_id mallory)
                       = inl (NotAuthorizedSigner (Wallet.agentId mallory)
                                demo_id))).
Proof.
  apply (outsider_cannot_sign demo_sign (mgr (created 2)) demo_id mallory).
  intros p Hp. vm_compute in Hp. injection Hp as <-. vm_compute.
  intros Hin.
  repeat (apply elem_of_cons in Hin as [Heq|Hin]; [discriminate Heq|]).
  inversion Hin.
Defined.

(** X5.  [execute] hands a transaction to the network only for a proposal
    that is stored under the id, has at least [requiredSigners] signatures
    and is not EXECUTED, and only when the executor's wallet is loaded;
    what it sends is that proposal's own transaction, once. *)
Theorem broadcast_only_when_threshold_met m world id w tx :
  tx ∈ broadcast (execute m world id w) ->
  exists p,
    _proposals m !! id = Some p
    /\ requiredSigners p <= signatureCount p
    /\ status p <> EXECUTED
    /\ is_Some (_keypair w)
    /\ broadcast (execute m world id w) = [transaction p]
    /\ tx = transaction p.
Proof.
  intros Hin.
  destruct (execute_shape m world id w)
    as [(e & _ & _ & Hb)|(p & kp & Hp & Happ & Hst & Hkp & Hb & _)].
  - rewrite Hb in Hin. inversion Hin.
  - exists p. rewrite Hb in Hin |- *. apply list_elem_of_singleton in Hin.
    unfold isApproved in Happ. apply bool_decide_eq_true_1 in Happ.
    rewrite Hkp. eauto 10.
Qed.

Lemma broadcast_only_when_threshold_met_witness :
  let m := mgr (cosigned_bob 2) in
  exists p,
    _proposals m !! demo_id = Some p
    /\ requiredSigners p <= signatureCount p
    /\ status p <> EXECUTED
    /\ is_Some (_keypair alice)
    /\ broadcast (execute m demo_world demo_id alice) = [transaction p]
    /\ transaction (held m) = transaction p.
Proof.
  apply (broadcast_only_when_threshold_met (mgr (cosigned_bob 2)) demo_world
           demo_id alice (transaction (held (mgr (cosigned_bob 2))))).
  vm_compute. left.
Defined.

(** X6.  When the send is refused, [execute] throws the library's error
    after one attempt and the proposal stays in the registry with its
    status and its signatures; its transaction is now as the library
    rewrote it (a new block hash), the payment unchanged.  The proposal
    can still be executed: a later [execute] whose send of the rewritten
    transaction goes through returns the signature and leaves the
    proposal EXECUTED. *)
Theorem failed_broadcast_can_be_retried m world id w p kp e :
  _proposals m !! id = Some p ->
  requiredSigners p <= signatureCount p ->
  status p <> EXECUTED ->
  _keypair w = Some kp ->
  answer (sendAndConfirmTransaction world (transaction p) kp) = inl e ->
  let p1 := set_transaction p
              (after_send (transaction p)
                 (sendAndConfirmTransaction world (transaction p) kp)) in
  execute m world id w
  = {| value := inl e; mgr := store m id p1; broadcast := [transaction p] |}
  /\ status p1 = status p
  /\ signatures p1 = signatures p
  /\ later_stage p p1
  /\ forall world' w' kp' sig,
       _keypair w' = Some kp' ->
       answer (sendAndConfirmTransaction world' (transaction p1) kp') = inr sig ->
       value (execute (mgr (execute m world id w)) world' id w') = inr sig
       /\ broadcast (execute (mgr (execute m world id w)) world' id w')
          = [transaction p1]
       /\ status <$> getProposal
                       (mgr (execute (mgr (execute m world id w)) world' id w'))
                       id
          = Some EXECUTED.
Proof.
  intros Hp Hcnt Hst Hkp Hsend p1.
  assert (Happ : isApproved p = true)
    by (unfold isApproved; now apply bool_decide_eq_true_2).
  rewrite (MultiSigFacts.execute_refused m world id w p kp e Hp Happ Hst Hkp
             Hsend).
  fold p1. split; [reflexivity|]. split; [reflexivity|].
  split; [reflexivity|]. split; [apply later_stage_after_send|].
  intros world' w' kp' sig Hkp' Hsend'. cbn [mgr].
  assert (Hp1 : _proposals (store m id p1) !! id = Some p1)
    by (cbn; apply lookup_insert_eq).
  rewrite (MultiSigFacts.execute_ready (store m id p1) world' id w' p1 kp' sig
             Hp1 Happ Hst Hkp' Hsend').
  cbn. repeat split. unfold getProposal. cbn.
  now rewrite lookup_insert_eq.
Qed.

Lemma failed_broadcast_can_be_retried_witness :
  let m := mgr (created 1) in
  let kp := {| publicKey := "ALiCE"; secretKey := [Byte.x0a] |} in
  let p1 := set_transaction (held m)
              (after_send (transaction (held m))
                 (sendAndConfirmTransaction offline_world
                    (transaction (held m)) kp)) in
  execute m offline_world demo_id alice
  = {| value := inl (ExternalError "failed to send transaction");
       mgr := store m demo_id p1;
       broadcast := [transaction (held m)] |}
  /\ status p1 = status (held m)
  /\ signatures p1 = signatures (held m)
  /\ later_stage (held m) p1
  /\ recentBlockhash (transaction p1) = "blockhash-3"
  /\ value (execute (mgr (execute m offline_world demo_id alice)) later_world
                    demo_id alice)
     = inr "3Qm9pLxW".
Proof.
  cbv zeta.
  destruct (failed_broadcast_can_be_retried (mgr (created 1)) offline_world
              demo_id alice (held (mgr (created 1)))
              {| publicKey := "ALiCE"; secretKey := [Byte.x0a] |}
              (ExternalError "failed to send transaction"))
    as (Hexec & Hst & Hsig & Hlater & Hretry).
  - vm_compute. reflexivity.
  - vm_compute. discriminate.
  - vm_compute. discriminate.
  - reflexivity.
  - reflexivity.
  - split; [exact Hexec|]. split; [exact Hst|]. split; [exact Hsig|].
    split; [exact Hlater|]. split; [reflexivity|].
    apply (Hretry later_world alice
             {| publicKey := "ALiCE"; secretKey := [Byte.x0a] |} "3Qm9pLxW");
      reflexivity.
Defined.

(** X8.  [createTransferProposal] never sends anything.  It either throws
    and leaves the manager as it was, or registers one proposal under the
    new id without touching any other id; the registered transaction pays
    from the proposer's key, which is also the fee payer, to the requested
    address, a whole number of lamports that web3.js could encode and
    that, for an amount of at most a million SOL, is less than one lamport
    away from the requested amount (the product the source rounds is a
    double, and that of a larger amount can lie further off). *)
Theorem creation_registers_the_requested_payment
    nacl_sign PublicKey_valid m world pw to amt d req cos :
  let r := createTransferProposal nacl_sign PublicKey_valid m world pw to amt d
                                  req cos in
  broadcast r = []
  /\ ((exists e, value r = inl e /\ mgr r = m)
      \/ (exists p kp,
            value r = inr p
            /\ _keypair pw = Some kp
            /\ PublicKey_valid to = true
            /\ transfer_encodes world (lamports (transaction p)) = true
            /\ proposalId p = "msig-" +:+ nanoid8 world
            /\ _proposals (mgr r) !! proposalId p = Some p
            /\ (forall id', id' <> proposalId p ->
                  _proposals (mgr r) !! id' = _proposals m !! id')
            /\ proposerAgentId p = Wallet.agentId pw
            /\ createdAt p = Date_now world
            /\ toPubkey (transaction p) = to
            /\ fromPubkey (transaction p) = publicKey kp
            /\ feePayer (transaction p) = publicKey kp
            /\ ((amt <= 1000000)%Q ->
                (amt * LAMPORTS_PER_SOL - 1
                 < inject_Z (lamports (transaction p))
                 < amt * LAMPORTS_PER_SOL + 1)%Q))).
Proof.
  cbv zeta.
  destruct (create_shape nacl_sign PublicKey_valid m world pw to amt d req cos)
    as [[e ->]|(kp & signed & Hkp & Hv & Henc & -> & Hfee & Hfrom & Hto & Hlam
                & _)];
    cbn [broadcast value mgr].
  - split; [reflexivity|]. left. eauto.
  - split; [reflexivity|]. right. eexists _, kp. split; [reflexivity|].
    cbn. rewrite lookup_insert_eq, Hlam.
    pose proof (MultiSigFacts.Math_round_nearest (amt * LAMPORTS_PER_SOL)%Q)
      as [Hlo Hhi].
    repeat split; auto.
    + intros id' Hne. now rewrite lookup_insert_ne.
    + lra.
    + lra.
Qed.

End MultiSigMore.

(* ===================================================================== *)
(** ** More facts about the decision engines *)
(* ===================================================================== *)

Module EngineMore.
Import Engine EngineObs EngineFacts.

Local Open Scope Q_scope.

(** *** How the action methods end *)

Lemma _doLLMTrade_outcome cap e world b d :
  action_outcome e (_doLLMTrade cap e world b d).
Proof.
  unfold _doLLMTrade.
  destruct (resolve_target e world d) as [p|];
    [|now apply outcome_quiet].
  destruct (Qle_bool _ _); [now apply outcome_quiet|].
  destruct (Wallet.publicKeyObj p) as [err|pk];
    [eapply outcome_throw; cbn; eauto|].
  destruct (executeTrade world pk _) as [err|sig].
  - eapply outcome_throw; cbn; eauto.
  - eapply outcome_trade; reflexivity.
Qed.

Lemma _doYield_outcome e world b : action_outcome e (_doYield e world b).
Proof.
  unfold _doYield. destruct (simulateYield world _) as [err|sig].
  - eapply outcome_throw; cbn; eauto.
  - now apply outcome_quiet.
Qed.

Lemma _doRebal_outcome e world : action_outcome e (_doRebal e world).
Proof.
  unfold _doRebal. destruct (all_balances _ _) as [err|bs].
  - eapply outcome_throw; cbn; eauto.
  - destruct (rebalancePool world _) as [err|[]].
    + eapply outcome_throw; cbn; eauto.
    + now apply outcome_quiet.
Qed.

Lemma selected_action_outcome cap e world b d :
  action_outcome e
    (if bool_decide (state e = TRADE) then _doLLMTrade cap e world b d
     else if bool_decide (state e = YIELD) then _doYield e world b
     else if bool_decide (state e = REBAL) then _doRebal e world
     else no_op e).
Proof.
  repeat case_bool_decide.
  - apply _doLLMTrade_outcome.
  - apply _doYield_outcome.
  - apply _doRebal_outcome.
  - now apply outcome_quiet.
Qed.

(** [_executeStateWithLLMContext] never raises; it ends quietly, with an
    error event and state IDLE, or with one confirmed trade. *)
Lemma executeState_outcome cap e world b d :
  let r := _executeStateWithLLMContext cap e world b d in
  raised r = None
  /\ ((engine r = e /\ trades r = [] /\ traded_amounts (events r) = []
       /\ forallb (fun ev => negb (is_error_event ev)) (events r) = true)
      \/ (exists err,
            engine r = set_state e IDLE
            /\ events r = [error_event (agentId e) (state e) err]
            /\ (List.length (trades r) <= 1)%nat)
      \/ (exists target amount sig src rsn,
            engine r = record_trade e amount
            /\ events r = [action_TRADE (agentId e) amount target sig src rsn]
            /\ trades r = [(target, amount)])).
Proof.
  cbv zeta. unfold _executeStateWithLLMContext.
  pose proof (selected_action_outcome cap e world b d) as Hout.
  set (r0 := if bool_decide (state e = TRADE) then _ else _) in *.
  destruct Hout as [Hr He Ht Hv Hne|err Hr He Hev Ht|t a sig src rsn Hr He Hev Ht];
    rewrite Hr.
  - split; [exact Hr|]. left. auto.
  - cbn. split; [reflexivity|]. right. left. exists err.
    rewrite He, Hev. auto.
  - split; [exact Hr|]. right. right. exists t, a, sig, src, rsn. auto.
Qed.

(** *** What [_llmDecide] does to the engine *)

Lemma _llmDecide_engine cap JSON_parse e world snapshot :
  let e' := (_llmDecide cap JSON_parse e world snapshot).2 in
  same_agent e e'
  /\ state e' = state e /\ cycleCount e' = cycleCount e
  /\ tradeCount e' = tradeCount e /\ totalVolume e' = totalVolume e
  /\ _lastLLMDecision e' = _lastLLMDecision e
  /\ ((no_apiKey e = true
       /\ _llmCallCount e' = _llmCallCount e
       /\ _llmFailCount e' = _llmFailCount e)
      \/ (no_apiKey e = false
          /\ is_Some (llm_answer JSON_parse world)
          /\ _llmCallCount e' = (_llmCallCount e + 1)%Z
          /\ _llmFailCount e' = _llmFailCount e)
      \/ (no_apiKey e = false
          /\ llm_answer JSON_parse world = None
          /\ _llmCallCount e' = (_llmCallCount e + 1)%Z
          /\ _llmFailCount e' = (_llmFailCount e + 1)%Z)).
Proof.
  cbv zeta. rewrite _llmDecide_eq.
  destruct (no_apiKey e) eqn:Hk.
  - cbn. split; [constructor; reflexivity|]. do 5 (split; [reflexivity|]).
    left. auto.
  - destruct (llm_answer JSON_parse world) as [d|] eqn:Ha; cbn;
      (split; [constructor; reflexivity|]); do 5 (split; [reflexivity|]).
    + right. left. eauto.
    + right. right. auto.
Qed.

(** *** The four ways a cycle can go *)

Lemma tick_shape cap JSON_parse e world :
  let e1 := incr_cycleCount e in
  let r := tick cap JSON_parse e world in
  (exists err,
      getSOLBalance (conn_getBalance world) (wallet e) = inl err
      /\ r = throws e1 err)
  \/ (exists b,
        getSOLBalance (conn_getBalance world) (wallet e) = inr b
        /\ b < 3 # 1000
        /\ r = {| raised := None; engine := set_state e1 IDLE;
                  events := [decision_event (agentId e) (cycleCount e + 1) b
                               IDLE IDLE (Some "safety-gate"%string) None];
                  trades := [] |})
  \/ (exists b snapshot err e2,
        getSOLBalance (conn_getBalance world) (wallet e) = inr b
        /\ 3 # 1000 <= b
        /\ balanceSOL snapshot = toFixed6 b
        /\ _llmDecide cap JSON_parse e1 world snapshot = (inl err, e2)
        /\ r = throws e2 err)
  \/ (exists b snapshot d e2,
        getSOLBalance (conn_getBalance world) (wallet e) = inr b
        /\ 3 # 1000 <= b
        /\ balanceSOL snapshot = toFixed6 b
        /\ _llmDecide cap JSON_parse e1 world snapshot = (inr d, e2)
        /\ let v := _validateDecision cap d b in
           let e3 := set_state (set_lastLLMDecision e2 v.2) v.1 in
           let rx := _executeStateWithLLMContext cap e3 world b v.2 in
           r = {| raised := raised rx; engine := engine rx;
                  events := decision_event (agentId e2) (cycleCount e2) b
                              (state e2) v.1 (Some "llm"%string)
                              (Some (reason v.2))
                            :: events rx;
                  trades := trades rx |}).
Proof.
  cbv zeta. unfold tick.
  change (wallet (incr_cycleCount e)) with (wallet e).
  destruct (getSOLBalance (conn_getBalance world) (wallet e)) as [err|b] eqn:Hb;
    [left; eauto|].
  right. destruct (Qltb b (3 # 1000)) eqn:Hgate.
  { left. exists b. apply Qltb_true in Hgate. auto. }
  right. apply Qltb_false in Hgate.
  destruct (getSOLBalance_loaded _ _ _ Hb) as [pk Hpk]. rewrite Hpk.
  match goal with
  | |- context [_llmDecide cap JSON_parse ?e1 world ?snap] =>
      destruct (_llmDecide cap JSON_parse e1 world snap) as [[err|d] e2] eqn:Hd;
        [left; exists b, snap, err, e2; auto
        |right; exists b, snap, d, e2]
  end.
  repeat split; auto.
  destruct (_validateDecision cap d b) as [ns d']. reflexivity.
Qed.

Ltac tick_cases cap JSON_parse e world :=
  let H := fresh "Hshape" in
  pose proof (tick_shape cap JSON_parse e world) as H; cbv zeta in H;
  destruct H as [(err & Hb & Heq)
                |[(b & Hb & Hlow & Heq)
                 |[(b & snap & err & e2 & Hb & Hfloor & Hsnap & Hd & Heq)
                  |(b & snap & d & e2 & Hb & Hfloor & Hsnap & Hd & Heq)]]];
  rewrite Heq; clear Heq.

Ltac decide_facts cap JSON_parse world :=
  match goal with
  | Hd : _llmDecide cap JSON_parse ?e1 world ?snap = (_, ?e2) |- _ =>
      let H := fresh "Hdec" in
      pose proof (_llmDecide_engine cap JSON_parse e1 world snap) as H;
      cbv zeta in H; rewrite Hd in H; cbn [fst snd] in H;
      destruct H as ([Hid Hwal Hpeers Hkey] & Hstate & Hcyc & Htc & Htv
                     & Hlast & Hcount)
  end.

Ltac exec_facts cap world :=
  match goal with
  | |- context [_executeStateWithLLMContext cap ?e3 world ?b ?d'] =>
      let H := fresh "Hexec" in
      pose proof (executeState_outcome cap e3 world b d') as H;
      cbv zeta in H;
      destruct H as (Hraised & [(Heng & Htr & Hamt & Hnoerr)
                               |[(xerr & Heng & Hev & Htr)
                                |(tgt & amt & sig & src & rsn & Heng & Hev
                                  & Htr)]]);
      rewrite ?Hraised, ?Heng, ?Hev, ?Htr
  end.

Lemma validate_state_valid cap d b :
  (_validateDecision cap d b).1 ∈ AgentState_values.
Proof.
  unfold _validateDecision.
  destruct (bool_decide (action d ∈ AgentState_values)) eqn:Hv; cbn [negb].
  - apply bool_decide_eq_true_1 in Hv. repeat case_match; cbn; auto; left.
  - left.
Qed.

(** *** Properties of a cycle *)

(** X9.  The low-balance gate.  When the balance read at the start of a
    cycle is under 0.003 SOL, the cycle makes no inference call and no
    call to the protocol, sets the state to IDLE and emits exactly one
    event: a decision tagged "safety-gate" whose previous and next state
    are both IDLE, whatever the state was before; the inference counters
    and the last decision are untouched. *)
Theorem low_balance_gate cap JSON_parse e world balance :
  getSOLBalance (conn_getBalance world) (wallet e) = inr balance ->
  balance < 3 # 1000 ->
  let r := tick cap JSON_parse e world in
  raised r = None
  /\ trades r = []
  /\ events r = [decision_event (agentId e) (cycleCount e + 1) balance IDLE
                   IDLE (Some "safety-gate"%string) None]
  /\ state (engine r) = IDLE
  /\ _llmCallCount (engine r) = _llmCallCount e
  /\ _llmFailCount (engine r) = _llmFailCount e
  /\ _lastLLMDecision (engine r) = _lastLLMDecision e
  /\ tradeCount (engine r) = tradeCount e.
Proof.
  intros Hbal Hlt. cbv zeta.
  tick_cases cap JSON_parse e world; rewrite Hbal in Hb;
    [discriminate| | |]; injection Hb as <-; try (exfalso; lra).
  cbn. repeat split; reflexivity.
Qed.

(** X10.  Every cycle, however it ends (also when it raises), advances the
    cycle counter by exactly one and leaves the agent id, the wallet, the
    peer list and the API key as they were. *)
Theorem tick_advances_cycle_counter cap JSON_parse e world :
  cycleCount (engine (tick cap JSON_parse e world)) = (cycleCount e + 1)%Z
  /\ same_agent e (engine (tick cap JSON_parse e world)).
Proof.
  tick_cases cap JSON_parse e world.
  - cbn. split; [reflexivity|constructor; reflexivity].
  - cbn. split; [reflexivity|constructor; reflexivity].
  - decide_facts cap JSON_parse world. cbn.
    split; [exact Hcyc|constructor; assumption].
  - decide_facts cap JSON_parse world. cbn [engine]. exec_facts cap world; cbn;
      (split; [exact Hcyc|constructor; assumption]).
Qed.

(** X11.  The inference counters.  A cycle raises the call counter by at
    most one and the failure counter by at most as much, so failures never
    outnumber calls; without an API key neither counter moves, although
    the fallback decides. *)
Theorem llm_counters_step cap JSON_parse e world :
  let e' := engine (tick cap JSON_parse e world) in
  (0 <= _llmFailCount e' - _llmFailCount e
   <= _llmCallCount e' - _llmCallCount e)%Z
  /\ (_llmCallCount e' - _llmCallCount e <= 1)%Z
  /\ (no_apiKey e = true ->
      _llmCallCount e' = _llmCallCount e
      /\ _llmFailCount e' = _llmFailCount e).
Proof.
  cbv zeta. tick_cases cap JSON_parse e world.
  - cbn. repeat split; lia.
  - cbn. repeat split; lia.
  - decide_facts cap JSON_parse world. cbn [engine throws].
    change (no_apiKey (incr_cycleCount e)) with (no_apiKey e) in Hcount.
    change (_llmCallCount (incr_cycleCount e)) with (_llmCallCount e) in Hcount.
    change (_llmFailCount (incr_cycleCount e)) with (_llmFailCount e) in Hcount.
    destruct Hcount as [(Hk & -> & ->)|[(Hk & _ & -> & ->)|(Hk & _ & -> & ->)]];
      repeat split; try lia; intros; congruence.
  - decide_facts cap JSON_parse world. cbn [engine].
    change (no_apiKey (incr_cycleCount e)) with (no_apiKey e) in Hcount.
    change (_llmCallCount (incr_cycleCount e)) with (_llmCallCount e) in Hcount.
    change (_llmFailCount (incr_cycleCount e)) with (_llmFailCount e) in Hcount.
    exec_facts cap world; cbn;
      destruct Hcount as [(Hk & -> & ->)|[(Hk & _ & -> & ->)|(Hk & _ & -> & ->)]];
      repeat split; try lia; intros; congruence.
Qed.

(** X12.  Trade accounting.  Over any cycle the trade counter grows by
    the number of TRADE action events emitted and the traded volume by the
    sum of their amounts; a cycle calls the protocol for at most one
    trade, and every TRADE event reports the amount of that call. *)
Theorem trade_accounting cap JSON_parse e world :
  let r := tick cap JSON_parse e world in
  tradeCount (engine r)
  = (tradeCount e + Z.of_nat (List.length (traded_amounts (events r))))%Z
  /\ totalVolume (engine r) == totalVolume e + traded_volume (events r)
  /\ (List.length (traded_amounts (events r)) <= List.length (trades r) <= 1)%nat
  /\ (forall a, a ∈ traded_amounts (events r) -> exists t, (t, a) ∈ trades r).
Proof.
  cbv zeta.
  assert (Hnone : forall (x : Z) (v : Q) (l : list (string * Q)),
            (List.length l <= 1)%nat ->
            x = (x + Z.of_nat (List.length (traded_amounts [])))%Z
            /\ v == v + traded_volume []
            /\ (List.length (traded_amounts []) <= List.length l <= 1)%nat
            /\ (forall a, a ∈ traded_amounts [] -> exists t, (t, a) ∈ l)).
  { intros x v l Hl. cbn. split; [lia|]. split; [ring|]. split; [lia|].
    intros a H; inversion H. }
  tick_cases cap JSON_parse e world.
  - cbn [engine events trades throws]. apply Hnone. cbn; lia.
  - cbn [engine events trades]. apply (Hnone _ _ []). cbn; lia.
  - decide_facts cap JSON_parse world. cbn [engine events trades throws].
    rewrite Htc, Htv. apply Hnone. cbn; lia.
  - decide_facts cap JSON_parse world. cbn [engine events trades].
    change (traded_amounts (decision_event ?a ?c ?b ?p ?n ?s ?rs :: ?l))
      with (traded_amounts l).
    change (traded_volume (decision_event ?a ?c ?b ?p ?n ?s ?rs :: ?l))
      with (traded_volume l).
    exec_facts cap world.
    + unfold traded_volume. rewrite Hamt. cbn. rewrite Htc, Htv. cbn.
      split; [lia|]. split; [ring|]. split; [lia|].
      intros a H; inversion H.
    + cbn. rewrite Htc, Htv. cbn.
      split; [lia|]. split; [ring|]. split; [lia|].
      intros a H; inversion H.
    + cbn. rewrite Htc, Htv. cbn.
      split; [lia|]. split; [ring|]. split; [lia|].
      intros a H. apply list_elem_of_singleton in H as ->.
      exists tgt. left.
Qed.

(** X13.  Failure isolation.  If a cycle emits an error event, the cycle
    did not raise, consists of the decision event followed by that error
    event, which reports the state the decision chose, leaves the engine
    in state IDLE and changes neither the trade counter nor the volume. *)
Theorem error_event_ends_the_cycle cap JSON_parse e world ev :
  ev ∈ events (tick cap JSON_parse e world) ->
  is_error_event ev = true ->
  let r := tick cap JSON_parse e world in
  raised r = None
  /\ state (engine r) = IDLE
  /\ tradeCount (engine r) = tradeCount e
  /\ totalVolume (engine r) = totalVolume e
  /\ exists balance nextState rsn failure,
       ev = error_event (agentId e) nextState failure
       /\ events r = [decision_event (agentId e) (cycleCount e + 1) balance
                        (state e) nextState (Some "llm"%string) rsn;
                      ev].
Proof.
  cbv zeta. tick_cases cap JSON_parse e world; intros Hin Herr.
  - inversion Hin.
  - apply list_elem_of_singleton in Hin as ->. discriminate.
  - inversion Hin.
  - decide_facts cap JSON_parse world. revert Hin. cbn [engine events raised].
    exec_facts cap world; intros Hin.
    + exfalso. apply elem_of_cons in Hin as [->|Hin]; [discriminate|].
      rewrite forallb_forall in Hnoerr.
      apply list_elem_of_In, Hnoerr in Hin. rewrite Herr in Hin. discriminate.
    + apply elem_of_cons in Hin as [->|Hin]; [discriminate|].
      apply list_elem_of_singleton in Hin as ->. cbn.
      rewrite Htc, Htv, Hid, Hcyc, Hstate. cbn.
      repeat split. eauto 10.
    + exfalso. apply elem_of_cons in Hin as [->|Hin]; [discriminate|].
      apply list_elem_of_singleton in Hin as ->. discriminate.
Qed.

(** X16.  After a cycle that did not raise, the engine's state is one of
    the four state names, whatever the inference call answered. *)
Theorem state_stays_in_whitelist cap JSON_parse e world :
  raised (tick cap JSON_parse e world) = None ->
  state (engine (tick cap JSON_parse e world)) ∈ AgentState_values.
Proof.
  tick_cases cap JSON_parse e world; cbn [raised throws engine];
    try discriminate; intros _.
  - left.
  - exec_facts cap world; cbn; try apply validate_state_valid. left.
Qed.

Lemma low_balance_gate_witness :
  let r := tick default_cap parse_fails (set_state demo_engine TRADE)
                poor_world in
  raised r = None
  /\ trades r = []
  /\ events r = [decision_event "alice" 1 (2000000 # 1000000000) IDLE IDLE
                   (Some "safety-gate"%string) None]
  /\ state (engine r) = IDLE
  /\ _llmCallCount (engine r) = 0%Z
  /\ _llmFailCount (engine r) = 0%Z
  /\ _lastLLMDecision (engine r) = None
  /\ tradeCount (engine r) = 0%Z.
Proof.
  apply (low_balance_gate default_cap parse_fails (set_state demo_engine TRADE)
           poor_world (2000000 # 1000000000)).
  - reflexivity.
  - reflexivity.
Defined.

Lemma error_event_ends_the_cycle_witness :
  let r := tick default_cap parse_fails demo_engine
                (failing_trade_world timeout) in
  let ev := error_event "alice" "TRADE"
              (Wallet.ExternalError "Transaction simulation failed") in
  raised r = None
  /\ state (engine r) = IDLE
  /\ tradeCount (engine r) = tradeCount demo_engine
  /\ totalVolume (engine r) = totalVolume demo_engine
  /\ exists balance nextState rsn failure,
       ev = error_event (agentId demo_engine) nextState failure
       /\ events r = [decision_event (agentId demo_engine)
                        (cycleCount demo_engine + 1) balance
                        (state demo_engine) nextState (Some "llm"%string) rsn;
                      ev].
Proof.
  apply (error_event_ends_the_cycle default_cap parse_fails demo_engine
           (failing_trade_world timeout)
           (error_event "alice" "TRADE"
              (Wallet.ExternalError "Transaction simulation failed"))).
  - vm_compute. right. left.
  - reflexivity.
Defined.

Lemma state_stays_in_whitelist_witness :
  state (engine (tick default_cap parse_fails demo_engine
                      (cycle_world timeout 0)))
  ∈ AgentState_values.
Proof.
  apply (state_stays_in_whitelist default_cap parse_fails demo_engine
           (cycle_world timeout 0)).
  vm_compute. reflexivity.
Defined.

(** *** Bounds on what a cycle trades *)

Lemma toFixed6_near x :
  x - (1 # 2000000) <= toFixed6 x /\ toFixed6 x <= x + (1 # 2000000).
Proof.
  unfold toFixed6.
  assert (Hq : forall n : Z, (n # 1000000) == inject_Z n * (1 # 1000000)).
  { intros n. rewrite Qmake_Qdiv. unfold Qdiv.
    change (/ inject_Z (Z.pos 1000000)) with (1 # 1000000). reflexivity. }
  destruct (Qlt_le_dec x 0) as [Hx|Hx].
  - pose proof (Qfloor_le (- x * 1000000 + (1 # 2))) as Hlo.
    pose proof (Qlt_floor (- x * 1000000 + (1 # 2))) as Hhi.
    rewrite inject_Z_plus in Hhi. change (inject_Z 1) with 1 in Hhi.
    rewrite Hq. split; lra.
  - pose proof (Qfloor_le (x * 1000000 + (1 # 2))) as Hlo.
    pose proof (Qlt_floor (x * 1000000 + (1 # 2))) as Hhi.
    rewrite inject_Z_plus in Hhi. change (inject_Z 1) with 1 in Hhi.
    rewrite Hq. split; lra.
Qed.

Lemma Math_min3_le_third a b c : Math_min3 a b c <= c.
Proof. unfold Math_min3. apply Q.le_min_r. Qed.

Lemma random_element_elem {A : Type} (r : Q) (l : list A) x :
  random_element r l = Some x -> x ∈ l.
Proof.
  unfold random_element. case_bool_decide; [|discriminate].
  intros Hl. eapply list_elem_of_lookup_2, Hl.
Qed.

Lemma resolve_target_known e world d p :
  resolve_target e world d = Some p -> p ∈ peers e.
Proof.
  unfold resolve_target.
  destruct (if truthy_string (tradeTarget d) then _ else None) as [q|] eqn:Hf.
  - intros [= <-]. destruct (truthy_string _); [|discriminate].
    apply List.find_some in Hf as [Hin _]. now apply list_elem_of_In.
  - case_bool_decide; [|discriminate]. apply random_element_elem.
Qed.

Lemma _doLLMTrade_trades_above_dust cap e world b d entry :
  entry ∈ trades (_doLLMTrade cap e world b d) ->
  1 # 1000000 < entry.2.
Proof.
  unfold _doLLMTrade.
  destruct (resolve_target e world d) as [p|]; [|intros H; inversion H].
  destruct (Qle_bool _ _) eqn:Hle; [intros H; inversion H|].
  assert (Hgt : 1 # 1000000 < trade_amount cap world b d).
  { apply Qnot_le_lt. intros Hc. apply Qle_bool_iff in Hc. congruence. }
  destruct (Wallet.publicKeyObj p); [intros H; inversion H|].
  destruct (executeTrade world _ _); cbn; intros H;
    apply list_elem_of_singleton in H; subst; exact Hgt.
Qed.

(** Every call of the protocol made by a cycle. *)
Lemma tick_trades_bounded cap JSON_parse e world balance entry :
  getSOLBalance (conn_getBalance world) (wallet e) = inr balance ->
  entry ∈ trades (tick cap JSON_parse e world) ->
  (exists p, p ∈ peers e /\ entry.1 = Wallet.agentId p)
  /\ 1 # 1000000 < entry.2
  /\ entry.2 <= toFixed6 (balance * (1 # 10))
  /\ entry.2 <= balance * (1 # 10) + (1 # 2000000)
  /\ 3 # 1000 <= balance.
Proof.
  intros Hbal. tick_cases cap JSON_parse e world;
    cbn [trades throws]; try (intros H; now inversion H).
  rewrite Hbal in Hb. injection Hb as <-.
  decide_facts cap JSON_parse world. intros Hin.
  apply executeState_trades in Hin.
  pose proof (_doLLMTrade_trades_above_dust _ _ _ _ _ _ Hin) as Hdust.
  apply _doLLMTrade_trades in Hin as (Hamt & p & Hres & Hname).
  apply resolve_target_known in Hres. cbn in Hres. rewrite Hpeers in Hres.
  assert (Hle : entry.2 <= toFixed6 (balance * (1 # 10))).
  { rewrite Hamt. unfold trade_amount.
    apply toFixed6_monotone, Math_min3_le_third. }
  pose proof (toFixed6_near (balance * (1 # 10))) as [_ Hnear].
  split; [eauto|]. split; [exact Hdust|]. split; [exact Hle|].
  split; [lra|exact Hfloor].
Qed.

(** *** The trades a cycle reports *)

Lemma no_traded_no_TRADE evs agent amount target sig src rsn :
  traded_amounts evs = [] ->
  action_TRADE agent amount target sig src rsn ∉ evs.
Proof.
  intros Hnone Hin.
  assert (Ha : amount ∈ traded_amounts evs).
  { unfold traded_amounts. apply list_elem_of_omap.
    eexists. split; [exact Hin|reflexivity]. }
  rewrite Hnone in Ha. inversion Ha.
Qed.

Lemma _doLLMTrade_event cap e world b d agent amount target sig src rsn :
  action_TRADE agent amount target sig src rsn
    ∈ events (_doLLMTrade cap e world b d) ->
  agent = agentId e
  /\ src = Some "llm"%string
  /\ trades (_doLLMTrade cap e world b d) = [(target, amount)].
Proof.
  unfold _doLLMTrade.
  destruct (resolve_target e world d) as [p|]; [|intros Hin; inversion Hin].
  destruct (Qle_bool _ _); [intros Hin; inversion Hin|].
  destruct (Wallet.publicKeyObj p); [intros Hin; inversion Hin|].
  destruct (executeTrade world _ _); cbn; intros Hin;
    [inversion Hin|].
  apply list_elem_of_singleton in Hin. injection Hin as -> -> -> -> -> ->.
  auto.
Qed.

Lemma quiet_actions_report_no_trade e r agent amount target sig src rsn :
  action_outcome e r ->
  trades r = [] ->
  action_TRADE agent amount target sig src rsn ∉ events r.
Proof.
  intros [Hr He Ht Hv Hne|xerr Hr He Hev Ht|t a sg sr rs Hr He Hev Ht] Hnone Hin.
  - eapply no_traded_no_TRADE; eassumption.
  - rewrite Hev in Hin. inversion Hin.
  - rewrite Ht in Hnone. discriminate.
Qed.

Lemma executeState_trade_event cap e world b d agent amount target sig src rsn :
  action_TRADE agent amount target sig src rsn
    ∈ events (_executeStateWithLLMContext cap e world b d) ->
  agent = agentId e
  /\ src = Some "llm"%string
  /\ (target, amount) ∈ trades (_executeStateWithLLMContext cap e world b d).
Proof.
  unfold _executeStateWithLLMContext.
  set (r := if bool_decide (state e = TRADE) then _ else _).
  assert (Hr : action_TRADE agent amount target sig src rsn ∈ events r ->
               agent = agentId e /\ src = Some "llm"%string
               /\ (target, amount) ∈ trades r).
  { subst r. case_bool_decide as Ht.
    - intros Hin. apply _doLLMTrade_event in Hin as (Ha & Hs & ->).
      split; [exact Ha|]. split; [exact Hs|left].
    - intros Hin. exfalso. revert Hin.
      repeat case_bool_decide.
      + apply (quiet_actions_report_no_trade e); [apply _doYield_outcome|].
        unfold _doYield. now destruct (simulateYield world _).
      + apply (quiet_actions_report_no_trade e); [apply _doRebal_outcome|].
        unfold _doRebal. destruct (all_balances _ _); [reflexivity|].
        now destruct (rebalancePool world _) as [?|[]].
      + intros Hin; inversion Hin. }
  destruct (raised r); cbn [events trades]; [|exact Hr].
  intros Hin. apply elem_of_app in Hin as [Hin|Hin]; [now apply Hr|].
  apply list_elem_of_singleton in Hin. discriminate.
Qed.

Lemma tick_trade_event cap JSON_parse e world agent amount target sig src rsn :
  action_TRADE agent amount target sig src rsn
    ∈ events (tick cap JSON_parse e world) ->
  agent = agentId e
  /\ src = Some "llm"%string
  /\ (target, amount) ∈ trades (tick cap JSON_parse e world).
Proof.
  tick_cases cap JSON_parse e world; cbn [events trades throws].
  - intros Hin; inversion Hin.
  - intros Hin. apply list_elem_of_singleton in Hin. discriminate.
  - intros Hin; inversion Hin.
  - decide_facts cap JSON_parse world.
    intros Hin. apply elem_of_cons in Hin as [Hin|Hin]; [discriminate|].
    apply executeState_trade_event in Hin as (Ha & Hs & Hin).
    cbn [agentId set_state set_lastLLMDecision] in Ha.
    split; [rewrite Ha, Hid; reflexivity|]. split; [exact Hs|exact Hin].
Qed.

(** X14.  Every trade a cycle reports in a TRADE action event was handed
    to the protocol in that cycle, went to one of the engine's known
    peers, is larger than 0.000001 SOL and at most a tenth of the balance
    read at the start of the cycle, rounded to six decimals: at most
    balance/10 + 0.0000005.  The event names the engine's own agent and
    the source "llm", and such a cycle read a balance of at least 0.003
    SOL. *)
Theorem reported_trades_are_bounded
    cap JSON_parse e world balance agent amount target sig src rsn :
  getSOLBalance (conn_getBalance world) (wallet e) = inr balance ->
  action_TRADE agent amount target sig src rsn
    ∈ events (tick cap JSON_parse e world) ->
  agent = agentId e
  /\ src = Some "llm"%string
  /\ (target, amount) ∈ trades (tick cap JSON_parse e world)
  /\ (exists p, p ∈ peers e /\ target = Wallet.agentId p)
  /\ 1 # 1000000 < amount
  /\ amount <= toFixed6 (balance * (1 # 10))
  /\ amount <= balance * (1 # 10) + (1 # 2000000)
  /\ 3 # 1000 <= balance.
Proof.
  intros Hbal Hev.
  apply tick_trade_event in Hev as (Hagent & Hsrc & Hin).
  destruct (tick_trades_bounded cap JSON_parse e world balance
              (target, amount) Hbal Hin) as (Hp & Hdust & Hle & Hnear & Hfloor).
  cbn [fst snd] in *. auto 10.
Qed.

Lemma reported_trades_are_bounded_witness :
  let balance := 1000000000 # 1000000000 in
  let amount := 5000 # 1000000 in
  Wallet.agentId MultiSig.alice = agentId demo_engine
  /\ Some "llm"%string = Some "llm"%string
  /\ ("bob"%string, amount)
       ∈ trades (tick default_cap parse_fails demo_engine (cycle_world timeout 0))
  /\ (exists p, p ∈ peers demo_engine /\ "bob"%string = Wallet.agentId p)
  /\ 1 # 1000000 < amount
  /\ amount <= toFixed6 (balance * (1 # 10))
  /\ amount <= balance * (1 # 10) + (1 # 2000000)
  /\ 3 # 1000 <= balance.
Proof.
  apply (reported_trades_are_bounded default_cap parse_fails demo_engine
           (cycle_world timeout 0) (1000000000 # 1000000000) "alice"
           (5000 # 1000000) "bob" "2ZE7Rz" (Some "llm"%string)
           (Some "Rule-based trade opportunity"%string)).
  - reflexivity.
  - vm_compute. right. left.
Defined.

(** *** A cycle whose inference call succeeds *)

Lemma executeState_idle cap e world b d :
  state e = IDLE -> _executeStateWithLLMContext cap e world b d = no_op e.
Proof.
  intros Hst. unfold _executeStateWithLLMContext. rewrite Hst.
  rewrite !bool_decide_eq_false_2 by discriminate. reflexivity.
Qed.

(** X15.  When an API key is set and the inference call yields a parsed
    decision (balance at least 0.003), the cycle does not raise, counts one
    call and no failure, emits first a decision event tagged "llm" with
    the decision's reason and the state the validator chose, and keeps as
    last decision the object as the validator left it (with a capped
    amount if it capped).  If the validator chose IDLE, for instance
    because the action is no state name, that event is the only one, the
    protocol is not called and the state is IDLE. *)
Theorem parsed_answer_drives_the_cycle cap JSON_parse e world balance answer :
  getSOLBalance (conn_getBalance world) (wallet e) = inr balance ->
  3 # 1000 <= balance ->
  no_apiKey e = false ->
  llm_answer JSON_parse world = Some answer ->
  let r := tick cap JSON_parse e world in
  let v := _validateDecision cap answer balance in
  raised r = None
  /\ head (events r)
     = Some (decision_event (agentId e) (cycleCount e + 1) balance (state e)
               v.1 (Some "llm"%string) (Some (reason answer)))
  /\ _lastLLMDecision (engine r) = Some v.2
  /\ _llmCallCount (engine r) = (_llmCallCount e + 1)%Z
  /\ _llmFailCount (engine r) = _llmFailCount e
  /\ (v.1 = IDLE ->
      List.length (events r) = 1%nat /\ trades r = []
      /\ state (engine r) = IDLE).
Proof.
  intros Hbal Hfl Hkey Hans. cbv zeta.
  tick_cases cap JSON_parse e world; rewrite Hbal in Hb;
    [discriminate| | |]; injection Hb as <-; try (exfalso; lra).
  - exfalso. rewrite _llmDecide_eq in Hd.
    change (no_apiKey (incr_cycleCount e)) with (no_apiKey e) in Hd.
    rewrite Hkey, Hans in Hd. discriminate.
  - assert (Hd' := Hd). rewrite _llmDecide_eq in Hd'.
    change (no_apiKey (incr_cycleCount e)) with (no_apiKey e) in Hd'.
    rewrite Hkey, Hans in Hd'. injection Hd' as <- <-.
    rewrite validate_keeps_reason. cbn [raised engine events trades head].
    split; [apply executeState_never_raises|]. split; [reflexivity|].
    split; [|split; [|split]].
    + exec_facts cap world; reflexivity.
    + exec_facts cap world; reflexivity.
    + exec_facts cap world; reflexivity.
    + intros Hidle. rewrite executeState_idle by (cbn; exact Hidle).
      cbn. auto.
Qed.

Lemma parsed_answer_drives_the_cycle_witness :
  let world := cycle_world (answer "bob" "0.5") 0 in
  let r := tick default_cap (parse_trade "bob" "0.5" (1 # 2)) demo_engine
                world in
  let v := _validateDecision default_cap (trade_decision "bob" (1 # 2))
             (1000000000 # 1000000000) in
  raised r = None
  /\ head (events r)
     = Some (decision_event "alice" 1 (1000000000 # 1000000000) "IDLE"
               v.1 (Some "llm"%string)
               (Some (reason (trade_decision "bob" (1 # 2)))))
  /\ _lastLLMDecision (engine r) = Some v.2
  /\ _llmCallCount (engine r) = 1%Z
  /\ _llmFailCount (engine r) = 0%Z
  /\ (v.1 = IDLE ->
      List.length (events r) = 1%nat /\ trades r = []
      /\ state (engine r) = IDLE).
Proof.
  apply (parsed_answer_drives_the_cycle default_cap
           (parse_trade "bob" "0.5" (1 # 2)) demo_engine
           (cycle_world (answer "bob" "0.5") 0) (1000000000 # 1000000000)
           (trade_decision "bob" (1 # 2))).
  - reflexivity.
  - vm_compute. discriminate.
  - reflexivity.
  - vm_compute. reflexivity.
Defined.

(** *** The validator *)


(** X19.  Validating twice is validating once: the validator applied to
    the decision it returned, on the same balance, returns the same state
    and the same decision. *)
Theorem validator_is_idempotent cap d b :
  _validateDecision cap (_validateDecision cap d b).2 b
  = _validateDecision cap d b.
Proof.
  destruct (decide (action d ∈ AgentState_values)) as [Hv|Hv].
  2:{ rewrite (validate_invalid cap d b Hv). cbn.
      now apply validate_invalid. }
  destruct (decide (action d = TRADE)) as [Ha|Ha].
  2:{ unfold _validateDecision.
      rewrite (bool_decide_eq_true_2 _ Hv), (bool_decide_eq_false_2 _ Ha).
      cbn. now rewrite (bool_decide_eq_true_2 _ Hv),
             (bool_decide_eq_false_2 _ Ha). }
  destruct (Qlt_le_dec (b - num_or (tradeAmount d) 0) (3 # 1000)) as [Hlo|Hhi].
  { rewrite (validate_trade_below_floor cap d b Ha Hlo). cbn.
    now apply validate_trade_below_floor. }
  destruct (Qlt_le_dec cap (num_or (tradeAmount d) 0)) as [Hc|Hc].
  - rewrite (validate_trade_capped cap d b Ha Hhi Hc). cbn [snd].
    assert (Hn : num_or (tradeAmount (set_tradeAmount d cap)) 0 <= cap).
    { cbn. destruct (Qeq_bool cap 0) eqn:Hz; [|lra].
      apply Qeq_bool_eq in Hz. lra. }
    assert (Hn' : num_or (tradeAmount (set_tradeAmount d cap)) 0
                  <= num_or (tradeAmount d) 0).
    { lra. }
    apply validate_trade_kept; [exact Ha| |exact Hn]. lra.
  - rewrite (validate_trade_kept cap d b Ha Hhi Hc). cbn [snd].
    now apply validate_trade_kept.
Qed.

(** *** The JSON object inside the model's text *)

Lemma from_first_brace_spec s t :
  from_first_brace s = Some t <->
  exists pre rest, s = pre +:+ t /\ t = String "{" rest
                   /\ occurs "{" pre = false.
Proof.
  split.
  - revert t. induction s as [|c s IH]; intros t; cbn; [discriminate|].
    destruct (Ascii.eqb c "{") eqn:Hc.
    + intros [= <-]. apply Ascii.eqb_eq in Hc as ->.
      exists EmptyString, s. auto.
    + intros H. destruct (IH t H) as (pre & rest & -> & -> & Hpre).
      exists (String c pre), rest. cbn [occurs String.append].
      rewrite Hc, Hpre. auto.
  - intros (pre & rest & -> & -> & Hpre).
    induction pre as [|c pre IH]; [reflexivity|].
    cbn [occurs] in Hpre. apply orb_false_iff in Hpre as [Hc Hpre].
    change (String c pre +:+ String "{" rest)
      with (String c (pre +:+ String "{" rest)).
    cbn [from_first_brace]. rewrite Hc. now apply IH.
Qed.

Lemma upto_last_brace_None s :
  upto_last_brace s = None <-> occurs "}" s = false.
Proof.
  induction s as [|c s IH]; cbn; [tauto|].
  destruct (upto_last_brace s) as [t|].
  - split; [discriminate|]. intros H. apply orb_false_iff in H as [_ H].
    apply IH in H. discriminate.
  - destruct (Ascii.eqb c "}"); cbn; [split; discriminate|].
    split; intros _; [now apply IH|reflexivity].
Qed.

Lemma upto_last_brace_spec s j :
  upto_last_brace s = Some j <->
  exists body post, s = body +:+ "}" +:+ post /\ j = body +:+ "}"
                    /\ occurs "}" post = false.
Proof.
  split.
  - revert j. induction s as [|c s IH]; intros j; cbn; [discriminate|].
    destruct (upto_last_brace s) as [t|] eqn:Hs.
    + intros [= <-]. destruct (IH t eq_refl) as (body & post & -> & -> & Hp).
      exists (String c body), post. auto.
    + destruct (Ascii.eqb c "}") eqn:Hc; [|discriminate].
      intros [= <-]. apply Ascii.eqb_eq in Hc as ->.
      exists EmptyString, s. cbn. split; [reflexivity|].
      split; [reflexivity|]. now apply upto_last_brace_None.
  - intros (body & post & -> & -> & Hpost).
    induction body as [|c body IH].
    + apply upto_last_brace_None in Hpost.
      change (upto_last_brace (String "}" post) = Some (String "}" EmptyString)).
      cbn [upto_last_brace]. now rewrite Hpost.
    + change (upto_last_brace (String c (body +:+ "}" +:+ post))
              = Some (String c (body +:+ "}"))).
      cbn [upto_last_brace]. now rewrite IH.
Qed.

(** X17.  The text handed to [JSON.parse].  The regular expression of
    [_llmDecide] finds a match exactly when the model's text contains an
    opening brace with a closing brace somewhere after it, and the match
    then runs from the first opening brace of the text to its last closing
    brace. *)
Theorem match_json_first_to_last_brace s j :
  match_json s = Some j <->
  exists pre body post,
    s = pre +:+ "{" +:+ body +:+ "}" +:+ post
    /\ j = "{" +:+ body +:+ "}"
    /\ occurs "{" pre = false
    /\ occurs "}" post = false.
Proof.
  unfold match_json. split.
  - destruct (from_first_brace s) as [t|] eqn:Hf; [|discriminate].
    apply from_first_brace_spec in Hf as (pre & rest & -> & -> & Hpre).
    intros Hu. apply upto_last_brace_spec in Hu as (body & post & Heq & -> & Hp).
    destruct body as [|c body].
    + cbn in Heq. discriminate.
    + cbn in Heq. injection Heq as <- ->.
      exists pre, body, post. auto.
  - intros (pre & body & post & -> & -> & Hpre & Hpost).
    assert (Hf : from_first_brace (pre +:+ "{" +:+ body +:+ "}" +:+ post)
                 = Some ("{" +:+ body +:+ "}" +:+ post)).
    { apply from_first_brace_spec. exists pre, (body +:+ "}" +:+ post). auto. }
    rewrite Hf. apply upto_last_brace_spec.
    exists (String "{" body), post. auto.
Qed.

End EngineMore.

(* ===================================================================== *)
(** ** Facts about the protocol methods *)
(* ===================================================================== *)

Module DeFiFacts.
Import Wallet DeFi.

Local Open Scope Q_scope.

Lemma donor_step_refl t d : donor_step t d d.
Proof. unfold donor_step. repeat split; auto; lra. Qed.

Lemma donor_step_trans t d1 d2 d3 :
  donor_step t d1 d2 -> donor_step t d2 d3 -> donor_step t d1 d3.
Proof.
  unfold donor_step. intros (Hw1 & Hb1 & Hf1) (Hw2 & Hb2 & Hf2).
  repeat split; [congruence|lra|auto].
Qed.

Lemma Forall2_donor_refl t ds : Forall2 (donor_step t) ds ds.
Proof. induction ds; constructor; auto using donor_step_refl. Qed.

Lemma Forall2_donor_trans t ds1 : forall ds2 ds3,
  Forall2 (donor_step t) ds1 ds2 -> Forall2 (donor_step t) ds2 ds3 ->
  Forall2 (donor_step t) ds1 ds3.
Proof.
  induction ds1 as [|d ds1 IH]; intros ds2 ds3 H12 H23;
    inversion H12; subst; inversion H23; subst; constructor.
  - eapply donor_step_trans; eassumption.
  - eapply IH; eassumption.
Qed.

Lemma pool_total_cons d ds : pool_total (d :: ds) = bal d + pool_total ds.
Proof. reflexivity. Qed.

(** What one pass over the donors does for one receiver. *)
Lemma serve_spec world t : forall donors r needed n r' needed' donors' n' calls,
  serve world t r needed donors n = (r', needed', donors', n', calls) ->
  pe_wallet r' = pe_wallet r
  /\ bal r' + needed' == bal r + needed
  /\ bal r' + pool_total donors' == bal r + pool_total donors
  /\ needed' <= needed
  /\ (0 <= needed -> 0 <= needed')
  /\ Forall2 (donor_step t) donors donors'
  /\ Forall (fun c =>
               sc_receiver c = pe_wallet r
               /\ sc_amount c = Engine.toFixed6 (sc_send c)
               /\ 0 < sc_send c
               /\ sc_send c <= needed
               /\ exists d, d ∈ donors /\ pe_wallet d = sc_donor c
                            /\ sc_send c <= bal d - t - (1 # 1000)) calls.
Proof.
  induction donors as [|donor rest IH];
    intros r needed n r' needed' donors' n' calls Hs; cbn in Hs.
  { injection Hs as <- <- <- <- <-. cbn.
    repeat split; try lra; constructor. }
  destruct (Qle_bool needed 0) eqn:Hneed.
  { injection Hs as <- <- <- <- <-.
    repeat split; try lra; try constructor;
      auto using donor_step_refl, Forall2_donor_refl. }
  assert (Hpos : 0 < needed).
  { apply Qnot_le_lt. intros Hc. apply Qle_bool_iff in Hc. congruence. }
  assert (Hkeep : forall r1 nd1 ds1 n1 c1 m,
            serve world t r needed rest m = (r1, nd1, ds1, n1, c1) ->
            pe_wallet r1 = pe_wallet r
            /\ bal r1 + nd1 == bal r + needed
            /\ bal r1 + pool_total (donor :: ds1)
               == bal r + pool_total (donor :: rest)
            /\ nd1 <= needed
            /\ (0 <= needed -> 0 <= nd1)
            /\ Forall2 (donor_step t) (donor :: rest) (donor :: ds1)
            /\ Forall (fun c =>
                  sc_receiver c = pe_wallet r
                  /\ sc_amount c = Engine.toFixed6 (sc_send c)
                  /\ 0 < sc_send c
                  /\ sc_send c <= needed
                  /\ exists d, d ∈ donor :: rest /\ pe_wallet d = sc_donor c
                               /\ sc_send c <= bal d - t - (1 # 1000)) c1).
  { intros r1 nd1 ds1 n1 c1 m Hrec.
    destruct (IH _ _ _ _ _ _ _ _ Hrec) as (Hw & Hn & Ht & Hle & Hz & Hd & Hc).
    repeat split; auto.
    - rewrite !pool_total_cons. lra.
    - constructor; auto using donor_step_refl.
    - eapply Forall_impl; [exact Hc|]. cbn.
      intros c (? & ? & ? & ? & d & Hin & ? & ?).
      repeat split; auto. exists d. split; [now right|auto]. }
  destruct (Qle_bool (bal donor - t - (1 # 1000)) 0) eqn:Hav.
  { destruct (serve world t r needed rest n) as [[[[r1 nd1] ds1] n1] c1] eqn:Hrec.
    injection Hs as <- <- <- <- <-. eapply Hkeep, Hrec. }
  assert (Havail : 0 < bal donor - t - (1 # 1000)).
  { apply Qnot_le_lt. intros Hc. apply Qle_bool_iff in Hc. congruence. }
  destruct (publicKeyObj (pe_wallet r)) as [e|pk].
  { destruct (serve world t r needed rest n) as [[[[r1 nd1] ds1] n1] c1] eqn:Hrec.
    injection Hs as <- <- <- <- <-. eapply Hkeep, Hrec. }
  set (send := Qmin needed (bal donor - t - (1 # 1000))) in *.
  assert (Hsend : 0 < send /\ send <= needed
                  /\ send <= bal donor - t - (1 # 1000)).
  { unfold send. split; [apply Q.min_glb_lt; assumption|].
    split; [apply Q.le_min_l|apply Q.le_min_r]. }
  destruct Hsend as (Hs0 & Hs1 & Hs2).
  destruct (sendSOL world n (pe_wallet donor) pk (Engine.toFixed6 send))
    as [e|sig].
  - destruct (serve world t r needed rest (S n))
      as [[[[r1 nd1] ds1] n1] c1] eqn:Hrec.
    injection Hs as <- <- <- <- <-.
    destruct (Hkeep _ _ _ _ _ _ Hrec) as (Hw & Hn & Ht & Hle & Hz & Hd & Hc).
    repeat split; auto.
    constructor; [|exact Hc]. cbn. repeat split; auto.
    exists donor. split; [left|auto].
  - destruct (serve world t (take r send) (needed - send) rest (S n))
      as [[[[r1 nd1] ds1] n1] c1] eqn:Hrec.
    injection Hs as <- <- <- <- <-.
    destruct (IH _ _ _ _ _ _ _ _ Hrec) as (Hw & Hn & Ht & Hle & Hz & Hd & Hc).
    cbn in Hw, Hn, Ht. repeat split; auto.
    + lra.
    + rewrite !pool_total_cons. cbn [bal give]. lra.
    + lra.
    + intros _. apply Hz. lra.
    + constructor; [|exact Hd]. unfold donor_step. cbn.
      repeat split; [lra|intros _; lra].
    + constructor.
      * cbn. repeat split; auto. exists donor. split; [left|auto].
      * eapply Forall_impl; [exact Hc|]. cbn.
        intros c (? & ? & ? & ? & d & Hin & ? & ?).
        repeat split; auto; [lra|]. exists d. split; [now right|auto].
Qed.

Lemma Forall2_donor_elem t ds ds' d' :
  Forall2 (donor_step t) ds ds' -> d' ∈ ds' ->
  exists d, d ∈ ds /\ donor_step t d d'.
Proof.
  intros HF Hin. apply list_elem_of_lookup in Hin as [i Hi].
  destruct (Forall2_lookup_r _ _ _ _ _ HF Hi) as (d & Hd & Hstep).
  exists d. split; [eapply list_elem_of_lookup_2, Hd|exact Hstep].
Qed.

(** What the two loops do together. *)
Lemma rebalance_loop_spec world t :
  forall receivers donors n receivers' donors' calls,
  rebalance_loop world t receivers donors n = (receivers', donors', calls) ->
  pool_total receivers' + pool_total donors'
  == pool_total receivers + pool_total donors
  /\ Forall2 (receiver_step t) receivers receivers'
  /\ Forall2 (donor_step t) donors donors'
  /\ Forall (call_ok t receivers donors) calls.
Proof.
  induction receivers as [|r rest IH];
    intros donors n receivers' donors' calls Hl; cbn in Hl.
  { injection Hl as <- <- <-.
    repeat split; try lra; try constructor. apply Forall2_donor_refl. }
  destruct (serve world t r (t - bal r) donors n)
    as [[[[r1 nd1] ds1] n1] c1] eqn:Hs.
  destruct (rebalance_loop world t rest ds1 n1) as [[rs2 ds2] c2] eqn:Hr.
  injection Hl as <- <- <-.
  destruct (serve_spec _ _ _ _ _ _ _ _ _ _ _ Hs)
    as (Hw & Hn & Ht & Hle & Hz & Hd & Hc).
  destruct (IH _ _ _ _ _ Hr) as (Ht2 & Hrs & Hds & Hc2).
  split; [rewrite !pool_total_cons; lra|].
  split.
  { constructor; [|exact Hrs]. unfold receiver_step.
    split; [exact Hw|]. split; [lra|]. intros Hb.
    assert (0 <= nd1) by (apply Hz; lra). lra. }
  split; [eapply Forall2_donor_trans; eassumption|].
  apply Forall_app. split.
  - eapply Forall_impl; [exact Hc|]. cbn.
    intros c (Hrc & Ha & Hp & Hsn & d & Hin & Hdw & Hdb).
    unfold call_ok. repeat split; auto.
    + exists r. split; [left|]. split; [congruence|exact Hsn].
    + eauto.
  - eapply Forall_impl; [exact Hc2|]. cbn.
    intros c (Ha & Hp & (r0 & Hin & Hrw & Hrb) & d' & Hin' & Hdw & Hdb).
    destruct (Forall2_donor_elem _ _ _ _ Hd Hin') as (d & Hind & Hw' & Hb' & _).
    unfold call_ok. repeat split; auto.
    + exists r0. split; [now right|auto].
    + exists d. split; [exact Hind|]. split; [congruence|lra].
Qed.

Lemma rebalance_loop_no_donors world t : forall receivers n,
  (rebalance_loop world t receivers [] n).2 = [].
Proof.
  induction receivers as [|r rest IH]; intros n; [reflexivity|].
  cbn. specialize (IH n).
  destruct (rebalance_loop world t rest [] n) as [[rs ds] cs]. cbn in *.
  now rewrite IH.
Qed.

Lemma filter_none {A : Type} (f : A -> bool) (l : list A) :
  Forall (fun x => f x = false) l -> List.filter f l = [].
Proof.
  induction 1 as [|x l Hx _ IH]; [reflexivity|]. cbn. now rewrite Hx.
Qed.

(** With cooperative world and loaded wallets a pass over the donors
    either fills the receiver or leaves no donor with a surplus. *)
Lemma serve_complete world t :
  cooperative world ->
  forall donors r needed n r' needed' donors' n' calls,
  loaded r -> Forall loaded donors ->
  serve world t r needed donors n = (r', needed', donors', n', calls) ->
  needed' <= 0 \/ Forall (fun d => bal d <= t + (1 # 1000)) donors'.
Proof.
  intros [Hvalid Hconf].
  induction donors as [|donor rest IH];
    intros r needed n r' needed' donors' n' calls Hr Hds Hs; cbn in Hs.
  { injection Hs as <- <- <- <- <-. right. constructor. }
  apply Forall_cons in Hds as [Hd Hds].
  destruct (Qle_bool needed 0) eqn:Hneed.
  { injection Hs as <- <- <- <- <-. left. now apply Qle_bool_iff. }
  destruct (Qle_bool (bal donor - t - (1 # 1000)) 0) eqn:Hav.
  { apply Qle_bool_iff in Hav.
    destruct (serve world t r needed rest n) as [[[[r1 nd1] ds1] n1] c1] eqn:Hrec.
    injection Hs as <- <- <- <- <-.
    destruct (IH _ _ _ _ _ _ _ _ Hr Hds Hrec) as [Hl|Hf]; [now left|].
    right. constructor; [lra|exact Hf]. }
  destruct Hr as [kr Hkr]. destruct Hd as [kd Hkd].
  unfold publicKeyObj, _getKeypair in Hs. rewrite Hkr in Hs.
  unfold sendSOL, _getKeypair in Hs. rewrite Hkd, Hvalid in Hs. cbn [negb] in Hs.
  match type of Hs with
  | context [pool_sendAndConfirm world ?a ?b ?c ?d] =>
      destruct (Hconf a b c d) as [sig Hsig]; rewrite Hsig in Hs
  end.
  set (send := Qmin needed (bal donor - t - (1 # 1000))) in *.
  destruct (serve world t (take r send) (needed - send) rest (S n))
    as [[[[r1 nd1] ds1] n1] c1] eqn:Hrec.
  injection Hs as <- <- <- <- <-.
  assert (Hr' : loaded (take r send)) by (unfold loaded; cbn; eauto).
  destruct (serve_spec _ _ _ _ _ _ _ _ _ _ _ Hrec)
    as (_ & _ & _ & Hle & _ & _ & _).
  destruct (IH _ _ _ _ _ _ _ _ Hr' Hds Hrec) as [Hl|Hf]; [now left|].
  destruct (Q.min_dec needed (bal donor - t - (1 # 1000))) as [Hm|Hm];
    fold send in Hm.
  - left. lra.
  - right. constructor; [cbn; lra|exact Hf].
Qed.

Lemma rebalance_loop_complete world t :
  cooperative world ->
  forall receivers donors n receivers' donors' calls,
  Forall loaded receivers -> Forall loaded donors ->
  rebalance_loop world t receivers donors n = (receivers', donors', calls) ->
  Forall (fun r => t <= bal r) receivers'
  \/ Forall (fun d => bal d <= t + (1 # 1000)) donors'.
Proof.
  intros Hco.
  induction receivers as [|r rest IH];
    intros donors n receivers' donors' calls Hrs Hds Hl; cbn in Hl.
  { injection Hl as <- <- <-. left. constructor. }
  apply Forall_cons in Hrs as [Hr Hrs].
  destruct (serve world t r (t - bal r) donors n)
    as [[[[r1 nd1] ds1] n1] c1] eqn:Hs.
  destruct (rebalance_loop world t rest ds1 n1) as [[rs2 ds2] c2] eqn:Hrec.
  injection Hl as <- <- <-.
  destruct (serve_spec _ _ _ _ _ _ _ _ _ _ _ Hs)
    as (_ & Hn & _ & _ & _ & Hd & _).
  assert (Hds1 : Forall loaded ds1).
  { apply Forall_forall. intros d' Hin.
    destruct (Forall2_donor_elem _ _ _ _ Hd Hin) as (d & Hind & Hw & _).
    rewrite Forall_forall in Hds. specialize (Hds d Hind).
    unfold loaded in *. now rewrite Hw. }
  destruct (rebalance_loop_spec _ _ _ _ _ _ _ _ Hrec) as (_ & _ & Hd2 & _).
  destruct (serve_complete world t Hco _ _ _ _ _ _ _ _ _ Hr Hds Hs) as [Hfill|Hex].
  - destruct (IH _ _ _ _ _ Hrs Hds1 Hrec) as [Hall|Hex]; [|now right].
    left. constructor; [lra|exact Hall].
  - right. apply Forall_forall. intros d2 Hin.
    destruct (Forall2_donor_elem _ _ _ _ Hd2 Hin) as (d1 & Hin1 & _ & Hb & _).
    rewrite Forall_forall in Hex. specialize (Hex d1 Hin1). cbn in Hex. lra.
Qed.

Lemma confirmed_volume_cons c cs :
  confirmed_volume (c :: cs)
  = if sc_confirmed c then sc_send c + confirmed_volume cs
    else confirmed_volume cs.
Proof. reflexivity. Qed.

Lemma confirmed_volume_app c1 c2 :
  confirmed_volume (c1 ++ c2)%list
  == confirmed_volume c1 + confirmed_volume c2.
Proof.
  induction c1 as [|c c1 IH]; cbn [app].
  - change (confirmed_volume []) with 0. lra.
  - rewrite !confirmed_volume_cons. destruct (sc_confirmed c); lra.
Qed.

(** The books move by the confirmed sends and by nothing else. *)
Lemma serve_ledger world t : forall donors r needed n r' needed' donors' n' calls,
  serve world t r needed donors n = (r', needed', donors', n', calls) ->
  bal r' == bal r + confirmed_volume calls
  /\ pool_total donors' == pool_total donors - confirmed_volume calls.
Proof.
  induction donors as [|donor rest IH];
    intros r needed n r' needed' donors' n' calls Hs; cbn in Hs.
  { injection Hs as <- <- <- <- <-. change (confirmed_volume []) with 0. lra. }
  destruct (Qle_bool needed 0).
  { injection Hs as <- <- <- <- <-. change (confirmed_volume []) with 0. lra. }
  destruct (Qle_bool (bal donor - t - (1 # 1000)) 0).
  { destruct (serve world t r needed rest n) as [[[[r1 nd1] ds1] n1] c1] eqn:Hrec.
    injection Hs as <- <- <- <- <-.
    destruct (IH _ _ _ _ _ _ _ _ Hrec) as [H1 H2].
    rewrite !pool_total_cons. lra. }
  destruct (publicKeyObj (pe_wallet r)) as [err|pk].
  { destruct (serve world t r needed rest n) as [[[[r1 nd1] ds1] n1] c1] eqn:Hrec.
    injection Hs as <- <- <- <- <-.
    destruct (IH _ _ _ _ _ _ _ _ Hrec) as [H1 H2].
    rewrite !pool_total_cons. lra. }
  set (send := Qmin needed (bal donor - t - (1 # 1000))) in *.
  destruct (sendSOL world n (pe_wallet donor) pk (Engine.toFixed6 send)).
  - destruct (serve world t r needed rest (S n))
      as [[[[r1 nd1] ds1] n1] c1] eqn:Hrec.
    injection Hs as <- <- <- <- <-.
    destruct (IH _ _ _ _ _ _ _ _ Hrec) as [H1 H2].
    rewrite !pool_total_cons, confirmed_volume_cons. cbn [sc_confirmed]. lra.
  - destruct (serve world t (take r send) (needed - send) rest (S n))
      as [[[[r1 nd1] ds1] n1] c1] eqn:Hrec.
    injection Hs as <- <- <- <- <-.
    destruct (IH _ _ _ _ _ _ _ _ Hrec) as [H1 H2].
    rewrite !pool_total_cons, confirmed_volume_cons.
    cbn [sc_confirmed sc_send bal take give] in *. lra.
Qed.

Lemma rebalance_loop_ledger world t :
  forall receivers donors n receivers' donors' calls,
  rebalance_loop world t receivers donors n = (receivers', donors', calls) ->
  pool_total receivers' == pool_total receivers + confirmed_volume calls
  /\ pool_total donors' == pool_total donors - confirmed_volume calls.
Proof.
  induction receivers as [|r rest IH];
    intros donors n receivers' donors' calls Hl; cbn in Hl.
  { injection Hl as <- <- <-. change (confirmed_volume []) with 0. lra. }
  destruct (serve world t r (t - bal r) donors n)
    as [[[[r1 nd1] ds1] n1] c1] eqn:Hs.
  destruct (rebalance_loop world t rest ds1 n1) as [[rs2 ds2] c2] eqn:Hr.
  injection Hl as <- <- <-.
  destruct (serve_ledger _ _ _ _ _ _ _ _ _ _ _ Hs) as [H1 H2].
  destruct (IH _ _ _ _ _ Hr) as [H3 H4].
  rewrite confirmed_volume_app, !pool_total_cons. lra.
Qed.

Lemma read_pool_spec world : forall wallets balances,
  read_pool world wallets = inr balances ->
  map pe_wallet balances = wallets /\ Forall loaded balances.
Proof.
  induction wallets as [|w rest IH]; intros balances Hr; cbn in Hr.
  { injection Hr as <-. split; [reflexivity|constructor]. }
  destruct (Engine.getSOLBalance (pool_getBalance world) w) as [err|b] eqn:Hb;
    [discriminate|].
  destruct (read_pool world rest) as [err|entries]; [discriminate|].
  injection Hr as <-. destruct (IH _ eq_refl) as [Hm Hl].
  split; [cbn; now rewrite Hm|]. constructor; [|exact Hl].
  unfold loaded. cbn. unfold Engine.getSOLBalance, publicKeyObj, _getKeypair in Hb.
  destruct (_keypair w); [eauto|discriminate].
Qed.

Lemma filter_Forall {A : Type} (f : A -> bool) (l : list A) :
  Forall (fun x => f x = true) (List.filter f l).
Proof.
  apply Forall_forall. intros x Hin. apply list_elem_of_In in Hin.
  now apply filter_In in Hin.
Qed.

Lemma filter_keeps {A : Type} (P : A -> Prop) (f : A -> bool) (l : list A) :
  Forall P l -> Forall P (List.filter f l).
Proof.
  rewrite !Forall_forall. intros H x Hin. apply H.
  apply list_elem_of_In in Hin. apply filter_In in Hin as [Hin _].
  now apply list_elem_of_In.
Qed.

Lemma is_donor_true t b : is_donor t b = true -> t + (2 # 1000) < bal b.
Proof. unfold is_donor. apply EngineFacts.Qltb_true. Qed.

Lemma is_receiver_true t b : is_receiver t b = true -> bal b < t - (2 # 1000).
Proof. unfold is_receiver. apply EngineFacts.Qltb_true. Qed.

Lemma rebalance_loop_bounds world t balances rs' ds' calls :
  rebalance_loop world t (List.filter (is_receiver t) balances)
                 (List.filter (is_donor t) balances) 0 = (rs', ds', calls) ->
  Forall (fun d => t + (1 # 1000) <= bal d) ds'
  /\ Forall (fun r => bal r <= t) rs'.
Proof.
  intros Hl.
  destruct (rebalance_loop_spec _ _ _ _ _ _ _ _ Hl) as (_ & Hrs & Hds & _).
  pose proof (filter_Forall (is_donor t) balances) as Hd0.
  pose proof (filter_Forall (is_receiver t) balances) as Hr0.
  clear Hl. split.
  - induction Hds as [|d d' ds ds'' (Hw & Hle & Hkeep) _ IH]; [constructor|].
    apply Forall_cons in Hd0 as [Hd Hd0]. apply is_donor_true in Hd.
    constructor; [apply Hkeep; lra|apply IH, Hd0].
  - induction Hrs as [|r r' rs rs'' (Hw & Hle & Hkeep) _ IH]; [constructor|].
    apply Forall_cons in Hr0 as [Hr Hr0]. apply is_receiver_true in Hr.
    constructor; [apply Hkeep; lra|apply IH, Hr0].
Qed.

(** X20. The bookkeeping of [rebalancePool]: over the two loops the
    receivers' tracked balances grow by exactly the amount of the
    confirmed sends and the donors' shrink by the same amount; no donor
    is taken below target + 0.001 and no receiver is lifted above the
    target; the entries keep their wallets and their order. *)
Theorem rebalance_books_stay_within_target world t balances :
  let donors := List.filter (is_donor t) balances in
  let receivers := List.filter (is_receiver t) balances in
  let result := rebalance_loop world t receivers donors 0 in
  pool_total result.1.1 == pool_total receivers + confirmed_volume result.2
  /\ pool_total result.1.2 == pool_total donors - confirmed_volume result.2
  /\ Forall (fun d => t + (1 # 1000) <= bal d) result.1.2
  /\ Forall (fun r => bal r <= t) result.1.1
  /\ map pe_wallet result.1.1 = map pe_wallet receivers
  /\ map pe_wallet result.1.2 = map pe_wallet donors.
Proof.
  intros donors receivers result. subst result.
  destruct (rebalance_loop world t receivers donors 0) as [[rs' ds'] calls] eqn:Hl.
  cbn [fst snd].
  destruct (rebalance_loop_ledger _ _ _ _ _ _ _ _ Hl) as [L1 L2].
  destruct (rebalance_loop_spec _ _ _ _ _ _ _ _ Hl) as (_ & Hrs & Hds & _).
  destruct (rebalance_loop_bounds _ _ _ _ _ _ Hl) as [Hdlow Rhigh].
  split; [exact L1|]. split; [exact L2|].
  split; [exact Hdlow|]. split; [exact Rhigh|].
  clear Hl L1 L2 Hdlow Rhigh. split.
  - induction Hrs as [|r r' rs rs'' (Hw & _) _ IH]; [reflexivity|].
    cbn. now rewrite Hw, IH.
  - induction Hds as [|d d' ds ds'' (Hw & _) _ IH]; [reflexivity|].
    cbn. now rewrite Hw, IH.
Qed.

(** X21. Every call of [sendSOL] that [rebalancePool] makes goes from a
    wallet of the pool whose balance was read at target + 0.002 or more to
    a wallet of the pool whose balance was read at target - 0.002 or less;
    the amount is positive, at most the receiver's deficit and at most the
    donor's surplus less the 0.001 kept for fees, and what is handed to
    [sendSOL] is that amount rounded to six decimals. *)
Theorem rebalance_calls_within_surplus_and_deficit world wallets t i c :
  (rebalancePool world wallets t).2 !! i = Some c ->
  exists balances d r,
    read_pool world wallets = inr balances
    /\ d ∈ balances /\ r ∈ balances
    /\ pe_wallet d = sc_donor c /\ pe_wallet r = sc_receiver c
    /\ sc_donor c ∈ wallets /\ sc_receiver c ∈ wallets
    /\ t + (2 # 1000) <= bal d /\ bal r <= t - (2 # 1000)
    /\ 0 < sc_send c
    /\ sc_send c <= t - bal r
    /\ sc_send c <= bal d - t - (1 # 1000)
    /\ sc_send c - (1 # 2000000) <= sc_amount c
    /\ sc_amount c <= sc_send c + (1 # 2000000).
Proof.
  unfold rebalancePool. intros Hi.
  destruct (read_pool world wallets) as [err|balances] eqn:Hread;
    [cbn in Hi; discriminate|].
  cbn [snd] in Hi.
  destruct (rebalance_loop world t (List.filter (is_receiver t) balances)
              (List.filter (is_donor t) balances) 0)
    as [[rs' ds'] calls] eqn:Hl.
  cbn [snd] in Hi.
  destruct (rebalance_loop_spec _ _ _ _ _ _ _ _ Hl) as (_ & _ & _ & Hc).
  rewrite Forall_forall in Hc.
  destruct (Hc c (list_elem_of_lookup_2 _ _ _ Hi))
    as (Ha & Hp & (r & Hr & Hrw & Hrb) & (d & Hd & Hdw & Hdb)).
  apply list_elem_of_In, filter_In in Hr as [Hr Hrf].
  apply list_elem_of_In, filter_In in Hd as [Hd Hdf].
  apply list_elem_of_In in Hr, Hd.
  apply is_receiver_true in Hrf. apply is_donor_true in Hdf.
  destruct (read_pool_spec _ _ _ Hread) as [Hmap _].
  exists balances, d, r.
  split; [reflexivity|]. do 4 (split; [assumption|]).
  split. { rewrite <- Hmap, <- Hdw. now apply list_elem_of_fmap_2. }
  split. { rewrite <- Hmap, <- Hrw. now apply list_elem_of_fmap_2. }
  split; [lra|]. split; [lra|].
  do 3 (split; [assumption|]).
  rewrite Ha. apply EngineMore.toFixed6_near.
Qed.

Lemma rebalance_calls_within_surplus_and_deficit_witness :
  (rebalancePool pool_world pool_wallets (1 # 2)).2 !! 0%nat = Some first_call
  /\ exists balances d r,
    read_pool pool_world pool_wallets = inr balances
    /\ d ∈ balances /\ r ∈ balances
    /\ pe_wallet d = MultiSig.alice /\ pe_wallet r = MultiSig.bob
    /\ MultiSig.alice ∈ pool_wallets /\ MultiSig.bob ∈ pool_wallets
    /\ (1 # 2) + (2 # 1000) <= bal d /\ bal r <= (1 # 2) - (2 # 1000)
    /\ 0 < sc_send first_call
    /\ sc_send first_call <= (1 # 2) - bal r
    /\ sc_send first_call <= bal d - (1 # 2) - (1 # 1000)
    /\ sc_send first_call - (1 # 2000000) <= sc_amount first_call
    /\ sc_amount first_call <= sc_send first_call + (1 # 2000000).
Proof.
  split; [reflexivity|].
  apply (rebalance_calls_within_surplus_and_deficit pool_world pool_wallets
           (1 # 2) 0%nat first_call).
  reflexivity.
Defined.

(** X22. When every balance read is below target + 0.002, or every one is
    above target - 0.002, [rebalancePool] returns without a single call of
    [sendSOL]. *)
Theorem rebalance_inside_band_sends_nothing world wallets t balances :
  read_pool world wallets = inr balances ->
  Forall (fun b => bal b < t + (2 # 1000)) balances
  \/ Forall (fun b => t - (2 # 1000) < bal b) balances ->
  rebalancePool world wallets t = (inr tt, []).
Proof.
  intros Hread Hband. unfold rebalancePool. rewrite Hread. f_equal.
  destruct Hband as [Hno|Hno].
  - rewrite (filter_none (is_donor t) balances).
    + apply rebalance_loop_no_donors.
    + eapply Forall_impl; [exact Hno|]. cbn. intros b Hb.
      unfold is_donor. apply EngineFacts.Qltb_false. lra.
  - rewrite (filter_none (is_receiver t) balances); [reflexivity|].
    eapply Forall_impl; [exact Hno|]. cbn. intros b Hb.
    unfold is_receiver. apply EngineFacts.Qltb_false. lra.
Qed.

Lemma rebalance_inside_band_sends_nothing_witness :
  rebalancePool pool_world pool_wallets 1 = (inr tt, []).
Proof.
  apply (rebalance_inside_band_sends_nothing pool_world pool_wallets 1
           pool_entries).
  - reflexivity.
  - left. repeat constructor; vm_compute; reflexivity.
Defined.

(** X23. On a node that confirms every transfer, the pass over a pool
    whose balances could be read ends in one of two ways: every receiver
    stands exactly at the target, or every donor stands exactly at
    target + 0.001 and has nothing left to give. *)
Theorem rebalance_fills_receivers_or_drains_donors world wallets t balances :
  cooperative world ->
  read_pool world wallets = inr balances ->
  let result := rebalance_loop world t (List.filter (is_receiver t) balances)
                  (List.filter (is_donor t) balances) 0 in
  (rebalancePool world wallets t).2 = result.2
  /\ (Forall (fun r => bal r == t) result.1.1
      \/ Forall (fun d => bal d == t + (1 # 1000)) result.1.2).
Proof.
  intros Hco Hread result.
  split; [unfold rebalancePool; now rewrite Hread|].
  destruct result as [[rs' ds'] calls] eqn:Hl. cbn [fst snd] in *.
  destruct (rebalance_loop_bounds _ _ _ _ _ _ Hl) as [Hdlow Rhigh].
  destruct (read_pool_spec _ _ _ Hread) as [_ Hloaded].
  destruct (rebalance_loop_complete world t Hco _ _ _ _ _ _
              (filter_keeps _ _ _ Hloaded) (filter_keeps _ _ _ Hloaded) Hl)
    as [Hfull|Hdry].
  - left. rewrite Forall_forall in *. intros r Hin.
    specialize (Hfull r Hin). specialize (Rhigh r Hin). cbn in *. lra.
  - right. rewrite Forall_forall in *. intros d Hin.
    specialize (Hdry d Hin). specialize (Hdlow d Hin). cbn in *. lra.
Qed.

Lemma rebalance_fills_receivers_or_drains_donors_witness :
  let result := rebalance_loop pool_world (1 # 2)
                  (List.filter (is_receiver (1 # 2)) pool_entries)
                  (List.filter (is_donor (1 # 2)) pool_entries) 0 in
  (rebalancePool pool_world pool_wallets (1 # 2)).2 = result.2
  /\ (Forall (fun r => bal r == 1 # 2) result.1.1
      \/ Forall (fun d => bal d == (1 # 2) + (1 # 1000)) result.1.2).
Proof.
  apply (rebalance_fills_receivers_or_drains_donors pool_world pool_wallets
           (1 # 2) pool_entries).
  - split; [reflexivity|]. intros. eexists. reflexivity.
  - reflexivity.
Defined.

(** X24. A pass in which no call of [sendSOL] was confirmed leaves every
    tracked balance as it was read: the bookkeeping moves only inside the
    [try], after the call has returned. *)
Theorem unconfirmed_calls_leave_books_untouched world t receivers donors n :
  Forall (fun c => sc_confirmed c = false)
         (rebalance_loop world t receivers donors n).2 ->
  (rebalance_loop world t receivers donors n).1 = (receivers, donors).
Proof.
  revert donors n.
  assert (Hserve : forall ds r needed k r' needed' ds' k' calls,
    serve world t r needed ds k = (r', needed', ds', k', calls) ->
    Forall (fun c => sc_confirmed c = false) calls ->
    r' = r /\ ds' = ds).
  { induction ds as [|donor rest IH];
      intros r needed k r' needed' ds' k' calls Hs Hall; cbn in Hs.
    { injection Hs as <- <- <- <- <-. auto. }
    destruct (Qle_bool needed 0).
    { injection Hs as <- <- <- <- <-. auto. }
    destruct (Qle_bool (bal donor - t - (1 # 1000)) 0).
    { destruct (serve world t r needed rest k)
        as [[[[r1 nd1] ds1] n1] c1] eqn:Hrec.
      injection Hs as <- <- <- <- <-.
      destruct (IH _ _ _ _ _ _ _ _ Hrec Hall) as [-> ->]. auto. }
    destruct (publicKeyObj (pe_wallet r)) as [err|pk].
    { destruct (serve world t r needed rest k)
        as [[[[r1 nd1] ds1] n1] c1] eqn:Hrec.
      injection Hs as <- <- <- <- <-.
      destruct (IH _ _ _ _ _ _ _ _ Hrec Hall) as [-> ->]. auto. }
    destruct (sendSOL world k (pe_wallet donor) pk _).
    - destruct (serve world t r needed rest (S k))
        as [[[[r1 nd1] ds1] n1] c1] eqn:Hrec.
      injection Hs as <- <- <- <- <-.
      apply Forall_cons in Hall as [_ Hall].
      destruct (IH _ _ _ _ _ _ _ _ Hrec Hall) as [-> ->]. auto.
    - destruct (serve world t (take r _) _ rest (S k))
        as [[[[r1 nd1] ds1] n1] c1] eqn:Hrec.
      injection Hs as <- <- <- <- <-.
      apply Forall_cons in Hall as [Hc _]. discriminate Hc. }
  induction receivers as [|r rest IH]; intros donors n Hall; [reflexivity|].
  cbn in *.
  destruct (serve world t r (t - bal r) donors n)
    as [[[[r1 nd1] ds1] n1] c1] eqn:Hs.
  specialize (IH ds1 n1).
  destruct (rebalance_loop world t rest ds1 n1) as [[rs2 ds2] c2] eqn:Hr.
  cbn [fst snd] in *. apply Forall_app in Hall as [Hall1 Hall2].
  destruct (Hserve _ _ _ _ _ _ _ _ _ Hs Hall1) as [-> ->].
  specialize (IH Hall2). injection IH as -> ->. reflexivity.
Qed.

Lemma unconfirmed_calls_leave_books_untouched_witness :
  (rebalance_loop frozen_world (1 # 2)
     (List.filter (is_receiver (1 # 2)) pool_entries)
     (List.filter (is_donor (1 # 2)) pool_entries) 0).1
  = (List.filter (is_receiver (1 # 2)) pool_entries,
     List.filter (is_donor (1 # 2)) pool_entries).
Proof.
  apply (unconfirmed_calls_leave_books_untouched frozen_world (1 # 2)).
  vm_compute. repeat constructor.
Defined.




End DeFiFacts.

(* ===================================================================== *)
(** ** Facts about the cycle of the rule engine, and what escapes a cycle *)
(* ===================================================================== *)

Module RuleEngineFacts.
Import Engine EngineObs EngineFacts RuleEngine.

Local Open Scope Q_scope.

Lemma _decide_valid e b : _decide e b ∈ AgentState_values.
Proof.
  unfold _decide, AgentState_values. repeat case_match; set_solver.
Qed.

Lemma _decide_TRADE e b :
  _decide e b = TRADE ->
  2 # 100 < b
  /\ Z.rem (cycleCount e) 7 <> 0%Z
  /\ Z.rem (cycleCount e) 12 <> 0%Z
  /\ peers e <> [].
Proof.
  unfold _decide.
  destruct (Qltb b (3 # 1000)); [discriminate|].
  destruct (Z.rem (cycleCount e) 7 =? 0)%Z eqn:H7; [discriminate|].
  destruct (bool_decide (0 < List.length (peers e))%nat) eqn:Hp.
  2:{ rewrite andb_false_r. cbn. discriminate. }
  rewrite andb_true_r. cbn [andb].
  destruct (Z.rem (cycleCount e) 12 =? 0)%Z eqn:H12; [discriminate|].
  destruct (Qltb (2 # 100) b) eqn:Hb; [|discriminate].
  intros _. apply Qltb_true in Hb. apply Z.eqb_neq in H7, H12.
  apply bool_decide_eq_true_1 in Hp.
  repeat split; auto. intros Hnil. rewrite Hnil in Hp. cbn in Hp. lia.
Qed.

(** The trade of the rule engine: who receives and how much. *)
Lemma _doTrade_trades cap e world b entry :
  0 <= random_trade_amount world < 1 ->
  entry ∈ trades (_doTrade cap e world b) ->
  (exists p, p ∈ peers e /\ entry.1 = Wallet.agentId p
             /\ Wallet.agentId p <> agentId e)
  /\ 0 < entry.2
  /\ entry.2 <= toFixed6 cap
  /\ entry.2 <= toFixed6 (b * (1 # 10)).
Proof.
  intros [Hr0 Hr1]. unfold _doTrade.
  destruct (bool_decide (List.length (peers e) = 0%nat));
    [intros H; inversion H|].
  destruct (random_element _ _) as [peer|] eqn:Hpeer; [|intros H; inversion H].
  case_bool_decide as Hself; [intros H; inversion H|].
  destruct (Qltb _ _) eqn:Hmax; [intros H; inversion H|].
  apply Qltb_false in Hmax.
  destruct (Qle_bool _ _) eqn:Hpos; [intros H; inversion H|].
  set (mx := Qmin cap (b * (1 # 10))) in *.
  set (amount := toFixed6 (random_trade_amount world * mx)) in *.
  assert (Hamt : 0 < amount).
  { apply Qnot_le_lt. intros Hc. apply Qle_bool_iff in Hc. congruence. }
  assert (Hprod : random_trade_amount world * mx <= mx).
  { assert (0 <= (1 - random_trade_amount world) * mx)
      by (apply Qmult_le_0_compat; lra). lra. }
  assert (Hcap : amount <= toFixed6 cap).
  { apply toFixed6_monotone. pose proof (Q.le_min_l cap (b * (1 # 10))).
    fold mx in H. lra. }
  assert (Hbal : amount <= toFixed6 (b * (1 # 10))).
  { apply toFixed6_monotone. pose proof (Q.le_min_r cap (b * (1 # 10))).
    fold mx in H. lra. }
  assert (Hin : peer ∈ peers e).
  { unfold random_element in Hpeer. case_bool_decide; [|discriminate].
    eapply list_elem_of_lookup_2, Hpeer. }
  destruct (Wallet.publicKeyObj peer); [intros H; inversion H|].
  destruct (executeTrade world _ _); cbn; intros H;
    apply list_elem_of_singleton in H; subst; cbn; eauto 10.
Qed.

Lemma rule_executeState_trades cap e world b entry :
  entry ∈ trades (_executeState cap e world b) ->
  state e = TRADE /\ entry ∈ trades (_doTrade cap e world b).
Proof.
  unfold _executeState.
  case_bool_decide as Ht.
  { destruct (raised _); cbn; auto. }
  case_bool_decide as Hy.
  { unfold _doYield. destruct (simulateYield world _); cbn;
      intros Hin; inversion Hin. }
  case_bool_decide as Hr.
  { unfold _doRebal. destruct (all_balances _ _); cbn;
      [intros Hin; inversion Hin|].
    destruct (rebalancePool world _) as [?|[]]; cbn;
      intros Hin; inversion Hin. }
  cbn. intros Hin; inversion Hin.
Qed.

Lemma rule_executeState_never_raises cap e world b :
  raised (_executeState cap e world b) = None.
Proof.
  unfold _executeState.
  set (r := if bool_decide (state e = TRADE) then _ else _).
  destruct (raised r) eqn:H; [reflexivity|exact H].
Qed.

Lemma rule_executeState_state cap e world b :
  state (engine (_executeState cap e world b)) = state e
  \/ state (engine (_executeState cap e world b)) = IDLE.
Proof.
  unfold _executeState.
  set (r := if bool_decide (state e = TRADE) then _ else _).
  destruct (raised r) eqn:H; [now right|]. left. subst r.
  repeat case_bool_decide.
  - unfold _doTrade in *. repeat case_match; try reflexivity; cbn in *;
      discriminate.
  - unfold _doYield in *. repeat case_match; try reflexivity; cbn in *;
      discriminate.
  - unfold _doRebal in *. repeat case_match; try reflexivity; cbn in *;
      discriminate.
  - reflexivity.
Qed.

(** X26. The rule engine hands a trade to the protocol only in a cycle
    whose balance is above 0.02 SOL and whose number is a multiple of
    neither 7 nor 12; the trade goes to a peer whose agent id differs from
    the engine's own, and for a random draw in [0, 1) its amount is
    positive and at most the spend cap and a tenth of the balance, each
    rounded to six decimals. *)
Theorem rule_trades_are_guarded cap e world balance entry :
  0 <= random_trade_amount world < 1 ->
  getSOLBalance (conn_getBalance world) (wallet e) = inr balance ->
  entry ∈ trades (RuleEngine.tick cap e world) ->
  2 # 100 < balance
  /\ Z.rem (cycleCount e + 1) 7 <> 0%Z
  /\ Z.rem (cycleCount e + 1) 12 <> 0%Z
  /\ (exists p, p ∈ peers e /\ entry.1 = Wallet.agentId p
                /\ Wallet.agentId p <> agentId e)
  /\ 0 < entry.2
  /\ entry.2 <= toFixed6 cap
  /\ entry.2 <= toFixed6 (balance * (1 # 10)).
Proof.
  intros Hrand Hbal. unfold RuleEngine.tick.
  change (wallet (incr_cycleCount e)) with (wallet e). rewrite Hbal.
  cbn [trades]. intros Hin.
  apply rule_executeState_trades in Hin as [Hstate Hin].
  cbn [state set_state] in Hstate.
  apply _decide_TRADE in Hstate as (Hb & H7 & H12 & _).
  apply (_doTrade_trades cap _ _ _ _ Hrand) in Hin
    as (Hpeer & Hpos & Hcap & Htenth).
  cbn [cycleCount incr_cycleCount] in H7, H12.
  repeat (split; [assumption|]). assumption.
Qed.

Lemma rule_trades_are_guarded_witness :
  let entry := ("bob"%string, 5000 # 1000000) in
  let balance := 1000000000 # 1000000000 in
  2 # 100 < balance
  /\ Z.rem (cycleCount demo_engine + 1) 7 <> 0%Z
  /\ Z.rem (cycleCount demo_engine + 1) 12 <> 0%Z
  /\ (exists p, p ∈ peers demo_engine /\ entry.1 = Wallet.agentId p
                /\ Wallet.agentId p <> agentId demo_engine)
  /\ 0 < entry.2
  /\ entry.2 <= toFixed6 default_cap
  /\ entry.2 <= toFixed6 (balance * (1 # 10)).
Proof.
  apply (rule_trades_are_guarded default_cap demo_engine
           (cycle_world timeout (1 # 2))).
  - split; [discriminate|reflexivity].
  - reflexivity.
  - vm_compute. left.
Defined.

(** X27. The only exception that escapes a cycle of the rule engine is a
    failed balance read: [tick] raises exactly when reading the balance
    raises, with that error, before any event; every cycle advances the
    cycle counter by one, and a cycle that does not raise starts with the
    decision event of the rule ladder and leaves the engine in one of the
    four states. *)
Theorem rule_tick_raises_only_on_balance_read cap e world :
  let r := RuleEngine.tick cap e world in
  (forall err,
     raised r = Some err
     <-> getSOLBalance (conn_getBalance world) (wallet e) = inl err)
  /\ cycleCount (engine r) = (cycleCount e + 1)%Z
  /\ (raised r <> None -> events r = [] /\ trades r = [])
  /\ (forall balance,
        getSOLBalance (conn_getBalance world) (wallet e) = inr balance ->
        head (events r)
        = Some (decision_event (agentId e) (cycleCount e + 1) balance
                  (state e) (_decide (incr_cycleCount e) balance) None None)
        /\ state (engine r) ∈ AgentState_values).
Proof.
  cbv zeta. unfold RuleEngine.tick.
  change (wallet (incr_cycleCount e)) with (wallet e).
  destruct (getSOLBalance (conn_getBalance world) (wallet e))
    as [err0|balance] eqn:Hbal.
  { cbn. split; [intros err; split; intros [= ->]; reflexivity|].
    split; [reflexivity|]. split; [auto|]. intros b Hb. discriminate. }
  cbn [raised engine events trades].
  set (e1 := set_state (incr_cycleCount e) (_decide (incr_cycleCount e) balance)).
  pose proof (rule_executeState_never_raises cap e1 world balance) as Hnone.
  rewrite Hnone.
  split; [intros err; split; discriminate|].
  split.
  { unfold _executeState.
    set (r := if bool_decide (state e1 = TRADE) then _ else _).
    assert (Hc : cycleCount (engine r) = (cycleCount e + 1)%Z).
    { subst r. repeat case_bool_decide.
      - unfold _doTrade. repeat case_match; reflexivity.
      - unfold _doYield. repeat case_match; reflexivity.
      - unfold _doRebal. repeat case_match; reflexivity.
      - reflexivity. }
    destruct (raised r); exact Hc. }
  split; [intros Hc; contradiction|].
  intros b [= <-]. split; [reflexivity|].
  destruct (rule_executeState_state cap e1 world balance) as [-> | ->].
  - apply _decide_valid.
  - left.
Qed.

(** X28. The same for the inference engine, for a random draw in [0, 1):
    whatever the inference call answers or however it fails, and whatever
    the protocol does, [tick] raises exactly when the balance read at the
    start of the cycle raises, with that error. *)
Theorem llm_tick_raises_only_on_balance_read cap JSON_parse e world err :
  0 <= random_fallback_peer world < 1 ->
  raised (Engine.tick cap JSON_parse e world) = Some err
  <-> getSOLBalance (conn_getBalance world) (wallet e) = inl err.
Proof.
  intros Hrand. unfold Engine.tick.
  change (wallet (incr_cycleCount e)) with (wallet e).
  destruct (getSOLBalance (conn_getBalance world) (wallet e))
    as [err0|balance] eqn:Hbal.
  { cbn. split; intros [= ->]; reflexivity. }
  destruct (Qltb balance (3 # 1000)); [cbn; split; discriminate|].
  destruct (getSOLBalance_loaded _ _ _ Hbal) as [pk ->].
  rewrite _llmDecide_eq.
  set (e1 := incr_cycleCount e).
  set (snapshot := {| s_agentId := agentId e1 |}).
  assert (Hfb : forall e', exists d,
             _fallbackDecisionObject cap e' world (balanceSOL snapshot) = inr d).
  { intros e'. destruct (fallback_is_rule_decision cap e' world
                           (balanceSOL snapshot) Hrand) as (d & Hd & _).
    eauto. }
  destruct (no_apiKey e1).
  - destruct (Hfb e1) as [d ->].
    destruct (_validateDecision cap d balance) as [nextState d'].
    cbn [raised]. rewrite executeState_never_raises. split; discriminate.
  - destruct (llm_answer JSON_parse world) as [parsed|].
    + destruct (_validateDecision cap parsed balance) as [nextState d'].
      cbn [raised]. rewrite executeState_never_raises. split; discriminate.
    + destruct (Hfb (incr_llmFailCount (incr_llmCallCount e1))) as [d ->].
      destruct (_validateDecision cap d balance) as [nextState d'].
      cbn [raised]. rewrite executeState_never_raises. split; discriminate.
Qed.

Lemma llm_tick_raises_only_on_balance_read_witness :
  raised (Engine.tick default_cap parse_fails demo_engine unreachable_world)
  = Some (Wallet.ExternalError "fetch failed")
  <-> getSOLBalance (conn_getBalance unreachable_world) (wallet demo_engine)
      = inl (Wallet.ExternalError "fetch failed").
Proof.
  apply (llm_tick_raises_only_on_balance_read default_cap parse_fails
           demo_engine unreachable_world).
  split; [discriminate|reflexivity].
Defined.

End RuleEngineFacts.
